(** * Group membership, edge aggregation and the Cola layout driver

    A shallow embedding of [src/layout/layouts/ColaLayout/ColaLayout.ts]
    (class [ColaLayout]) and of the class [NodeGroup] that follows it in the
    same source file.

    Objects of the TypeScript program are kept in an arena: a [Node] is
    referred to by its [identifier], a [NodeGroup] by its [id] (allocated from
    [NodeGroup.IDCounter], hence unique), a [GroupEdge] by the index at which
    [new GroupEdge(...)] allocated it.  Fields that hold a reference hold such
    a key, so two references are identical exactly when the keys are equal.
    A reference of the program always leads to an object; a key that the
    arena does not hold reads as an inert default object, which no store built
    from a run of the program contains.

    JavaScript numbers that carry geometry are idealised as real numbers;
    counters and lengths are natural numbers. *)

From Stdlib Require Import Reals Lra.
From stdpp Require Import gmap strings list fin_maps relations.

(** ** JavaScript containers *)

(** [Set<string>]: iteration follows insertion order and an element occurs
    once, so a set is the list of its elements in insertion order. *)
Module JsSet.

Definition t := list string.

Definition has (s : t) (x : string) : bool := bool_decide (x ∈ s).

Definition add (s : t) (x : string) : t := if has s x then s else s ++ [x].

(** [new Set(array)] *)
Definition of_array (a : list string) : t := foldl add [] a.

(** [for (let cls of s) if (!a.includes(cls)) s.delete(cls)]: the iteration
    visits every element once, also when the current one is deleted. *)
Definition retain_included (s : t) (a : list string) : t :=
  filter (λ cls, cls ∈ a) s.

(** [Array.from(s)] *)
Definition to_array (s : t) : list string := s.

End JsSet.

(** [Map<string, V>]: iteration follows the insertion order of the keys;
    [set] on a present key keeps its position. *)
Module JsMap.
Section ops.
Context {V : Type}.

Definition t := list (string * V).

Fixpoint get (m : t) (k : string) : option V :=
  match m with
  | [] => None
  | (k', v) :: m' => if decide (k' = k) then Some v else get m' k
  end.

Definition has (m : t) (k : string) : bool :=
  match get m k with Some _ => true | None => false end.

Fixpoint set (m : t) (k : string) (v : V) : t :=
  match m with
  | [] => [(k, v)]
  | (k', v') :: m' =>
      if decide (k' = k) then (k, v) :: m' else (k', v') :: set m' k v
  end.

Definition values (m : t) : list V := m.*2.

End ops.
Arguments t : clear implicits.

Section map_values.
Context {V W : Type}.

(** Applying [f] to every value of a map. *)
Definition map_values (f : V → W) (m : t V) : t W := (λ kv, (kv.1, f kv.2)) <$> m.

End map_values.

End JsMap.

(** ** Entities *)

(** [EdgeType] (declared in the absent [Edge.ts]); only [iri] is read. *)
Record EdgeType := mkEdgeType { iri : string }.

Module Edge.
(** The fields of [Edge] that the sources read.  [isVisible] is a getter of
    the absent [Edge.ts]; the record holds its value. *)
Record t := mk {
  source : string;
  target : string;
  type : EdgeType;
  classes : list string;
  isVisible : bool;
}.
End Edge.

Module Node.
(** The fields of [Node] that the sources read or write.  [isVisible] is a
    getter of the absent [Node.ts]; the record holds its value. *)
Record t := mk {
  isVisible : bool;
  belongsToGroup : option string;
  classes : list string;
  edges : list Edge.t;
  mounted : bool;
  onMountPosition : option (R * R);
}.

Definition set_belongsToGroup (g : option string) (n : t) : t :=
  mk (isVisible n) g (classes n) (edges n) (mounted n) (onMountPosition n).

Definition set_onMountPosition (p : R * R) (n : t) : t :=
  mk (isVisible n) (belongsToGroup n) (classes n) (edges n) (mounted n) (Some p).

Definition set_mounted (b : bool) (n : t) : t :=
  mk (isVisible n) (belongsToGroup n) (classes n) (edges n) b (onMountPosition n).

End Node.

#[global] Instance Node_inhabited : Inhabited Node.t :=
  populate (Node.mk false None [] [] false None).

(** A value of static type [Node | NodeGroup]; the constructor answers
    [instanceof NodeGroup]. *)
Inductive NodeCommon :=
| IsNode (identifier : string)
| IsGroup (id : string).

#[global] Instance NodeCommon_eq_dec : EqDecision NodeCommon.
Proof. solve_decision. Defined.

Definition NodeCommon_identifier (n : NodeCommon) : string :=
  match n with IsNode i => i | IsGroup i => i end.

Module GroupEdge.

Record t := mk {
  source : NodeCommon;
  target : NodeCommon;
  type : EdgeType;
  classes : list string;
}.

Definition set_classes (c : list string) (e : t) : t :=
  mk (source e) (target e) (type e) c.

(** [GroupEdge.identifier] is a getter of the absent [GroupEdge.ts].  The
    specification fixes only that it is computed from the source identifier,
    the target identifier and the type, so it is a parameter [idf] of
    everything below that reads it. *)
Definition identifier (idf : string → string → string → string) (e : t) : string :=
  idf (NodeCommon_identifier (source e)) (NodeCommon_identifier (target e))
      (iri (type e)).

End GroupEdge.

#[global] Instance GroupEdge_inhabited : Inhabited GroupEdge.t :=
  populate (GroupEdge.mk (IsNode EmptyString) (IsNode EmptyString)
                         (mkEdgeType EmptyString) []).

(** ** class NodeGroup *)

Module NodeGroup.

Record t := mk {
  nodes : list string;
  visible : bool;
}.

Definition push_node (n : string) (g : t) : t := mk (nodes g ++ [n]) (visible g).

(** The private field [groupEdgesCache]: three plain objects used as maps
    from a [GroupEdge] identifier to the cached instance. *)
Record GroupEdgesCache := mkCache {
  out : gmap string nat;
  in_ : gmap string nat;
  in_group : gmap string nat;
}.

(** The nodes and groups reachable from a group. *)
Record Graph := mkGraph {
  graph_nodes : gmap string Node.t;
  graph_groups : gmap string t;
}.

(** The whole store: the graph, the [groupEdgesCache] field of every group
    (absent while the field is [undefined]) and the [GroupEdge] objects in
    allocation order. *)
Record Store := mkStore {
  graph : Graph;
  groupEdgesCache : gmap string GroupEdgesCache;
  groupEdges : list GroupEdge.t;
}.

#[global] Instance inhabited : Inhabited t := populate (mk [] false).

Definition node_at (g : Graph) (n : string) : Node.t := graph_nodes g !!! n.

Definition group_at (g : Graph) (i : string) : NodeGroup.t := graph_groups g !!! i.

(** [addNode(node, overrideExistingGroup)].  The boolean of the result tells
    whether [console.assert] reported a failed assertion. *)
Definition addNode (g : Graph) (this node : string) (overrideExistingGroup : bool)
  : bool * Graph :=
  let ok :=
    negb (bool_decide (is_Some (Node.belongsToGroup (node_at g node))))
    || overrideExistingGroup in
  (negb ok,
   if ok then
     mkGraph
       (<[node := Node.set_belongsToGroup (Some this) (node_at g node)]> (graph_nodes g))
       (<[this := push_node node (group_at g this)]> (graph_groups g))
   else g).

(** [get classes()] *)
Definition classes (g : Graph) (this : string) : list string :=
  let first :=
    match nodes (group_at g this) with
    | [] => []
    | n :: _ => Node.classes (node_at g n)
    end in
  JsSet.to_array
    (foldl (λ cls n, JsSet.retain_included cls (Node.classes (node_at g n)))
           (JsSet.of_array first) (nodes (group_at g this))).

(** [get isVisible()] *)
Definition isVisible (g : Graph) (this : string) : bool :=
  if negb (visible (group_at g this)) then false
  else existsb (λ n, Node.isVisible (node_at g n)) (nodes (group_at g this)).

(** One value of the inner maps of [targetTypeGroupEdge]. *)
Record Entry := mkEntry {
  groupEdge : nat;
  entry_classes : JsSet.t;
}.

(** [get isVisible()] of a [Node | NodeGroup]. *)
Definition NodeCommon_isVisible (g : Graph) (n : NodeCommon) : bool :=
  match n with
  | IsNode i => Node.isVisible (node_at g i)
  | IsGroup i => isVisible g i
  end.

(** The counterpart an edge of a member contributes to, or [None] where the
    loop body reaches one of its first two [continue] statements. *)
Definition counterpart (g : Graph) (this : string)
    (outNotIn exclusivelyTargetIsGroup : bool) (edge : Edge.t) : option NodeCommon :=
  if outNotIn then
    match Node.belongsToGroup (node_at g (Edge.target edge)) with
    | Some grp =>
        if negb (Node.isVisible (node_at g (Edge.target edge)))
           || bool_decide (grp = this)
        then None else Some (IsGroup grp)
    | None => Some (IsNode (Edge.target edge))
    end
  else
    let grouped :=
      bool_decide (is_Some (Node.belongsToGroup (node_at g (Edge.source edge)))) in
    if (grouped && negb exclusivelyTargetIsGroup)
       || (negb grouped && exclusivelyTargetIsGroup)
    then None else Some (IsNode (Edge.source edge)).

(** The part of the inner loop body under [// target node + edge] and
    [// final groupEdge]: the edge is entered into [typeGroupEdge], the inner
    map of its counterpart.  A type seen for the first time gets a new
    [GroupEdge]; then the class set of the entry is cut down to the classes of
    the edge. *)
Definition visit_type (this : string) (outNotIn : bool) (targetNode : NodeCommon)
    (edge : Edge.t) (heap : list GroupEdge.t) (typeGroupEdge : JsMap.t Entry)
  : list GroupEdge.t * JsMap.t Entry :=
  let ty := iri (Edge.type edge) in
  let '(heap, typeGroupEdge) :=
    if JsMap.has typeGroupEdge ty then (heap, typeGroupEdge)
    else
      let newEdge :=
        if outNotIn
        then GroupEdge.mk (IsGroup this) targetNode (Edge.type edge) []
        else GroupEdge.mk targetNode (IsGroup this) (Edge.type edge) [] in
      (heap ++ [newEdge],
       JsMap.set typeGroupEdge ty
         (mkEntry (length heap) (JsSet.of_array (Edge.classes edge)))) in
  (heap,
   match JsMap.get typeGroupEdge ty with
   | Some e =>
       JsMap.set typeGroupEdge ty
         (mkEntry (groupEdge e)
            (JsSet.retain_included (entry_classes e) (Edge.classes edge)))
   | None => typeGroupEdge
   end).

(** The part of the inner loop body from [// target node] on, for an edge
    that is entered under [targetNode].  The state is the [GroupEdge] heap and
    [targetTypeGroupEdge]; the inner map is changed in place, so it keeps its
    position in the outer map. *)
Definition enter_edge (this : string) (outNotIn : bool) (targetNode : NodeCommon)
    (edge : Edge.t) (acc : list GroupEdge.t * JsMap.t (JsMap.t Entry))
  : list GroupEdge.t * JsMap.t (JsMap.t Entry) :=
  let key := NodeCommon_identifier targetNode in
  let targetTypeGroupEdge :=
    if JsMap.has acc.2 key then acc.2 else JsMap.set acc.2 key [] in
  let '(heap, typeGroupEdge) :=
    visit_type this outNotIn targetNode edge acc.1
      (default [] (JsMap.get targetTypeGroupEdge key)) in
  (heap, JsMap.set targetTypeGroupEdge key typeGroupEdge).

(** The body of the inner loop, for one edge of a visible member. *)
Definition visit_edge (g : Graph) (this : string)
    (outNotIn exclusivelyTargetIsGroup : bool)
    (acc : list GroupEdge.t * JsMap.t (JsMap.t Entry)) (edge : Edge.t)
  : list GroupEdge.t * JsMap.t (JsMap.t Entry) :=
  match counterpart g this outNotIn exclusivelyTargetIsGroup edge with
  | None => acc
  | Some targetNode =>
      if negb (Edge.isVisible edge) || negb (NodeCommon_isVisible g targetNode)
      then acc
      else enter_edge this outNotIn targetNode edge acc
  end.

(** The body of the outer loop, for one member. *)
Definition visit_node (g : Graph) (this : string)
    (outNotIn exclusivelyTargetIsGroup : bool)
    (acc : list GroupEdge.t * JsMap.t (JsMap.t Entry)) (sourceNode : string)
  : list GroupEdge.t * JsMap.t (JsMap.t Entry) :=
  if negb (Node.isVisible (node_at g sourceNode)) then acc
  else foldl (visit_edge g this outNotIn exclusivelyTargetIsGroup) acc
             (Node.edges (node_at g sourceNode)).

(** The two nested loops over the members and their edges. *)
Definition aggregate (g : Graph) (this : string)
    (outNotIn exclusivelyTargetIsGroup : bool) (heap : list GroupEdge.t)
  : list GroupEdge.t * JsMap.t (JsMap.t Entry) :=
  foldl (visit_node g this outNotIn exclusivelyTargetIsGroup) (heap, [])
        (nodes (group_at g this)).

(** All entries of [targetTypeGroupEdge], in the order in which the two
    nested [for ... of] loops over the maps reach them. *)
Definition entries (m : JsMap.t (JsMap.t Entry)) : list Entry :=
  JsMap.values (concat (JsMap.values m)).

(** The body of those loops: the entry writes its class set into its
    [GroupEdge] and pushes that edge onto [edges]. *)
Definition collect_entry (acc : list GroupEdge.t * list nat) (e : Entry)
  : list GroupEdge.t * list nat :=
  (alter (GroupEdge.set_classes (JsSet.to_array (entry_classes e)))
         (groupEdge e) acc.1,
   acc.2 ++ [groupEdge e]).

(** The loops that fill [edges]. *)
Definition collect (heap : list GroupEdge.t) (m : JsMap.t (JsMap.t Entry))
  : list GroupEdge.t * list nat :=
  foldl collect_entry (heap, []) (entries m).

Definition bucket (outNotIn exclusivelyTargetIsGroup : bool) (c : GroupEdgesCache)
  : gmap string nat :=
  if outNotIn then out c
  else if exclusivelyTargetIsGroup then in_group c else in_ c.

Definition set_bucket (outNotIn exclusivelyTargetIsGroup : bool)
    (newCache : gmap string nat) (c : GroupEdgesCache) : GroupEdgesCache :=
  if outNotIn then mkCache newCache (in_ c) (in_group c)
  else if exclusivelyTargetIsGroup then mkCache (out c) (in_ c) newCache
  else mkCache (out c) newCache (in_group c).

(** *** Statements as the claims word them *)

(** The statement about the override flag as C3 words it: the node, a member
    of [A] so far, ends up in [B] only. *)
Definition override_moves_node (g : Graph) (A B node : string) : Prop :=
  let g' := (addNode g B node true).2 in
  Node.belongsToGroup (node_at g' node) = Some B
  ∧ node ∈ nodes (group_at g' B)
  ∧ node ∉ nodes (group_at g' A).

(** *** Notions used to state and prove the properties of the aggregation *)

(** Moving the edges of a map [n] places up in the heap. *)
Definition shift_entry (n : nat) (e : Entry) : Entry :=
  mkEntry (n + groupEdge e) (entry_classes e).

Definition shift (n : nat) (m : JsMap.t (JsMap.t Entry)) : JsMap.t (JsMap.t Entry) :=
  JsMap.map_values (JsMap.map_values (shift_entry n)) m.

(** Every entry refers to an allocated edge. *)
Definition allocated (h : list GroupEdge.t) (tm : JsMap.t Entry) : Prop :=
  Forall (λ e, groupEdge e < length h) (JsMap.values tm).

(** The edges the loops create when the heap is empty: the heap they leave
    and the edges in the order of [edges]. *)
Definition fresh (g : Graph) (this : string) (outNotIn excl : bool)
  : list GroupEdge.t * list nat :=
  let '(h, m) := aggregate g this outNotIn excl [] in collect h m.

(** The cache bucket a call with these arguments uses. *)
Definition cached (st : Store) (this : string) (outNotIn excl : bool)
  : gmap string nat :=
  bucket outNotIn excl (default (mkCache ∅ ∅ ∅) (groupEdgesCache st !! this)).

(** The counterpart an edge is entered under, or [None] where the loop body
    reaches one of its [continue] statements. *)
Definition passes (g : Graph) (this : string) (outNotIn excl : bool)
    (e : Edge.t) : option NodeCommon :=
  match counterpart g this outNotIn excl e with
  | Some targetNode =>
      if negb (Edge.isVisible e) || negb (NodeCommon_isVisible g targetNode)
      then None else Some targetNode
  | None => None
  end.

(** The edges the two nested loops visit, in order. *)
Definition visited (g : Graph) (this : string) : list Edge.t :=
  concat ((λ n, if negb (Node.isVisible (node_at g n)) then []
                else Node.edges (node_at g n))
          <$> nodes (group_at g this)).

(** An edge is summarized by the group edge of counterpart [key] and type
    [ty]. *)
Definition contributes (g : Graph) (this : string) (outNotIn excl : bool)
    (key ty : string) (e : Edge.t) : Prop :=
  NodeCommon_identifier <$> passes g this outNotIn excl e = Some key
  ∧ iri (Edge.type e) = ty.

(** The end of a group edge that is not the group. *)
Definition other_end (outNotIn : bool) (ge : GroupEdge.t) : NodeCommon :=
  if outNotIn then GroupEdge.target ge else GroupEdge.source ge.

(** An entry of [targetTypeGroupEdge] under [key] and [ty], after the edges
    [visited_so_far]: its edge is allocated, joins the group with [key] by
    type [ty], and its class set holds the classes common to the edges that
    contribute. *)
Definition summarizes (g : Graph) (this : string) (outNotIn excl : bool)
    (h : list GroupEdge.t) (visited_so_far : list Edge.t) (key ty : string)
    (en : Entry) : Prop :=
  ∃ ge, h !! groupEdge en = Some ge
        ∧ NodeCommon_identifier (other_end outNotIn ge) = key
        ∧ iri (GroupEdge.type ge) = ty
        ∧ ∀ c, c ∈ entry_classes en
               ↔ ∀ e, e ∈ visited_so_far →
                      contributes g this outNotIn excl key ty e →
                      c ∈ Edge.classes e.

(** The loop invariant of the aggregation. *)
Definition aggregated (g : Graph) (this : string) (outNotIn excl : bool)
    (h : list GroupEdge.t) (m : JsMap.t (JsMap.t Entry))
    (visited_so_far : list Edge.t) : Prop :=
  NoDup m.*1
  ∧ (∀ key tm, JsMap.get m key = Some tm → NoDup tm.*1)
  ∧ (∀ key tm ty en,
       JsMap.get m key = Some tm → JsMap.get tm ty = Some en →
       summarizes g this outNotIn excl h visited_so_far key ty en)
  ∧ (∀ key ty e,
       e ∈ visited_so_far → contributes g this outNotIn excl key ty e →
       ∃ tm en, JsMap.get m key = Some tm ∧ JsMap.get tm ty = Some en).

(** The relation between groups and nodes that the comment on [nodes] asks
    for: a group lists a node exactly when [belongsToGroup] of the node refers
    to that group. *)
Definition bidirectional (g : Graph) : Prop :=
  ∀ grp n, n ∈ nodes (group_at g grp)
           ↔ Node.belongsToGroup (node_at g n) = Some grp.

(** The end of a group edge that is the group. *)
Definition own_end (outNotIn : bool) (ge : GroupEdge.t) : NodeCommon :=
  if outNotIn then GroupEdge.source ge else GroupEdge.target ge.

(** A group edge stands for a connection of the group: the group is at its
    own end, and its other end and type are those of an edge that the loops
    visit and enter. *)
Definition stands_for (g : Graph) (this : string) (outNotIn excl : bool)
    (ge : GroupEdge.t) : Prop :=
  own_end outNotIn ge = IsGroup this
  ∧ ∃ e, e ∈ visited g this
         ∧ passes g this outNotIn excl e = Some (other_end outNotIn ge)
         ∧ GroupEdge.type ge = Edge.type e.

(** Two group edges that differ in their classes at most. *)
Definition same_ends (a b : GroupEdge.t) : Prop :=
  GroupEdge.source a = GroupEdge.source b
  ∧ GroupEdge.target a = GroupEdge.target b
  ∧ GroupEdge.type a = GroupEdge.type b.

(** The edges that the entries of [targetTypeGroupEdge] refer to. *)
Definition references (m : JsMap.t (JsMap.t Entry)) : list nat :=
  groupEdge <$> entries m.

(** Whether two calls use the same bucket of the cache. *)
Definition same_bucket (outNotIn excl outNotIn' excl' : bool) : bool :=
  if outNotIn then outNotIn'
  else negb outNotIn' && bool_decide (excl = excl').

Section with_identifier.
Variable idf : string → string → string → string.

(** [edges[i].identifier] for an edge of the heap. *)
Definition identifier_at (heap : list GroupEdge.t) (e : nat) : string :=
  GroupEdge.identifier idf (heap !!! e).

(** The loop under [// Use cache]. *)
Definition use_cache (heap : list GroupEdge.t) (cache : gmap string nat)
    (edges : list nat) : list nat * gmap string nat :=
  foldl (λ '(edges', newCache) e,
           let e' := default e (cache !! identifier_at heap e) in
           (edges' ++ [e'], <[identifier_at heap e' := e']> newCache))
        ([], ∅) edges.

(** [getGroupEdgesInDirection(outNotIn, exclusivelyTargetIsGroup)] *)
Definition getGroupEdgesInDirection (st : Store) (this : string)
    (outNotIn exclusivelyTargetIsGroup : bool) : list nat * Store :=
  let caches := default (mkCache ∅ ∅ ∅) (groupEdgesCache st !! this) in
  let '(heap, targetTypeGroupEdge) :=
    aggregate (graph st) this outNotIn exclusivelyTargetIsGroup (groupEdges st) in
  let '(heap, edges) := collect heap targetTypeGroupEdge in
  let cache := bucket outNotIn exclusivelyTargetIsGroup caches in
  let '(edges, newCache) := use_cache heap cache edges in
  (edges,
   mkStore (graph st)
     (<[this := set_bucket outNotIn exclusivelyTargetIsGroup newCache caches]>
        (groupEdgesCache st))
     heap).

(** [get visibleGroupEdges()] *)
Definition visibleGroupEdges (st : Store) (this : string) : list nat * Store :=
  let '(a, st) := getGroupEdgesInDirection st this false false in
  let '(b, st) := getGroupEdgesInDirection st this true false in
  (a ++ b, st).

(** [get restOfVisibleGroupEdges()] *)
Definition restOfVisibleGroupEdges (st : Store) (this : string) : list nat * Store :=
  getGroupEdgesInDirection st this false true.

(** The test of the loop of [neighbourSelected] for one edge; [selected]
    gives the field [selected] of a [Node] or [NodeGroup] (declared in the
    absent [NodeCommon.ts]). *)
Definition neighbour_is_selected (selected : NodeCommon → bool) (this : string)
    (edge : GroupEdge.t) : bool :=
  (bool_decide (GroupEdge.source edge = IsGroup this)
   && selected (GroupEdge.target edge))
  || (bool_decide (GroupEdge.target edge = IsGroup this)
      && selected (GroupEdge.source edge)).

(** [get neighbourSelected()] *)
Definition neighbourSelected (selected : NodeCommon → bool) (st : Store)
    (this : string) : bool * Store :=
  let '(a, st) := visibleGroupEdges st this in
  let '(b, st) := restOfVisibleGroupEdges st this in
  (existsb (λ r, neighbour_is_selected selected this (groupEdges st !!! r))
           (a ++ b),
   st).

(** The identifiers of the edges that one pass creates, in order. *)
Definition fresh_identifiers (g : Graph) (this : string) (outNotIn excl : bool)
  : list string :=
  let '(h, es) := fresh g this outNotIn excl in identifier_at h <$> es.

(** A bucket keeps an edge under the identifier of that edge. *)
Definition cache_consistent (st : Store) (this : string) (outNotIn excl : bool)
  : Prop :=
  ∀ k r, cached st this outNotIn excl !! k = Some r →
         r < length (groupEdges st) ∧ identifier_at (groupEdges st) r = k.

(** Every bucket of every group is consistent. *)
Definition consistent (st : Store) : Prop :=
  ∀ grp o x, cache_consistent st grp o x.

(** One round of the loop under [// Use cache], in two halves. *)
Definition resolve (heap : list GroupEdge.t) (cache : gmap string nat) (e : nat)
  : nat :=
  default e (cache !! identifier_at heap e).

Definition remember (heap : list GroupEdge.t) (newCache : gmap string nat)
    (e : nat) : gmap string nat :=
  <[identifier_at heap e := e]> newCache.

(** The identifier of the edge that [new GroupEdge(...)] in the loop makes
    for the counterpart [targetNode] and the type [ty]. *)
Definition identifier_for (this : string) (outNotIn : bool)
    (targetNode : NodeCommon) (ty : EdgeType) : string :=
  GroupEdge.identifier idf
    (if outNotIn then GroupEdge.mk (IsGroup this) targetNode ty []
     else GroupEdge.mk targetNode (IsGroup this) ty []).

End with_identifier.

End NodeGroup.

(** ** class ColaLayout *)

(** The values an options record may hold. *)
Inductive value :=
| VUndefined
| VNull
| VBool (b : bool)
| VNumber (n : Z)
| VString (s : string).

#[global] Instance value_eq_dec : EqDecision value.
Proof. solve_decision. Defined.

(** JavaScript truthiness, as [if], [&&], [||] and [!] apply it. *)
Definition truthy (v : value) : bool :=
  match v with
  | VUndefined | VNull => false
  | VBool b => b
  | VNumber n => negb (n =? 0)%Z
  | VString s => negb (bool_decide (s = EmptyString))
  end.

Module ColaLayout.

(** The initial value of [options]. *)
Definition default_options : gmap string value :=
  list_to_map
    [("doLayoutAfterReposition", VBool true);
     ("expansionOnlyThose", VBool false);
     ("animate", VBool true);
     ("edgeLength", VNumber 200);
     ("nodeSpacing", VNumber 10);
     ("groupExpansion", VBool true);
     ("expansionGroupLimit", VNumber 10)].

(** The names of [interface ColaLayoutOptions] and of the
    [LayoutsCommonGroupSettings] it extends. *)
Definition recognized : gset string := dom default_options.

(** [compactMode] is declared without an initial value, so it starts out
    [undefined]; [onCompactMode] tells [null] from [undefined]. *)
Inductive CompactMode :=
| CompactUndefined
| CompactNull
| CompactCollection (c : gset string).

(** The fields of a [ColaLayout]; [layoutAnimation] refers to a handle of the
    layout engine and is [None] while the field is [undefined]. *)
Record t := mk {
  isActive : bool;
  options : gmap string value;
  compactMode : CompactMode;
  layoutAnimation : option nat;
}.

Definition option_of (this : t) (name : string) : value :=
  default VUndefined (options this !! name).

(** *** The layout engine as the class drives it *)

Inductive LayoutStatus := Created | Running | Stopped.

#[global] Instance LayoutStatus_eq_dec : EqDecision LayoutStatus.
Proof. solve_decision. Defined.

(** A handle returned by [collection.layout({...})], with the options it
    was created with.  [extraLocked] is a closure over [fixed] and [this]; the
    handle keeps [fixed], see [extraLocked] below. *)
Record Layouts := mkLayouts {
  collection : gset string;
  animate : value;
  fixed : gset string;
  nodeSpacing : value;
  edgeLength : value;
  status : LayoutStatus;
}.

Definition set_status (s : LayoutStatus) (l : Layouts) : Layouts :=
  mkLayouts (collection l) (animate l) (fixed l) (nodeSpacing l) (edgeLength l) s.

(** The calls the class makes on the engine, in the order it makes them. *)
Inductive EngineCall :=
| CallStop (handle : nat)
| CallLayout (handle : nat)
| CallRun (handle : nat).

(** A node of the canvas: [node.id()] and
    [node.scratch("_component").node.lockedForLayouts]. *)
Record NodeSingular := mkNodeSingular {
  id : string;
  lockedForLayouts : bool;
}.

(** [areaManipulator.cy] as far as the class reads and writes it. *)
Record Cytoscape := mkCytoscape {
  cy_nodes : list NodeSingular;
  cy_elements : gset string;
  layouts : list Layouts;
  calls : list EngineCall;
  userPanningEnabled : bool;
  userZoomingEnabled : bool;
  boxSelectionEnabled : bool;
}.

(** The layout object together with what it reaches through
    [areaManipulator]. *)
Record World := mkWorld {
  layout : t;
  cy : Cytoscape;
  constraintRulesLoaded : bool;
}.

Definition initial : World :=
  mkWorld (mk false default_options CompactUndefined None)
          (mkCytoscape [] ∅ [] [] true true true)
          false.

Definition set_layout (f : t → t) (w : World) : World :=
  mkWorld (f (layout w)) (cy w) (constraintRulesLoaded w).

Definition set_cy (f : Cytoscape → Cytoscape) (w : World) : World :=
  mkWorld (layout w) (f (cy w)) (constraintRulesLoaded w).

Definition set_isActive (b : bool) (this : t) : t :=
  mk b (options this) (compactMode this) (layoutAnimation this).

Definition set_options (o : gmap string value) (this : t) : t :=
  mk (isActive this) o (compactMode this) (layoutAnimation this).

Definition set_compactMode (c : CompactMode) (this : t) : t :=
  mk (isActive this) (options this) c (layoutAnimation this).

Definition set_layoutAnimation (h : nat) (this : t) : t :=
  mk (isActive this) (options this) (compactMode this) (Some h).

(** [handle.stop()] *)
Definition engine_stop (h : nat) (c : Cytoscape) : Cytoscape :=
  mkCytoscape (cy_nodes c) (cy_elements c)
    (alter (set_status Stopped) h (layouts c)) (calls c ++ [CallStop h])
    (userPanningEnabled c) (userZoomingEnabled c) (boxSelectionEnabled c).

(** [collection.layout({...})]: a new handle, not yet running. *)
Definition engine_layout (l : Layouts) (c : Cytoscape) : Cytoscape :=
  mkCytoscape (cy_nodes c) (cy_elements c)
    (layouts c ++ [l]) (calls c ++ [CallLayout (length (layouts c))])
    (userPanningEnabled c) (userZoomingEnabled c) (boxSelectionEnabled c).

(** [handle.run()] *)
Definition engine_run (h : nat) (c : Cytoscape) : Cytoscape :=
  mkCytoscape (cy_nodes c) (cy_elements c)
    (alter (set_status Running) h (layouts c)) (calls c ++ [CallRun h])
    (userPanningEnabled c) (userZoomingEnabled c) (boxSelectionEnabled c).

(** The engine ends a run by itself. *)
Definition engine_finished (h : nat) (c : Cytoscape) : Cytoscape :=
  mkCytoscape (cy_nodes c) (cy_elements c)
    (alter (set_status Stopped) h (layouts c)) (calls c)
    (userPanningEnabled c) (userZoomingEnabled c) (boxSelectionEnabled c).

(** The canvas gains or loses elements. *)
Definition canvas_changed (ns : list NodeSingular) (es : gset string)
    (c : Cytoscape) : Cytoscape :=
  mkCytoscape ns es (layouts c) (calls c)
    (userPanningEnabled c) (userZoomingEnabled c) (boxSelectionEnabled c).

(** *** Methods *)

Definition activate (w : World) : World := set_layout (set_isActive true) w.

Definition isCompactModeActive (this : t) : bool :=
  match compactMode this with
  | CompactCollection _ => true
  | CompactUndefined | CompactNull => false
  end.

Definition setAreaForCompact (isCompact : bool) (w : World) : World :=
  set_cy (λ c, mkCytoscape (cy_nodes c) (cy_elements c) (layouts c) (calls c)
                 (negb isCompact) (negb isCompact) (negb isCompact)) w.

Definition getCollectionToAnimate (w : World) : gset string :=
  match compactMode (layout w) with
  | CompactCollection c => c
  | CompactUndefined | CompactNull => cy_elements (cy w)
  end.

Definition stopLayout (w : World) : World :=
  match layoutAnimation (layout w) with
  | Some h => set_cy (engine_stop h) w
  | None => w
  end.

(** The closure passed as [extraLocked], applied by the engine to a node
    while the layout object is in state [this]. *)
Definition extraLocked (this : t) (fixed : gset string) (node : NodeSingular) : bool :=
  bool_decide (id node ∈ fixed)
  || (negb (isCompactModeActive this) && lockedForLayouts node).

Definition executeLayout (w : World) (collection : gset string)
    (fixed : option (gset string)) : World :=
  let fixed := default ∅ fixed in
  let w := stopLayout w in
  let h := length (layouts (cy w)) in
  let w :=
    set_cy (engine_layout
              (mkLayouts collection (option_of (layout w) "animate") fixed
                 (option_of (layout w) "nodeSpacing")
                 (option_of (layout w) "edgeLength") Created)) w in
  let w := set_layout (set_layoutAnimation h) w in
  set_cy (engine_run h) w.

Definition onDrag (w : World) (isStartNotEnd : bool) : World :=
  if truthy (option_of (layout w) "doLayoutAfterReposition")
     && (negb isStartNotEnd
         || (truthy (option_of (layout w) "animate")
             && negb (constraintRulesLoaded w)))
  then executeLayout w (getCollectionToAnimate w) None
  else w.

Definition onLockedChanged (w : World) : World :=
  executeLayout w (getCollectionToAnimate w) None.

Definition run (w : World) : World :=
  executeLayout w (getCollectionToAnimate w) None.

(** How a call ends: it returns, or a [TypeError] leaves it early. *)
Inductive Completion := Returns | Throws.

(** [onCompactMode(nodes, edges)]; the arguments are the identifiers of
    [node.element.element] and [edge.element.element].  Iterating [null] with
    [for ... of] throws. *)
Definition onCompactMode (w : World) (nodes edges : option (list string))
  : Completion * World :=
  match nodes, edges with
  | None, None =>
      let w := if isCompactModeActive (layout w)
               then setAreaForCompact false (stopLayout w) else w in
      (Returns, set_layout (set_compactMode CompactNull) w)
  | _, _ =>
      let w := match compactMode (layout w) with
               | CompactNull => setAreaForCompact true (stopLayout w)
               | _ => w
               end in
      let w := set_layout (set_compactMode (CompactCollection ∅)) w in
      match nodes with
      | None => (Throws, w)
      | Some nodes =>
          let c := foldl (λ c n, c ∪ {[n]}) ∅ nodes in
          let w := set_layout (set_compactMode (CompactCollection c)) w in
          match edges with
          | None => (Throws, w)
          | Some edges =>
              let c := foldl (λ c e, c ∪ {[e]}) c edges in
              let w := set_layout (set_compactMode (CompactCollection c)) w in
              (Returns, executeLayout w (getCollectionToAnimate w) None)
          end
      end
  end.

Definition deactivate (w : World) : World :=
  let w := set_layout (set_isActive false) w in
  let w := (onCompactMode w None None).2 in
  stopLayout w.

(** An [Expansion]: its nodes and its parent node, each given by the value of
    [selfOrGroup.identifier] ([Node.selfOrGroup] is a getter of the absent
    [Node.ts]). *)
Record Expansion := mkExpansion {
  nodes_selfOrGroup : list string;
  parentNode_selfOrGroup : string;
}.

(** The part of [onExpansion] that runs once [await Vue.nextTick()] has
    resumed. *)
Definition onExpansion_resumed (w : World) (expansion : Expansion) : World :=
  if negb (isActive (layout w)) then w
  else
    let explicitlyFixed :=
      if truthy (option_of (layout w) "expansionOnlyThose") then
        let all := foldl (λ s node, s ∪ {[id node]}) ∅ (cy_nodes (cy w)) in
        let s := foldl (λ s i, s ∖ {[i]}) all (nodes_selfOrGroup expansion) in
        s ∖ {[parentNode_selfOrGroup expansion]}
      else ∅ in
    executeLayout w (cy_elements (cy w)) (Some explicitlyFixed).

(** The part of [onGroupBroken] that runs once [await Vue.nextTick()] has
    resumed. *)
Definition onGroupBroken_resumed (w : World) : World :=
  if negb (isActive (layout w)) then w
  else executeLayout w (cy_elements (cy w)) None.

(** [saveToObject()]: [clone] copies the record. *)
Definition saveToObject (this : t) : gmap string value := options this.

(** [restoreFromObject(object)]: in [{...this.options, ...object}] a field
    of [object] wins over the field of the same name in [this.options]. *)
Definition restoreFromObject (this : t) (object : gmap string value) : t :=
  set_options (object ∪ options this) this.

(** *** Seed placement *)

Record Position := mkPosition { x : R; y : R }.

Definition distance : nat := 100.

(** The loop variables of [circleLayout]. *)
Record Circle := mkCircle {
  circNum : nat;
  phi : nat;
  circumference : nat;
  i : nat;
}.

(** [Math.floor(2 * Math.PI * circNum)] *)
Definition ring_capacity (circNum : nat) : nat :=
  Z.to_nat (Zfloor (2 * PI * INR circNum)).

(** The conditional at the head of the loop body. *)
Definition next_ring (length : nat) (c : Circle) : Circle :=
  if decide (phi c = circumference c)
  then mkCircle (S (circNum c)) 0
         (Nat.min (length - i c) (ring_capacity (S (circNum c)))) (i c)
  else c.

(** The pair assigned to [node.onMountPosition]. *)
Definition mount_position (position : Position) (c : Circle) : R * R :=
  ((x position + INR distance * INR (circNum c)
                * cos (2 * PI * INR (phi c) / INR (circumference c)))%R,
   (y position + INR distance * INR (circNum c)
                * sin (2 * PI * INR (phi c) / INR (circumference c)))%R).

Fixpoint circle_loop (length : nat) (position : Position) (c : Circle)
    (nodes : list Node.t) : list Node.t :=
  match nodes with
  | [] => []
  | node :: rest =>
      let c := next_ring length c in
      Node.set_mounted true
        (Node.set_onMountPosition (mount_position position c) node)
      :: circle_loop length position
           (mkCircle (circNum c) (S (phi c)) (circumference c) (S (i c))) rest
  end.

(** [circleLayout(nodes, position)]: the nodes in the order given, each with
    the fields the loop assigns. *)
Definition circleLayout (nodes : list Node.t) (position : Position) : list Node.t :=
  circle_loop (length nodes) position (mkCircle 0 0 0 0) nodes.

(** *** The events the object reacts to

    The parts of [onExpansion] and [onGroupBroken] that run before
    [await Vue.nextTick()] seed nodes and groups and do not touch the layout
    object or the engine, so only the resumed parts are steps. *)

Inductive step : World → World → Prop :=
| step_activate w : step w (activate w)
| step_deactivate w : step w (deactivate w)
| step_onDrag w b : step w (onDrag w b)
| step_onLockedChanged w : step w (onLockedChanged w)
| step_run w : step w (run w)
| step_onCompactMode w ns es : step w (onCompactMode w ns es).2
| step_onExpansion w e : step w (onExpansion_resumed w e)
| step_onGroupBroken w : step w (onGroupBroken_resumed w)
| step_restoreFromObject w o :
    step w (set_layout (λ this, restoreFromObject this o) w)
| step_engine_finished w h : step w (set_cy (engine_finished h) w)
| step_canvas_changed w ns es : step w (set_cy (canvas_changed ns es) w)
| step_constraintRulesLoaded w b : step w (mkWorld (layout w) (cy w) b).

Definition reachable (w : World) : Prop := rtc step initial w.

(** A handle is active while the engine runs it. *)
Definition active (w : World) (h : nat) : Prop :=
  status <$> layouts (cy w) !! h = Some Running.

(** *** Notions used to state and prove the properties *)

(** Every active handle is the one [layoutAnimation] refers to. *)
Definition owns_active (w : World) : Prop :=
  ∀ h, active w h → layoutAnimation (layout w) = Some h.

(** The rings as the loop fills them: [before n k] of [n] nodes lie on the
    rings below ring [k], and ring [k] holds [ring_size n k] nodes. *)
Fixpoint before (n k : nat) : nat :=
  match k with
  | 0 => 0
  | S k' => before n k' + Nat.min (n - before n k') (ring_capacity k')
  end.

Definition ring_size (n k : nat) : nat :=
  Nat.min (n - before n k) (ring_capacity k).

(** Slot [j] of the [c] evenly spaced slots of ring [k] around [position]. *)
Definition on_ring (position : Position) (k j c : nat) : R * R :=
  ((x position + 100 * INR k * cos (2 * PI * INR j / INR c))%R,
   (y position + 100 * INR k * sin (2 * PI * INR j / INR c))%R).

(** What the loop assigns to a node it places at [p]. *)
Definition seeded (p : R * R) (node : Node.t) : Node.t :=
  Node.set_mounted true (Node.set_onMountPosition p node).

(** The loop variables on entry to an iteration. *)
Definition between_nodes (n : nat) (c : Circle) : Prop :=
  phi c ≤ circumference c
  ∧ circumference c = ring_size n (circNum c)
  ∧ i c = before n (circNum c) + phi c.

(** What [setAreaForCompact] switches: panning, zooming and box
    selection. *)
Definition area (w : World) : bool * bool * bool :=
  (userPanningEnabled (cy w), userZoomingEnabled (cy w),
   boxSelectionEnabled (cy w)).

(** The handle that a call of the class on the engine runs. *)
Definition started (c : EngineCall) : option nat :=
  match c with
  | CallRun h => Some h
  | CallStop _ | CallLayout _ => None
  end.

(** The bookkeeping of the handles: [layoutAnimation] refers to the handle
    created last, no handle is left unstarted, every earlier handle has been
    stopped, and the handles were run once each in the order of their
    creation. *)
Definition handles_in_order (w : World) : Prop :=
  match layoutAnimation (layout w) with
  | None => layouts (cy w) = []
  | Some h => S h = length (layouts (cy w))
  end
  ∧ (∀ h l, layouts (cy w) !! h = Some l →
       status l ≠ Created
       ∧ (S h < length (layouts (cy w)) → status l = Stopped))
  ∧ omap started (calls (cy w)) = seq 0 (length (layouts (cy w))).

(** The canvas is locked (panning, zooming and box selection are off) only
    while compact mode is active. *)
Definition locked_only_in_compact_mode (w : World) : Prop :=
  area w = (true, true, true)
  ∨ (area w = (false, false, false) ∧ isCompactModeActive (layout w) = true).

(** *** Statements as the claims word them *)

(** The statement about a drag start as C8 words it: animation enabled and
    constraints not yet loaded suffice for a layout run. *)
Definition drag_start_always_runs (w : World) : Prop :=
  truthy (option_of (layout w) "animate") = true →
  constraintRulesLoaded w = false →
  onDrag w true = executeLayout w (getCollectionToAnimate w) None.

(** The statement about unknown fields as C9 words it: after restoring, the
    options hold only recognized fields. *)
Definition restore_keeps_recognized_only (this : t) (object : gmap string value) : Prop :=
  dom (options (restoreFromObject this object)) ⊆ recognized.

(** The statement about ring 0 as C4 words it: the first node is placed at
    the anchor. *)
Definition first_node_at_anchor (nodes : list Node.t) (position : Position) : Prop :=
  ∃ node, circleLayout nodes position !! 0 = Some node
          ∧ Node.onMountPosition node = Some (x position, y position).

End ColaLayout.

(** ** Concrete inputs *)

Module Examples.
Import NodeGroup.

(** A sample [GroupEdge.identifier]. *)
Definition sample_identifier (s t ty : string) : string :=
  s +:+ " " +:+ ty +:+ " " +:+ t.

Definition plain_node (grp : option string) (es : list Edge.t) : Node.t :=
  Node.mk true grp [] es false None.

(** Group [A] owns node [n]; group [B] is empty. *)
Definition two_groups : Graph :=
  mkGraph
    (list_to_map [("n", plain_node (Some "A") [])])
    (list_to_map [("A", NodeGroup.mk ["n"] true); ("B", NodeGroup.mk [] true)]).

(** Group [g] with members [n1] and [n2]; [x] and [y] are outside it.  At
    first only [n1] has an edge: [e1] to [x], of type [T], with classes
    [a] and [b]. *)
Definition e1 : Edge.t := Edge.mk "n1" "x" (mkEdgeType "T") ["a"; "b"] true.

Definition graph_before : Graph :=
  mkGraph
    (list_to_map [("n1", plain_node (Some "g") [e1]);
                  ("n2", plain_node (Some "g") []);
                  ("x", plain_node None [e1])])
    (list_to_map [("g", NodeGroup.mk ["n1"; "n2"] true)]).

(** Then [n2] gets an edge [e2] to [x] of the same type, with classes [b]
    and [c]. *)
Definition e2 : Edge.t := Edge.mk "n2" "x" (mkEdgeType "T") ["b"; "c"] true.

Definition graph_after : Graph :=
  mkGraph
    (list_to_map [("n1", plain_node (Some "g") [e1]);
                  ("n2", plain_node (Some "g") [e2]);
                  ("x", plain_node None [e1; e2])])
    (list_to_map [("g", NodeGroup.mk ["n1"; "n2"] true)]).

(** The same group with edges of two types to two counterparts. *)
Definition e3 : Edge.t := Edge.mk "n1" "y" (mkEdgeType "U") ["a"] true.

Definition e4 : Edge.t := Edge.mk "n2" "y" (mkEdgeType "T") [] true.

Definition graph_wide : Graph :=
  mkGraph
    (list_to_map [("n1", plain_node (Some "g") [e1; e3]);
                  ("n2", plain_node (Some "g") [e2; e4]);
                  ("x", plain_node None [e1; e2]);
                  ("y", plain_node None [e3; e4])])
    (list_to_map [("g", NodeGroup.mk ["n1"; "n2"] true)]).

(** A [GroupEdge.identifier] that keeps its three arguments apart: every
    character of the first two arguments follows a mark, and another mark
    closes each of them. *)
Fixpoint quoted (s rest : string) : string :=
  match s with
  | EmptyString => "0" +:+ rest
  | String c s' => "1" +:+ String c (quoted s' rest)
  end.

Definition injective_identifier (s t ty : string) : string :=
  quoted s (quoted t ty).

(** The store after the outgoing edges of that group have been computed
    once: its [out] bucket is filled. *)
Definition store_with_cache : Store :=
  (getGroupEdgesInDirection sample_identifier (mkStore graph_wide ∅ [])
     "g" true false).2.

(** A visible group without members. *)
Definition empty_group : Graph :=
  mkGraph ∅ (list_to_map [("G", NodeGroup.mk [] true)]).

(** An active layout with [expansionOnlyThose] enabled, over a canvas of
    five nodes, of which [g] stands for a group. *)
Definition canvas : ColaLayout.World :=
  ColaLayout.mkWorld
    (ColaLayout.mk true
       (<["expansionOnlyThose" := VBool true]> ColaLayout.default_options)
       ColaLayout.CompactUndefined None)
    (ColaLayout.mkCytoscape
       (map (λ i, ColaLayout.mkNodeSingular i false) ["a"; "b"; "p"; "g"; "n"])
       (list_to_set ["a"; "b"; "p"; "g"; "n"]) [] [] true true true)
    false.

(** An expansion of [p] that revealed [n] and two nodes shown as group [g]. *)
Definition expansion : ColaLayout.Expansion :=
  ColaLayout.mkExpansion ["n"; "g"; "g"] "p".

(** The initial object with [doLayoutAfterReposition] switched off. *)
Definition no_layout_after_reposition : ColaLayout.World :=
  ColaLayout.set_layout
    (ColaLayout.set_options
       (<["doLayoutAfterReposition" := VBool false]> ColaLayout.default_options))
    ColaLayout.initial.

(** The anchor (0, 0) and seven nodes to seed. *)
Definition origin : ColaLayout.Position := ColaLayout.mkPosition 0 0.

Definition seven : list Node.t := replicate 7 (Node.mk true None [] [] false None).

End Examples.

(** * Properties *)

(** ** NodeGroup: membership *)

Section membership.
Import NodeGroup.

Lemma group_at_insert_ne (g : Graph) ns (a b : string) (v : NodeGroup.t) :
  a ≠ b →
  group_at (mkGraph ns (<[b := v]> (graph_groups g))) a = group_at g a.
Proof.
  intros Hne. unfold group_at. cbn.
  by rewrite lookup_total_insert_ne.
Qed.

(** What [addNode] does with a node that belongs to another group [A].
    Without the override flag the failed assertion is reported and nothing
    changes.  With the override flag the node's [belongsToGroup] becomes [B]
    and [B] gains the node, while the member list of [A] stays as it was. *)
Lemma addNode_second_group (g : Graph) (A B node : string) :
  Node.belongsToGroup (node_at g node) = Some A →
  A ≠ B →
  addNode g B node false = (true, g)
  ∧ (let '(reported, g') := addNode g B node true in
     reported = false
     ∧ Node.belongsToGroup (node_at g' node) = Some B
     ∧ nodes (group_at g' B) = nodes (group_at g B) ++ [node]
     ∧ nodes (group_at g' A) = nodes (group_at g A)).
Proof.
  intros Hin Hne. unfold addNode. rewrite Hin. cbn.
  split; [done|]. repeat split.
  - unfold node_at. cbn. by rewrite lookup_total_insert_eq.
  - unfold group_at at 1. cbn. by rewrite lookup_total_insert_eq.
  - by rewrite group_at_insert_ne.
Qed.

(** C3, the failing input evaluated.  Node [n] is a member of group [A].
    Adding it to group [B] without the override flag reports the failed
    assertion and changes nothing.  Adding it with the override flag makes
    [belongsToGroup] refer to [B] and lists [n] in [B], but [A] still lists
    [n] as well: the node does not end up in [B] only. *)
Theorem override_moves_node_fails :
  Node.belongsToGroup (node_at Examples.two_groups "n") = Some "A"
  ∧ nodes (group_at Examples.two_groups "A") = ["n"]
  ∧ addNode Examples.two_groups "B" "n" false = (true, Examples.two_groups)
  ∧ (let '(reported, g') := addNode Examples.two_groups "B" "n" true in
     reported = false
     ∧ Node.belongsToGroup (node_at g' "n") = Some "B"
     ∧ nodes (group_at g' "B") = ["n"]
     ∧ nodes (group_at g' "A") = ["n"])
  ∧ ¬ override_moves_node Examples.two_groups "A" "B" "n".
Proof.
  destruct (addNode_second_group Examples.two_groups "A" "B" "n" eq_refl)
    as [Hplain Hoverride]; [discriminate|].
  split; [reflexivity|]. split; [reflexivity|]. split; [exact Hplain|].
  split; [exact Hoverride|].
  intros (_ & _ & Hnot). apply Hnot.
  destruct (addNode Examples.two_groups "B" "n" true) as [reported g'].
  destruct Hoverride as (_ & _ & _ & HA). cbn [snd]. rewrite HA.
  apply list_elem_of_here.
Qed.

(** C10.  A group without members: [classes] is the empty array and
    [isVisible] is [false], whatever the stored [visible] flag. *)
Theorem empty_group_classes_isVisible (g : Graph) (this : string) :
  nodes (group_at g this) = [] →
  classes g this = [] ∧ isVisible g this = false.
Proof.
  intros Hempty. unfold classes, isVisible. rewrite Hempty. cbn.
  split; [reflexivity|]. by destruct (visible (group_at g this)).
Qed.

Lemma empty_group_classes_isVisible_witness :
  visible (group_at Examples.empty_group "G") = true
  ∧ classes Examples.empty_group "G" = []
  ∧ isVisible Examples.empty_group "G" = false.
Proof.
  split; [reflexivity|].
  apply (empty_group_classes_isVisible Examples.empty_group "G").
  reflexivity.
Defined.

End membership.

(** ** ColaLayout: the engine handle *)

Section engine.
Import ColaLayout.

Lemma active_alter_Stopped (c : Cytoscape) (h h' : nat) :
  status <$> alter (set_status Stopped) h (layouts c) !! h' = Some Running →
  h' ≠ h ∧ status <$> layouts c !! h' = Some Running.
Proof.
  intros H. destruct (decide (h = h')) as [->|Hne].
  - rewrite list_lookup_alter_eq in H.
    destruct (layouts c !! h'); cbn in H; discriminate.
  - rewrite list_lookup_alter_ne in H by done. split; [congruence|done].
Qed.

Lemma stopLayout_layout (w : World) : layout (stopLayout w) = layout w.
Proof. unfold stopLayout. by destruct (layoutAnimation (layout w)). Qed.

Lemma stopLayout_length (w : World) :
  length (layouts (cy (stopLayout w))) = length (layouts (cy w)).
Proof.
  unfold stopLayout. destruct (layoutAnimation (layout w)); cbn; [|done].
  apply length_alter.
Qed.

Lemma stopLayout_calls (w : World) :
  calls (cy (stopLayout w))
  = calls (cy w)
    ++ match layoutAnimation (layout w) with
       | Some old => [CallStop old]
       | None => []
       end.
Proof.
  unfold stopLayout. destruct (layoutAnimation (layout w)); cbn; [done|].
  by rewrite app_nil_r.
Qed.

Lemma stopLayout_active (w : World) (h : nat) :
  active (stopLayout w) h → active w h ∧ layoutAnimation (layout w) ≠ Some h.
Proof.
  unfold active, stopLayout.
  destruct (layoutAnimation (layout w)) as [old|]; cbn; [|done].
  intros [Hne H]%active_alter_Stopped. split; [done|congruence].
Qed.

Lemma stopLayout_owns_active (w : World) :
  owns_active w → owns_active (stopLayout w).
Proof.
  intros Hinv h [Hact Hne]%stopLayout_active. by apply Hinv in Hact.
Qed.

Lemma stopLayout_idle (w : World) (h : nat) :
  owns_active w → ¬ active (stopLayout w) h.
Proof. intros Hinv [Hact Hne]%stopLayout_active. by apply Hinv in Hact. Qed.

Lemma executeLayout_layout (w : World) c f :
  layout (executeLayout w c f)
  = set_layoutAnimation (length (layouts (cy w))) (layout w).
Proof.
  unfold executeLayout. cbn. by rewrite stopLayout_layout, stopLayout_length.
Qed.

Lemma executeLayout_layouts (w : World) c f :
  layouts (cy (executeLayout w c f))
  = layouts (cy (stopLayout w))
    ++ [mkLayouts c (option_of (layout w) "animate") (default ∅ f)
          (option_of (layout w) "nodeSpacing")
          (option_of (layout w) "edgeLength") Running].
Proof.
  unfold executeLayout. cbn. rewrite stopLayout_layout.
  rewrite alter_app_r_alt by done. by rewrite Nat.sub_diag.
Qed.

Lemma executeLayout_calls (w : World) c f :
  calls (cy (executeLayout w c f))
  = calls (cy w)
    ++ match layoutAnimation (layout w) with
       | Some old => [CallStop old]
       | None => []
       end
    ++ [CallLayout (length (layouts (cy w))); CallRun (length (layouts (cy w)))].
Proof.
  unfold executeLayout. cbn.
  rewrite stopLayout_calls, stopLayout_length, <- !app_assoc. done.
Qed.

Lemma executeLayout_active (w : World) c f (h : nat) :
  owns_active w →
  active (executeLayout w c f) h ↔ h = length (layouts (cy w)).
Proof.
  intros Hinv. unfold active. rewrite executeLayout_layouts.
  destruct (decide (h < length (layouts (cy (stopLayout w))))) as [Hlt|Hge].
  - rewrite lookup_app_l by done. rewrite stopLayout_length in Hlt. split.
    + intros H. by apply (stopLayout_idle w h) in H.
    + lia.
  - rewrite lookup_app_r by lia. rewrite stopLayout_length in *.
    destruct (h - length (layouts (cy w))) as [|k] eqn:E; cbn.
    + split; [lia|done].
    + split; [|lia]. by destruct k.
Qed.

Lemma executeLayout_owns_active (w : World) c f :
  owns_active w → owns_active (executeLayout w c f).
Proof.
  intros Hinv h Hact. apply executeLayout_active in Hact; [|done].
  rewrite executeLayout_layout. cbn. by subst.
Qed.

Lemma onCompactMode_owns_active (w : World) ns es :
  owns_active w → owns_active (onCompactMode w ns es).2.
Proof.
  intros Hinv.
  assert (Hstop : ∀ b, owns_active (setAreaForCompact b (stopLayout w))).
  { intros b h Hact. by apply (stopLayout_owns_active w Hinv h). }
  unfold onCompactMode.
  destruct ns as [ns|], es as [es|]; cbn;
    try (apply executeLayout_owns_active);
    destruct (compactMode (layout w)) eqn:Ecm; cbn;
    unfold isCompactModeActive; rewrite ?Ecm;
    first [ exact Hinv | exact (Hstop _) ].
Qed.

Lemma step_owns_active (w w' : World) :
  step w w' → owns_active w → owns_active w'.
Proof.
  intros Hstep Hinv. destruct Hstep.
  - exact Hinv.
  - unfold deactivate. apply stopLayout_owns_active.
    apply (onCompactMode_owns_active (set_layout (set_isActive false) w)).
    exact Hinv.
  - unfold onDrag. case_match; [by apply executeLayout_owns_active|done].
  - by apply executeLayout_owns_active.
  - by apply executeLayout_owns_active.
  - by apply onCompactMode_owns_active.
  - unfold onExpansion_resumed.
    case_match; [done|by apply executeLayout_owns_active].
  - unfold onGroupBroken_resumed.
    case_match; [done|by apply executeLayout_owns_active].
  - exact Hinv.
  - intros h' Hact. unfold active in Hact. cbn in Hact.
    apply active_alter_Stopped in Hact as [_ Hact]. by apply Hinv.
  - exact Hinv.
  - exact Hinv.
Qed.

Lemma reachable_owns_active (w : World) : reachable w → owns_active w.
Proof.
  unfold reachable. revert w.
  apply (rtc_ind_r (R := step) owns_active).
  - intros h Hact. unfold active in Hact. cbn in Hact. discriminate.
  - intros y z _ Hstep IH. by apply (step_owns_active y z).
Qed.

(** C7.  In every state the object can reach at most one handle is active.
    A layout invocation first stops the handle created before it (if any),
    then creates a new handle and runs it; afterwards the new handle is the
    only active one and [layoutAnimation] refers to it. *)
Theorem executeLayout_supersedes (w : World) (collection : gset string)
    (fixed : option (gset string)) :
  reachable w →
  (∀ h1 h2, active w h1 → active w h2 → h1 = h2)
  ∧ let w' := executeLayout w collection fixed in
    let new := length (layouts (cy w)) in
    calls (cy w')
    = calls (cy w)
      ++ match layoutAnimation (layout w) with
         | Some old => [CallStop old]
         | None => []
         end
      ++ [CallLayout new; CallRun new]
    ∧ length (layouts (cy w')) = S new
    ∧ layoutAnimation (layout w') = Some new
    ∧ (∀ h, active w' h ↔ h = new).
Proof.
  intros Hinv%reachable_owns_active. split.
  - intros h1 h2 H1%Hinv H2%Hinv. congruence.
  - cbv zeta. split; [apply executeLayout_calls|]. split.
    + rewrite executeLayout_layouts, length_app, stopLayout_length. cbn. lia.
    + split; [by rewrite (executeLayout_layout w collection fixed)|].
      intros h. by apply executeLayout_active.
Qed.

Lemma executeLayout_supersedes_witness :
  let w := run (activate initial) in
  let w' := run w in
  calls (cy w') = [CallLayout 0; CallRun 0; CallStop 0; CallLayout 1; CallRun 1]
  ∧ (∀ h, active w' h ↔ h = 1).
Proof.
  assert (Hr : reachable (run (activate initial))).
  { eapply rtc_l; [apply step_activate|].
    eapply rtc_l; [apply step_run|]. apply rtc_refl. }
  destruct (executeLayout_supersedes (run (activate initial))
              (getCollectionToAnimate (run (activate initial))) None Hr)
    as (_ & Hcalls & _ & _ & Hactive).
  split; [exact Hcalls | exact Hactive].
Defined.

End engine.

(** ** ColaLayout: which nodes a run holds fixed *)

Section fixed_nodes.
Import ColaLayout.

Lemma executeLayout_handle (w : World) c f :
  layouts (cy (executeLayout w c f)) !! length (layouts (cy w))
  = Some (mkLayouts c (option_of (layout w) "animate") (default ∅ f)
            (option_of (layout w) "nodeSpacing")
            (option_of (layout w) "edgeLength") Running).
Proof.
  rewrite executeLayout_layouts, lookup_app_r by (by rewrite stopLayout_length).
  by rewrite stopLayout_length, Nat.sub_diag.
Qed.

Lemma executeLayout_compactMode (w : World) c f :
  isCompactModeActive (layout (executeLayout w c f))
  = isCompactModeActive (layout w).
Proof. by rewrite executeLayout_layout. Qed.

(** C6.  A layout invocation creates a handle whose explicit fixed set is
    the one passed in (empty when none is passed).  Whenever the engine asks,
    the handle holds a node fixed exactly when the node's identifier is in
    that set, or compact mode is not active and the node's lock flag is set.
    Hence a locked node outside the fixed set is not held fixed while compact
    mode is active and is held fixed while it is not. *)
Theorem extraLocked_iff (w : World) (collection : gset string)
    (explicit : option (gset string)) :
  let w' := executeLayout w collection explicit in
  ∃ handle,
    layoutAnimation (layout w') = Some (length (layouts (cy w)))
    ∧ layouts (cy w') !! length (layouts (cy w)) = Some handle
    ∧ fixed handle = default ∅ explicit
    ∧ isCompactModeActive (layout w') = isCompactModeActive (layout w)
    ∧ ∀ (this : t) (node : NodeSingular),
        (extraLocked this (fixed handle) node = true
         ↔ id node ∈ default ∅ explicit
           ∨ (isCompactModeActive this = false
              ∧ lockedForLayouts node = true))
        ∧ (lockedForLayouts node = true → id node ∉ default ∅ explicit →
           (isCompactModeActive this = true →
            extraLocked this (fixed handle) node = false)
           ∧ (isCompactModeActive this = false →
              extraLocked this (fixed handle) node = true)).
Proof.
  cbv zeta. eexists. split; [by rewrite executeLayout_layout|].
  split; [apply executeLayout_handle|]. split; [reflexivity|].
  split; [apply executeLayout_compactMode|].
  intros this node. unfold extraLocked. cbn [fixed]. split.
  - rewrite orb_true_iff, andb_true_iff, negb_true_iff, bool_decide_eq_true.
    reflexivity.
  - intros -> Hout. rewrite bool_decide_eq_false_2 by done.
    split; intros ->; reflexivity.
Qed.

(** ** ColaLayout: drag events *)

Lemma executeLayout_changes (w : World) c f : executeLayout w c f ≠ w.
Proof.
  intros H. apply (f_equal (λ w, length (layouts (cy w)))) in H.
  rewrite executeLayout_layouts, length_app, stopLayout_length in H.
  cbn in H. lia.
Qed.

(** C8, counterexample: with animation enabled and the constraints not yet
    loaded, a drag start runs no layout when [doLayoutAfterReposition] is
    off. *)
Lemma drag_start_always_runs_fails :
  onDrag Examples.no_layout_after_reposition true = Examples.no_layout_after_reposition
  ∧ calls (cy (onDrag Examples.no_layout_after_reposition true)) = []
  ∧ ¬ drag_start_always_runs Examples.no_layout_after_reposition.
Proof.
  split; [reflexivity|]. split; [reflexivity|].
  intros H. specialize (H eq_refl eq_refl).
  change (onDrag Examples.no_layout_after_reposition true)
    with Examples.no_layout_after_reposition in H.
  symmetry in H. by apply executeLayout_changes in H.
Qed.

(** C8, amended.  A drag end runs a layout over the collection to animate
    whenever [doLayoutAfterReposition] is enabled; a drag start does so
    whenever [doLayoutAfterReposition] is enabled, animation is enabled and
    the constraints are not yet loaded.  With [doLayoutAfterReposition]
    disabled neither event does anything. *)
Theorem onDrag_runs_layout (w : World) :
  (truthy (option_of (layout w) "doLayoutAfterReposition") = true →
   onDrag w false = executeLayout w (getCollectionToAnimate w) None
   ∧ (truthy (option_of (layout w) "animate") = true →
      constraintRulesLoaded w = false →
      onDrag w true = executeLayout w (getCollectionToAnimate w) None))
  ∧ (truthy (option_of (layout w) "doLayoutAfterReposition") = false →
     ∀ isStartNotEnd, onDrag w isStartNotEnd = w).
Proof.
  unfold onDrag. split.
  - intros ->. split; [done|]. by intros -> ->.
  - by intros ->.
Qed.

Lemma onDrag_runs_layout_witness :
  onDrag initial false = executeLayout initial (getCollectionToAnimate initial) None
  ∧ onDrag initial true = executeLayout initial (getCollectionToAnimate initial) None
  ∧ onDrag Examples.no_layout_after_reposition true = Examples.no_layout_after_reposition.
Proof.
  destruct (onDrag_runs_layout initial) as [H _].
  destruct (H eq_refl) as [Hend Hstart].
  destruct (onDrag_runs_layout Examples.no_layout_after_reposition) as [_ Hoff].
  split; [exact Hend|]. split; [exact (Hstart eq_refl eq_refl)|].
  exact (Hoff eq_refl true).
Defined.

(** ** ColaLayout: restoring options *)

(** C9, counterexample: a field that is not an option of the layout is
    copied into the options. *)
Lemma restore_keeps_recognized_only_fails :
  options (restoreFromObject (layout initial) {["zoom" := VNumber 3]}) !! "zoom"
  = Some (VNumber 3)
  ∧ ("zoom" ∉ recognized)
  ∧ ¬ restore_keeps_recognized_only (layout initial) {["zoom" := VNumber 3]}.
Proof.
  assert (Hlook : options (restoreFromObject (layout initial)
                             {["zoom" := VNumber 3]}) !! "zoom"
                  = Some (VNumber 3)).
  { cbn. apply lookup_union_Some_l. apply lookup_singleton_eq. }
  assert (Hnot : "zoom" ∉ recognized).
  { unfold recognized. intros [v Hv]%elem_of_dom.
    vm_compute in Hv. discriminate. }
  split; [exact Hlook|]. split; [exact Hnot|].
  unfold restore_keeps_recognized_only. intros H. apply Hnot, H.
  apply elem_of_dom. by eexists.
Qed.

(** C9, amended.  [restoreFromObject] merges every field of the given
    record over the current options, whether the field is a recognized option
    or not: a field the record gives takes the record's value, every other
    field keeps its value, and nothing else changes. *)
Theorem restoreFromObject_merges (this : t) (object : gmap string value)
    (name : string) :
  options (restoreFromObject this object) !! name
  = match object !! name with
    | Some v => Some v
    | None => options this !! name
    end
  ∧ isActive (restoreFromObject this object) = isActive this
  ∧ compactMode (restoreFromObject this object) = compactMode this
  ∧ layoutAnimation (restoreFromObject this object) = layoutAnimation this.
Proof.
  split; [|done]. cbn. rewrite lookup_union.
  destruct (object !! name), (options this !! name); done.
Qed.

End fixed_nodes.

(** ** ColaLayout: the fixed set of an expansion *)

Section expansion.
Import ColaLayout.

Lemma fold_add_ids (ns : list NodeSingular) (s : gset string) :
  foldl (λ s node, s ∪ {[id node]}) s ns = s ∪ list_to_set (id <$> ns).
Proof.
  revert s. induction ns as [|n ns IH]; intros s; cbn.
  - by rewrite (right_id_L ∅ (∪)).
  - by rewrite IH, (assoc_L (∪)).
Qed.

Lemma fold_delete_ids (ids : list string) (s : gset string) :
  foldl (λ s i, s ∖ {[i]}) s ids = s ∖ list_to_set ids.
Proof.
  revert s. induction ids as [|i ids IH]; intros s; cbn.
  - by rewrite difference_empty_L.
  - rewrite IH. by rewrite difference_difference_l_L.
Qed.

(** C5.  While the object is active and [expansionOnlyThose] is enabled, the
    layout run that an expansion starts gets as its explicit fixed set the
    identifiers of all nodes on the canvas, minus the [selfOrGroup]
    identifiers of the expansion's nodes, minus the [selfOrGroup] identifier
    of the expansion's parent node. *)
Theorem onExpansion_fixed (w : World) (expansion : Expansion) :
  isActive (layout w) = true →
  truthy (option_of (layout w) "expansionOnlyThose") = true →
  let w' := onExpansion_resumed w expansion in
  ∃ handle,
    layoutAnimation (layout w') = Some (length (layouts (cy w)))
    ∧ layouts (cy w') !! length (layouts (cy w)) = Some handle
    ∧ status handle = Running
    ∧ collection handle = cy_elements (cy w)
    ∧ fixed handle
      = list_to_set (id <$> cy_nodes (cy w))
        ∖ list_to_set (nodes_selfOrGroup expansion)
        ∖ {[parentNode_selfOrGroup expansion]}.
Proof.
  intros Hactive Honly. cbv zeta. unfold onExpansion_resumed.
  rewrite Hactive, Honly. cbn [negb].
  eexists. split; [by rewrite executeLayout_layout|].
  split; [apply executeLayout_handle|]. cbn.
  split; [done|]. split; [done|].
  by rewrite fold_delete_ids, fold_add_ids, (left_id_L ∅ (∪)).
Qed.

Lemma onExpansion_fixed_witness :
  fixed <$> layouts (cy (onExpansion_resumed Examples.canvas Examples.expansion)) !! 0
  = Some {["a"; "b"]}.
Proof.
  destruct (onExpansion_fixed Examples.canvas Examples.expansion eq_refl eq_refl)
    as (handle & _ & Hh & _ & _ & Hfixed).
  cbn [length Examples.canvas cy layouts] in Hh. rewrite Hh. cbn. f_equal.
  rewrite Hfixed. apply (bool_decide_unpack _). vm_compute. exact I.
Defined.

End expansion.

(** ** ColaLayout: seed placement *)

Section seeding.
Import ColaLayout.

Lemma PI_lower : (3 < PI)%R.
Proof. pose proof PI2_3_2. lra. Qed.

Lemma PI_upper : (PI < 7 / 2)%R.
Proof.
  destruct (PI_ineq 1) as [_ H].
  unfold tg_alt, PI_tg in H. cbn [sum_f_R0 Nat.mul Nat.add pow] in H.
  rewrite !INR_IZR_INZ in H.
  change (Z.of_nat 1) with 1%Z in H. change (Z.of_nat 3) with 3%Z in H.
  change (Z.of_nat 5) with 5%Z in H. lra.
Qed.

Lemma ring_capacity_0 : ring_capacity 0 = 0.
Proof.
  unfold ring_capacity. cbn [INR]. rewrite Rmult_0_r.
  by rewrite (ZfloorZ 0).
Qed.

Lemma ring_capacity_pos (k : nat) : 1 ≤ ring_capacity (S k).
Proof.
  unfold ring_capacity.
  assert (H : (1 <= Zfloor (2 * PI * INR (S k)))%Z).
  { apply Zfloor_lub. pose proof PI_lower. pose proof (pos_INR k).
    rewrite S_INR. nra. }
  lia.
Qed.

Lemma ring_capacity_1 : ring_capacity 1 = 6.
Proof.
  unfold ring_capacity. cbn [INR]. rewrite Rmult_1_r.
  rewrite (Zfloor_eq 6); [done|].
  pose proof PI_lower. pose proof PI_upper. lra.
Qed.

Lemma before_S (n k : nat) : before n (S k) = before n k + ring_size n k.
Proof. reflexivity. Qed.

Lemma ring_size_0 (n : nat) : ring_size n 0 = 0.
Proof. unfold ring_size. rewrite ring_capacity_0. lia. Qed.

Lemma before_mono (n k k' : nat) : k ≤ k' → before n k ≤ before n k'.
Proof.
  induction 1 as [|k' _ IH]; [done|]. rewrite before_S. lia.
Qed.

Lemma before_le (n k : nat) : before n k ≤ n.
Proof.
  induction k as [|k IH]; [cbn; lia|].
  rewrite before_S. unfold ring_size. lia.
Qed.

(** A node index lies in one slot only. *)
Lemma slot_unique (n k k' j j' : nat) :
  j < ring_size n k → j' < ring_size n k' →
  before n k + j = before n k' + j' → k = k' ∧ j = j'.
Proof.
  intros Hj Hj' Heq.
  destruct (lt_eq_lt_dec k k') as [[Hlt | ->] | Hgt].
  - pose proof (before_mono n (S k) k' Hlt) as H. rewrite before_S in H. lia.
  - lia.
  - pose proof (before_mono n (S k') k Hgt) as H. rewrite before_S in H. lia.
Qed.

Lemma next_ring_slot (n : nat) (c : Circle) :
  between_nodes n c → i c < n →
  let c' := next_ring n c in
  1 ≤ circNum c' ∧ phi c' < circumference c'
  ∧ circumference c' = ring_size n (circNum c')
  ∧ i c' = before n (circNum c') + phi c' ∧ i c' = i c.
Proof.
  intros (Hle & Hcirc & Hi) Hlt. unfold next_ring.
  destruct (decide (phi c = circumference c)) as [Heq|Hne];
    cbn [circNum phi circumference i].
  - assert (Hb : i c = before n (S (circNum c))).
    { rewrite before_S. lia. }
    pose proof (ring_capacity_pos (circNum c)).
    unfold ring_size. rewrite <- Hb. repeat split; lia.
  - repeat split; try lia.
    destruct (circNum c); [|lia].
    rewrite ring_size_0 in Hcirc. lia.
Qed.

Lemma circle_loop_slots (n : nat) (position : Position) (nodes : list Node.t) :
  ∀ (c : Circle) (m : nat) (node : Node.t),
    between_nodes n c → i c + length nodes = n →
    nodes !! m = Some node →
    ∃ k j, 1 ≤ k ∧ j < ring_size n k ∧ i c + m = before n k + j
           ∧ circle_loop n position c nodes !! m
             = Some (seeded (mount_position position
                               (mkCircle k j (ring_size n k) (i c + m))) node).
Proof.
  induction nodes as [|node0 rest IH]; intros c m node Hpre Hlen Hm.
  - discriminate.
  - cbn [length] in Hlen.
    destruct (next_ring_slot n c Hpre ltac:(lia))
      as (Hk & Hphi & Hcirc & Hi & Hsame).
    cbn [circle_loop]. set (c' := next_ring n c) in *.
    destruct m as [|m].
    + injection Hm as <-. exists (circNum c'), (phi c').
      repeat split; [done|lia|lia|]. cbn. unfold seeded, mount_position. cbn.
      by rewrite <- Hcirc.
    + cbn in Hm.
      destruct (IH (mkCircle (circNum c') (S (phi c')) (circumference c')
                      (S (i c'))) m node) as (k & j & H1 & H2 & H3 & H4).
      * repeat split; cbn; lia.
      * cbn. lia.
      * exact Hm.
      * exists k, j. cbn in H3, H4. repeat split; [done|done|lia|].
        rewrite lookup_cons, H4. reflexivity.
Qed.

Lemma mount_position_on_ring (position : Position) (k j c m : nat) :
  mount_position position (mkCircle k j c m) = on_ring position k j c.
Proof.
  unfold mount_position, on_ring, distance. cbn [circNum phi circumference].
  replace (INR 100) with 100%R; [done|].
  rewrite INR_IZR_INZ. reflexivity.
Qed.

Lemma circleLayout_slot (nodes : list Node.t) (position : Position)
    (m : nat) (node : Node.t) :
  nodes !! m = Some node →
  ∃ k j, 1 ≤ k ∧ j < ring_size (length nodes) k
         ∧ m = before (length nodes) k + j
         ∧ circleLayout nodes position !! m
           = Some (seeded (on_ring position k j (ring_size (length nodes) k)) node).
Proof.
  intros Hm. unfold circleLayout.
  destruct (circle_loop_slots (length nodes) position nodes
              (mkCircle 0 0 0 0) m node) as (k & j & H1 & H2 & H3 & H4).
  - split; [done|]. split; [cbn; by rewrite ring_size_0|done].
  - done.
  - done.
  - exists k, j. rewrite mount_position_on_ring in H4. done.
Qed.

(** The first node goes to ring 1, at angle 0. *)
Lemma first_node_placement (node : Node.t) (rest : list Node.t)
    (position : Position) :
  circleLayout (node :: rest) position !! 0
  = Some (seeded ((x position + 100)%R, y position) node).
Proof.
  unfold circleLayout. cbn [circle_loop]. unfold next_ring.
  cbn [phi circumference circNum i]. rewrite decide_True by done.
  rewrite lookup_cons. unfold mount_position, distance.
  cbn [circNum phi circumference]. unfold seeded. do 4 f_equal.
  - replace (INR 100) with 100%R by (rewrite INR_IZR_INZ; reflexivity).
    replace (2 * PI * INR 0 / _)%R with 0%R by (cbn [INR]; unfold Rdiv; ring).
    rewrite cos_0. cbn [INR]. ring.
  - replace (2 * PI * INR 0 / _)%R with 0%R by (cbn [INR]; unfold Rdiv; ring).
    rewrite sin_0. ring.
Qed.

(** C4, counterexample: of seven nodes seeded around (0, 0) the first one is
    placed at (100, 0), not at the anchor. *)
Lemma first_node_at_anchor_fails :
  Node.onMountPosition <$> circleLayout Examples.seven Examples.origin !! 0
  = Some (Some ((0 + 100)%R, 0%R))
  ∧ ¬ first_node_at_anchor Examples.seven Examples.origin.
Proof.
  pose proof (first_node_placement (Node.mk true None [] [] false None)
                (replicate 6 (Node.mk true None [] [] false None)) Examples.origin) as H.
  change (circleLayout Examples.seven Examples.origin !! 0 = Some
            (seeded ((0 + 100)%R, 0%R) (Node.mk true None [] [] false None))) in H.
  split; [by rewrite H|].
  intros (node & Hnode & Hpos). rewrite Hnode in H. injection H as ->.
  cbn in Hpos. injection Hpos as Hx. lra.
Qed.

(** C4, amended.  There is no ring 0: the first node is placed on ring 1 at
    angle 0, that is at the anchor moved by 100 along x.  Ring [k >= 1] holds
    [min(remaining, floor(2 pi k))] nodes; its node number [j] is placed at
    distance [100 k] from the anchor at angle [2 pi j / size]; every node
    lies in exactly one slot of these rings.  Of seven nodes seeded around (0, 0), nodes
    0..5 lie on the ring of radius 100 at angles [2 pi i / 6] and node 6 lies
    on the ring of radius 200 at angle 0. *)
Theorem circleLayout_rings (nodes : list Node.t) (position : Position) :
  let n := length nodes in
  (∀ node, nodes !! 0 = Some node →
     circleLayout nodes position !! 0
     = Some (seeded ((x position + 100)%R, y position) node))
  ∧ (∀ k j node, 1 ≤ k → j < ring_size n k →
       nodes !! (before n k + j) = Some node →
       circleLayout nodes position !! (before n k + j)
       = Some (seeded (on_ring position k j (ring_size n k)) node))
  ∧ (∀ m, m < n → ∃ k j, 1 ≤ k ∧ j < ring_size n k ∧ m = before n k + j)
  ∧ (∀ k k' j j', j < ring_size n k → j' < ring_size n k' →
       before n k + j = before n k' + j' → k = k' ∧ j = j')
  ∧ (n = 7 →
     ring_size n 1 = 6 ∧ ring_size n 2 = 1 ∧ before n 1 = 0 ∧ before n 2 = 6
     ∧ ∀ m node, nodes !! m = Some node →
         circleLayout nodes position !! m
         = Some (seeded (if decide (m < 6)
                         then on_ring position 1 m 6
                         else on_ring position 2 0 1) node)).
Proof.
  cbv zeta.
  assert (Hslots : ∀ k j node, 1 ≤ k → j < ring_size (length nodes) k →
            nodes !! (before (length nodes) k + j) = Some node →
            circleLayout nodes position !! (before (length nodes) k + j)
            = Some (seeded (on_ring position k j (ring_size (length nodes) k)) node)).
  { intros k j node Hk Hj Hnode.
    destruct (circleLayout_slot nodes position _ node Hnode)
      as (k' & j' & _ & Hj' & Heq & Hplaced).
    destruct (slot_unique _ _ _ _ _ Hj Hj' Heq) as [-> ->]. exact Hplaced. }
  split; [|split; [exact Hslots|split; [|split]]].
  - intros node Hnode. destruct nodes as [|node0 rest]; [discriminate|].
    injection Hnode as ->. apply first_node_placement.
  - intros m Hm. destruct (lookup_lt_is_Some_2 nodes m Hm) as [node Hnode].
    destruct (circleLayout_slot nodes position m node Hnode)
      as (k & j & Hk & Hj & Heq & _).
    by exists k, j.
  - intros k k' j j'. apply slot_unique.
  - intros Hn. rewrite Hn in *.
    assert (Hb1 : before 7 1 = 0).
    { cbn [before]. rewrite ring_capacity_0. lia. }
    assert (Hs1 : ring_size 7 1 = 6).
    { unfold ring_size. rewrite Hb1, ring_capacity_1. lia. }
    assert (Hb2 : before 7 2 = 6).
    { rewrite before_S, Hb1, Hs1. lia. }
    assert (Hs2 : ring_size 7 2 = 1).
    { unfold ring_size. rewrite Hb2. pose proof (ring_capacity_pos 1). lia. }
    repeat split; try done.
    intros m node Hnode.
    assert (Hm : m < 7). { rewrite <- Hn. by eapply lookup_lt_Some. }
    destruct (decide (m < 6)) as [Hlt|Hge].
    + pose proof (Hslots 1 m node) as H. rewrite Hb1, Hs1 in H.
      apply H; [lia|done|done].
    + assert (m = 6) as -> by lia.
      pose proof (Hslots 2 0 node) as H. rewrite Hb2, Hs2 in H.
      apply H; [lia|lia|done].
Qed.

Lemma circleLayout_rings_witness :
  Node.onMountPosition <$> circleLayout Examples.seven Examples.origin !! 0
  = Some (Some ((0 + 100)%R, 0%R))
  ∧ Node.onMountPosition <$> circleLayout Examples.seven Examples.origin !! 4
    = Some (Some (on_ring Examples.origin 1 4 6))
  ∧ Node.onMountPosition <$> circleLayout Examples.seven Examples.origin !! 6
    = Some (Some (on_ring Examples.origin 2 0 1)).
Proof.
  destruct (circleLayout_rings Examples.seven Examples.origin)
    as (H0 & _ & _ & _ & H7).
  destruct (H7 eq_refl) as (_ & _ & _ & _ & Hm).
  split; [by rewrite (H0 _ eq_refl)|].
  split; [by rewrite (Hm 4 _ eq_refl)|by rewrite (Hm 6 _ eq_refl)].
Defined.

End seeding.

(** ** NodeGroup: aggregated edges *)

Section js_map.
Context {V W : Type}.
Implicit Types (m : JsMap.t V) (f : V → W).

Lemma get_mapv f m k : JsMap.get (JsMap.map_values f m) k = f <$> JsMap.get m k.
Proof.
  induction m as [|[k' v] m IH]; [done|]. cbn.
  destruct (decide (k' = k)); [done|exact IH].
Qed.

Lemma has_mapv f m k : JsMap.has (JsMap.map_values f m) k = JsMap.has m k.
Proof. unfold JsMap.has. rewrite get_mapv. by destruct (JsMap.get m k). Qed.

Lemma set_mapv f m k v : JsMap.set (JsMap.map_values f m) k (f v) = JsMap.map_values f (JsMap.set m k v).
Proof.
  induction m as [|[k' v'] m IH]; [done|]. cbn.
  destruct (decide (k' = k)); [done|]. cbn. f_equal. exact IH.
Qed.

Lemma values_mapv f m : JsMap.values (JsMap.map_values f m) = f <$> JsMap.values m.
Proof.
  unfold JsMap.values, JsMap.map_values. rewrite <- !list_fmap_compose. done.
Qed.

Lemma get_set_eq m k v : JsMap.get (JsMap.set m k v) k = Some v.
Proof.
  induction m as [|[k' v'] m IH]; cbn.
  - by rewrite decide_True.
  - destruct (decide (k' = k)) as [->|Hne]; cbn.
    + by rewrite decide_True.
    + by rewrite decide_False.
Qed.

Lemma Forall_values_get (P : V → Prop) m k v :
  Forall P (JsMap.values m) → JsMap.get m k = Some v → P v.
Proof.
  induction m as [|[k' v'] m IH]; [done|]. cbn.
  intros [Hv' Hm]%Forall_cons.
  destruct (decide (k' = k)); [by intros [= <-]|by apply IH].
Qed.

Lemma Forall_values_set (P : V → Prop) m k v :
  Forall P (JsMap.values m) → P v → Forall P (JsMap.values (JsMap.set m k v)).
Proof.
  induction m as [|[k' v'] m IH]; cbn.
  - intros _ Hv. by apply Forall_cons.
  - intros [Hv' Hm]%Forall_cons Hv.
    destruct (decide (k' = k)); cbn; apply Forall_cons; auto.
Qed.

Lemma get_set_ne m k k' v :
  k ≠ k' → JsMap.get (JsMap.set m k v) k' = JsMap.get m k'.
Proof.
  intros Hne. induction m as [|[k0 v0] m IH]; cbn.
  - by rewrite decide_False.
  - destruct (decide (k0 = k)) as [->|Hk]; cbn.
    + by rewrite !decide_False.
    + destruct (decide (k0 = k')); [done|exact IH].
Qed.

Lemma has_true m k : JsMap.has m k = true ↔ is_Some (JsMap.get m k).
Proof.
  unfold JsMap.has. destruct (JsMap.get m k); split; done.
Qed.

Lemma get_None_keys m k : JsMap.get m k = None ↔ k ∉ m.*1.
Proof.
  induction m as [|[k0 v0] m IH]; cbn.
  - split; [intros _; apply not_elem_of_nil|done].
  - rewrite not_elem_of_cons. destruct (decide (k0 = k)) as [->|Hk].
    + split; [done|]. by intros [? _].
    + rewrite IH. split; [by intros ?; split|by intros [_ ?]].
Qed.

Lemma keys_set m k v :
  (JsMap.set m k v).*1 = if JsMap.has m k then m.*1 else m.*1 ++ [k].
Proof.
  unfold JsMap.has. induction m as [|[k0 v0] m IH]; cbn; [done|].
  destruct (decide (k0 = k)) as [->|Hk]; cbn; [done|].
  rewrite IH. by destruct (JsMap.get m k).
Qed.

Lemma NoDup_keys_set m k v : NoDup m.*1 → NoDup (JsMap.set m k v).*1.
Proof.
  intros Hnd. rewrite keys_set. destruct (JsMap.has m k) eqn:Ehas; [done|].
  apply NoDup_app. split; [done|]. split; [|apply NoDup_singleton].
  intros k' Hin ->%list_elem_of_singleton.
  assert (JsMap.get m k = None) as Hnone.
  { unfold JsMap.has in Ehas. by destruct (JsMap.get m k). }
  by apply get_None_keys in Hnone.
Qed.

Lemma elem_of_get m k v : NoDup m.*1 → (k, v) ∈ m → JsMap.get m k = Some v.
Proof.
  induction m as [|[k0 v0] m IH]; cbn; intros Hnd Hin.
  - by apply elem_of_nil in Hin.
  - apply NoDup_cons in Hnd as [Hnotin Hnd].
    apply elem_of_cons in Hin as [[= -> ->]|Hin].
    + by rewrite decide_True.
    + destruct (decide (k0 = k)) as [->|Hk]; [|by apply IH].
      exfalso. apply Hnotin. apply list_elem_of_fmap. by exists (k, v).
Qed.

End js_map.

Section js_set.

Lemma elem_of_add (s : JsSet.t) (x c : string) :
  c ∈ JsSet.add s x ↔ c ∈ s ∨ c = x.
Proof.
  unfold JsSet.add, JsSet.has. case_bool_decide as Hx.
  - split; [by left|]. intros [?| ->]; done.
  - rewrite elem_of_app, list_elem_of_singleton. done.
Qed.

Lemma elem_of_of_array (a : list string) (c : string) :
  c ∈ JsSet.of_array a ↔ c ∈ a.
Proof.
  unfold JsSet.of_array.
  assert (H : ∀ s, c ∈ foldl JsSet.add s a ↔ c ∈ s ∨ c ∈ a).
  { induction a as [|x a IH]; intros s; cbn.
    - split; [by left|]. intros [?|Hin]; [done|]. by apply elem_of_nil in Hin.
    - rewrite IH, elem_of_add, elem_of_cons. tauto. }
  rewrite H. split; [|by right]. intros [Hin|?]; [|done].
  by apply elem_of_nil in Hin.
Qed.

Lemma elem_of_retain_included (s : JsSet.t) (a : list string) (c : string) :
  c ∈ JsSet.retain_included s a ↔ c ∈ s ∧ c ∈ a.
Proof. unfold JsSet.retain_included. rewrite list_elem_of_filter. tauto. Qed.

End js_set.

Section aggregation.
Import NodeGroup.
Variables (g : Graph) (this : string) (outNotIn exclusivelyTargetIsGroup : bool).

Lemma shift_entry_retain (n : nat) (e : Entry) (cls : list string) :
  mkEntry (groupEdge (shift_entry n e))
    (JsSet.retain_included (entry_classes (shift_entry n e)) cls)
  = shift_entry n
      (mkEntry (groupEdge e) (JsSet.retain_included (entry_classes e) cls)).
Proof. reflexivity. Qed.

Lemma visit_type_shift (targetNode : NodeCommon) (e : Edge.t)
    (h0 h : list GroupEdge.t) (tm : JsMap.t Entry) :
  visit_type this outNotIn targetNode e (h0 ++ h)
    (JsMap.map_values (shift_entry (length h0)) tm)
  = let '(h', tm') := visit_type this outNotIn targetNode e h tm in
    (h0 ++ h', JsMap.map_values (shift_entry (length h0)) tm').
Proof.
  unfold visit_type. rewrite has_mapv.
  destruct (JsMap.has tm (iri (Edge.type e))).
  - rewrite get_mapv.
    destruct (JsMap.get tm (iri (Edge.type e))) as [e0|];
      cbn [fmap option_fmap option_map].
    + by rewrite shift_entry_retain, set_mapv.
    + done.
  - rewrite length_app.
    change (mkEntry (length h0 + length h) (JsSet.of_array (Edge.classes e)))
      with (shift_entry (length h0)
              (mkEntry (length h) (JsSet.of_array (Edge.classes e)))).
    rewrite set_mapv, get_mapv, !get_set_eq. cbn [fmap option_fmap option_map].
    by rewrite shift_entry_retain, set_mapv, <- app_assoc.
Qed.

Lemma visit_edge_shift (h0 h : list GroupEdge.t) m (e : Edge.t) :
  visit_edge g this outNotIn exclusivelyTargetIsGroup
    (h0 ++ h, shift (length h0) m) e
  = let '(h', m') :=
      visit_edge g this outNotIn exclusivelyTargetIsGroup (h, m) e in
    (h0 ++ h', shift (length h0) m').
Proof.
  unfold visit_edge.
  destruct (counterpart g this outNotIn exclusivelyTargetIsGroup e)
    as [targetNode|]; [|done].
  destruct (negb (Edge.isVisible e) || negb (NodeCommon_isVisible g targetNode));
    [done|].
  unfold enter_edge. cbn [fst snd]. set (key := NodeCommon_identifier targetNode).
  assert (Hset : (if JsMap.has (shift (length h0) m) key
                  then shift (length h0) m
                  else JsMap.set (shift (length h0) m) key [])
                 = shift (length h0)
                     (if JsMap.has m key then m else JsMap.set m key [])).
  { unfold shift. rewrite has_mapv. destruct (JsMap.has m key); [done|].
    by rewrite <- (set_mapv (JsMap.map_values (shift_entry (length h0))) m key []). }
  rewrite Hset. set (m1 := if JsMap.has m key then m else JsMap.set m key []).
  unfold shift at 1. rewrite get_mapv.
  replace (default [] (JsMap.map_values (shift_entry (length h0)) <$> JsMap.get m1 key))
    with (JsMap.map_values (shift_entry (length h0)) (default [] (JsMap.get m1 key)))
    by (by destruct (JsMap.get m1 key)).
  rewrite visit_type_shift.
  destruct (visit_type this outNotIn targetNode e h
              (default [] (JsMap.get m1 key))) as [h' tm'].
  unfold shift. by rewrite set_mapv.
Qed.

Lemma visit_node_shift (h0 h : list GroupEdge.t) m (n : string) :
  visit_node g this outNotIn exclusivelyTargetIsGroup
    (h0 ++ h, shift (length h0) m) n
  = let '(h', m') :=
      visit_node g this outNotIn exclusivelyTargetIsGroup (h, m) n in
    (h0 ++ h', shift (length h0) m').
Proof.
  unfold visit_node.
  destruct (negb (Node.isVisible (node_at g n))); [done|].
  revert h m. induction (Node.edges (node_at g n)) as [|e es IH]; intros h m.
  - done.
  - cbn [foldl]. rewrite visit_edge_shift.
    destruct (visit_edge g this outNotIn exclusivelyTargetIsGroup (h, m) e)
      as [h' m'].
    apply IH.
Qed.

Lemma foldl_visit_node_shift (h0 h : list GroupEdge.t)
    (m : JsMap.t (JsMap.t Entry)) (ns : list string) :
  foldl (visit_node g this outNotIn exclusivelyTargetIsGroup)
    (h0 ++ h, shift (length h0) m) ns
  = let '(h', m') :=
      foldl (visit_node g this outNotIn exclusivelyTargetIsGroup) (h, m) ns in
    (h0 ++ h', shift (length h0) m').
Proof.
  revert h m. induction ns as [|n ns IH]; intros h m.
  - done.
  - cbn [foldl]. rewrite visit_node_shift.
    destruct (visit_node g this outNotIn exclusivelyTargetIsGroup (h, m) n)
      as [h' m'].
    apply IH.
Qed.

Lemma aggregate_shift (h0 : list GroupEdge.t) :
  aggregate g this outNotIn exclusivelyTargetIsGroup h0
  = let '(h', m') := aggregate g this outNotIn exclusivelyTargetIsGroup [] in
    (h0 ++ h', shift (length h0) m').
Proof.
  unfold aggregate.
  rewrite <- (foldl_visit_node_shift h0 [] []). by rewrite app_nil_r.
Qed.

Lemma entries_shift (n : nat) m : entries (shift n m) = shift_entry n <$> entries m.
Proof.
  unfold entries, shift. rewrite values_mapv.
  induction (JsMap.values m) as [|tm tms IH]; [done|].
  cbn [fmap list_fmap concat]. unfold JsMap.values in *.
  rewrite !fmap_app. rewrite IH. f_equal.
  unfold JsMap.map_values. rewrite <- !list_fmap_compose. done.
Qed.

Lemma foldl_collect_entry_shift (h0 h : list GroupEdge.t) (acc : list nat)
    (es : list Entry) :
  foldl collect_entry (h0 ++ h, Nat.add (length h0) <$> acc)
    (shift_entry (length h0) <$> es)
  = let '(h', es') := foldl collect_entry (h, acc) es in
    (h0 ++ h', Nat.add (length h0) <$> es').
Proof.
  revert h acc. induction es as [|e es IH]; intros h acc.
  - done.
  - cbn [foldl fmap list_fmap]. unfold collect_entry at 2 4.
    cbn [fst snd shift_entry groupEdge entry_classes].
    rewrite alter_app_r.
    replace ((Nat.add (length h0) <$> acc) ++ [length h0 + groupEdge e])
      with (Nat.add (length h0) <$> (acc ++ [groupEdge e]))
      by (by rewrite fmap_app).
    apply IH.
Qed.

Lemma collect_shift (h0 h : list GroupEdge.t) m :
  collect (h0 ++ h) (shift (length h0) m)
  = let '(h', es) := collect h m in (h0 ++ h', Nat.add (length h0) <$> es).
Proof.
  unfold collect. rewrite entries_shift.
  apply (foldl_collect_entry_shift h0 h []).
Qed.

Lemma allocated_mono (h h' : list GroupEdge.t) (tm : JsMap.t Entry) :
  length h ≤ length h' → allocated h tm → allocated h' tm.
Proof.
  intros Hle Htm. apply (Forall_impl _ _ _ Htm). intros e He. lia.
Qed.

Lemma visit_type_allocated (targetNode : NodeCommon) (e : Edge.t)
    (h : list GroupEdge.t) (tm : JsMap.t Entry) :
  allocated h tm →
  let '(h', tm') := visit_type this outNotIn targetNode e h tm in
  length h ≤ length h' ∧ allocated h' tm'.
Proof.
  intros Htm. unfold visit_type.
  destruct (JsMap.has tm (iri (Edge.type e))).
  - split; [done|].
    destruct (JsMap.get tm (iri (Edge.type e))) as [e0|] eqn:Eget; [|done].
    apply Forall_values_set; [done|]. cbn.
    apply (Forall_values_get _ _ _ _ Htm Eget).
  - rewrite get_set_eq, length_app. cbn. split; [lia|].
    assert (Hnew : allocated (h ++ [if outNotIn
              then GroupEdge.mk (IsGroup this) targetNode (Edge.type e) []
              else GroupEdge.mk targetNode (IsGroup this) (Edge.type e) []])
             (JsMap.set tm (iri (Edge.type e))
                (mkEntry (length h) (JsSet.of_array (Edge.classes e))))).
    { apply Forall_values_set.
      - apply (allocated_mono h); [rewrite length_app; lia|done].
      - rewrite length_app. cbn. lia. }
    apply Forall_values_set; [exact Hnew|]. rewrite length_app. cbn. lia.
Qed.

Lemma visit_edge_allocated (h : list GroupEdge.t) m (e : Edge.t) :
  Forall (allocated h) (JsMap.values m) →
  let '(h', m') :=
    visit_edge g this outNotIn exclusivelyTargetIsGroup (h, m) e in
  length h ≤ length h' ∧ Forall (allocated h') (JsMap.values m').
Proof.
  intros Hm. unfold visit_edge.
  destruct (counterpart g this outNotIn exclusivelyTargetIsGroup e)
    as [targetNode|]; [|done].
  destruct (negb (Edge.isVisible e) || negb (NodeCommon_isVisible g targetNode));
    [done|].
  unfold enter_edge. cbn [fst snd]. set (key := NodeCommon_identifier targetNode).
  set (m1 := if JsMap.has m key then m else JsMap.set m key []).
  assert (Hm1 : Forall (allocated h) (JsMap.values m1)).
  { unfold m1. destruct (JsMap.has m key); [done|].
    apply (Forall_values_set (allocated h)); [done|]. by constructor. }
  assert (Htm : allocated h (default [] (JsMap.get m1 key))).
  { destruct (JsMap.get m1 key) as [tm|] eqn:Eget; [|by constructor].
    apply (Forall_values_get _ _ _ _ Hm1 Eget). }
  pose proof (visit_type_allocated targetNode e h _ Htm) as Hvisit.
  destruct (visit_type this outNotIn targetNode e h
              (default [] (JsMap.get m1 key))) as [h' tm'].
  destruct Hvisit as [Hle Htm']. split; [done|].
  apply Forall_values_set; [|done].
  apply (Forall_impl _ _ _ Hm1). intros tm. by apply allocated_mono.
Qed.

Lemma aggregate_allocated :
  let '(h, m) := aggregate g this outNotIn exclusivelyTargetIsGroup [] in
  Forall (allocated h) (JsMap.values m).
Proof.
  unfold aggregate.
  assert (H : ∀ ns h m, Forall (allocated h) (JsMap.values m) →
    let '(h', m') :=
      foldl (visit_node g this outNotIn exclusivelyTargetIsGroup) (h, m) ns in
    Forall (allocated h') (JsMap.values m')).
  { induction ns as [|n ns IH]; intros h m Hm; [done|].
    cbn [foldl].
    assert (Hn : let '(h', m') :=
                   visit_node g this outNotIn exclusivelyTargetIsGroup (h, m) n in
                 Forall (allocated h') (JsMap.values m')).
    { unfold visit_node.
      destruct (negb (Node.isVisible (node_at g n))); [done|].
      revert h m Hm.
      induction (Node.edges (node_at g n)) as [|e es IHe]; intros h m Hm;
        [done|].
      cbn [foldl]. pose proof (visit_edge_allocated h m e Hm) as He.
      destruct (visit_edge g this outNotIn exclusivelyTargetIsGroup (h, m) e)
        as [h' m'].
      apply IHe. by destruct He. }
    destruct (visit_node g this outNotIn exclusivelyTargetIsGroup (h, m) n)
      as [h' m'].
    by apply IH. }
  apply (H _ [] []). by constructor.
Qed.

Lemma foldl_collect_entry_length (es : list Entry) (h : list GroupEdge.t)
    (acc : list nat) :
  length (foldl collect_entry (h, acc) es).1 = length h
  ∧ (foldl collect_entry (h, acc) es).2 = acc ++ (groupEdge <$> es).
Proof.
  revert h acc. induction es as [|e es IH]; intros h acc.
  - cbn. by rewrite app_nil_r.
  - cbn [foldl]. unfold collect_entry at 2 4. cbn [fst snd].
    destruct (IH (alter (GroupEdge.set_classes (JsSet.to_array (entry_classes e)))
                    (groupEdge e) h) (acc ++ [groupEdge e])) as [-> ->].
    rewrite length_alter. split; [done|]. by rewrite <- app_assoc.
Qed.

Lemma entries_allocated (h : list GroupEdge.t) m :
  Forall (allocated h) (JsMap.values m) →
  Forall (λ e, groupEdge e < length h) (entries m).
Proof.
  unfold entries. induction (JsMap.values m) as [|tm tms IH]; intros H.
  - by constructor.
  - apply Forall_cons in H as [Htm Htms]. cbn [concat].
    unfold JsMap.values in *. rewrite fmap_app. apply Forall_app. auto.
Qed.

(** *** The class sets of the entries *)

(** What [visit_type] leaves under the type of the edge and elsewhere. *)
Lemma visit_type_get (targetNode : NodeCommon) (e : Edge.t)
    (h : list GroupEdge.t) (tm : JsMap.t Entry) :
  let '(h', tm') := visit_type this outNotIn targetNode e h tm in
  (∀ ty, iri (Edge.type e) ≠ ty → JsMap.get tm' ty = JsMap.get tm ty)
  ∧ (NoDup tm.*1 → NoDup tm'.*1)
  ∧ match JsMap.get tm (iri (Edge.type e)) with
    | Some en =>
        h' = h
        ∧ JsMap.get tm' (iri (Edge.type e))
          = Some (mkEntry (groupEdge en)
                    (JsSet.retain_included (entry_classes en) (Edge.classes e)))
    | None =>
        h' = h ++ [if outNotIn
                   then GroupEdge.mk (IsGroup this) targetNode (Edge.type e) []
                   else GroupEdge.mk targetNode (IsGroup this) (Edge.type e) []]
        ∧ JsMap.get tm' (iri (Edge.type e))
          = Some (mkEntry (length h)
                    (JsSet.retain_included (JsSet.of_array (Edge.classes e))
                       (Edge.classes e)))
    end.
Proof.
  unfold visit_type, JsMap.has.
  destruct (JsMap.get tm (iri (Edge.type e))) as [en|] eqn:Eget.
  - rewrite Eget. split; [|split; [|split]].
    + intros ty Hne. by rewrite get_set_ne.
    + apply NoDup_keys_set.
    + done.
    + by rewrite get_set_eq.
  - rewrite get_set_eq. split; [|split; [|split]].
    + intros ty Hne. by rewrite !get_set_ne.
    + intros Hnd. by do 2 apply NoDup_keys_set.
    + done.
    + by rewrite get_set_eq.
Qed.

(** What [enter_edge] leaves under the counterpart and type of the edge and
    elsewhere. *)
Lemma enter_edge_get (targetNode : NodeCommon) (e : Edge.t)
    (h : list GroupEdge.t) (m : JsMap.t (JsMap.t Entry)) :
  let key0 := NodeCommon_identifier targetNode in
  let '(h', m') := enter_edge this outNotIn targetNode e (h, m) in
  (∀ key, key0 ≠ key → JsMap.get m' key = JsMap.get m key)
  ∧ (NoDup m.*1 → NoDup m'.*1)
  ∧ ∃ tm',
      JsMap.get m' key0 = Some tm'
      ∧ (∀ ty, iri (Edge.type e) ≠ ty →
           JsMap.get tm' ty = JsMap.get (default [] (JsMap.get m key0)) ty)
      ∧ (NoDup (default [] (JsMap.get m key0)).*1 → NoDup tm'.*1)
      ∧ match JsMap.get (default [] (JsMap.get m key0)) (iri (Edge.type e)) with
        | Some en =>
            h' = h
            ∧ JsMap.get tm' (iri (Edge.type e))
              = Some (mkEntry (groupEdge en)
                        (JsSet.retain_included (entry_classes en)
                           (Edge.classes e)))
        | None =>
            h' = h ++ [if outNotIn
                       then GroupEdge.mk (IsGroup this) targetNode
                              (Edge.type e) []
                       else GroupEdge.mk targetNode (IsGroup this)
                              (Edge.type e) []]
            ∧ JsMap.get tm' (iri (Edge.type e))
              = Some (mkEntry (length h)
                        (JsSet.retain_included (JsSet.of_array (Edge.classes e))
                           (Edge.classes e)))
        end.
Proof.
  cbv zeta. unfold enter_edge. cbn [fst snd].
  set (key0 := NodeCommon_identifier targetNode).
  set (m1 := if JsMap.has m key0 then m else JsMap.set m key0 []).
  assert (Hm1 : default [] (JsMap.get m1 key0) = default [] (JsMap.get m key0)).
  { unfold m1, JsMap.has.
    destruct (JsMap.get m key0) eqn:E; [by rewrite E|]. by rewrite get_set_eq. }
  assert (Hother : ∀ key, key0 ≠ key → JsMap.get m1 key = JsMap.get m key).
  { intros key Hne. unfold m1. destruct (JsMap.has m key0); [done|].
    by rewrite get_set_ne. }
  assert (Hnd1 : NoDup m.*1 → NoDup m1.*1).
  { intros Hnd. unfold m1. destruct (JsMap.has m key0); [done|].
    by apply NoDup_keys_set. }
  rewrite Hm1.
  pose proof (visit_type_get targetNode e h (default [] (JsMap.get m key0)))
    as Hvisit.
  destruct (visit_type this outNotIn targetNode e h
              (default [] (JsMap.get m key0))) as [h' tm'].
  destruct Hvisit as (Hty & Hndt & Hnew).
  split; [|split].
  - intros key Hne. by rewrite get_set_ne, Hother.
  - intros Hnd. by apply NoDup_keys_set, Hnd1.
  - exists tm'. split; [by rewrite get_set_eq|]. by split; [|split].
Qed.

Lemma summarizes_skip (h h' : list GroupEdge.t) (L : list Edge.t)
    (key ty : string) (en : Entry) (e : Edge.t) :
  summarizes g this outNotIn exclusivelyTargetIsGroup h L key ty en →
  ¬ contributes g this outNotIn exclusivelyTargetIsGroup key ty e →
  (∀ r ge, h !! r = Some ge → h' !! r = Some ge) →
  summarizes g this outNotIn exclusivelyTargetIsGroup h' (L ++ [e]) key ty en.
Proof.
  intros (ge & Hge & Hkey & Hty & Hcls) Hno Hext.
  exists ge. split; [by apply Hext|]. split; [done|]. split; [done|].
  intros c. rewrite Hcls. split.
  - intros Hall e' [Hin| ->%list_elem_of_singleton]%elem_of_app Hc;
      [by apply Hall|done].
  - intros Hall e' Hin. apply Hall. apply elem_of_app. by left.
Qed.

Lemma summarizes_retain (h : list GroupEdge.t) (L : list Edge.t)
    (key ty : string) (en : Entry) (e : Edge.t) :
  summarizes g this outNotIn exclusivelyTargetIsGroup h L key ty en →
  contributes g this outNotIn exclusivelyTargetIsGroup key ty e →
  summarizes g this outNotIn exclusivelyTargetIsGroup h (L ++ [e]) key ty
    (mkEntry (groupEdge en)
       (JsSet.retain_included (entry_classes en) (Edge.classes e))).
Proof.
  intros (ge & Hge & Hkey & Hty & Hcls) Hyes.
  exists ge. split; [done|]. split; [done|]. split; [done|].
  intros c. cbn [entry_classes]. rewrite elem_of_retain_included, Hcls. split.
  - intros [Hall He] e' [Hin| ->%list_elem_of_singleton]%elem_of_app Hc;
      [by apply Hall|done].
  - intros Hall. split.
    + intros e' Hin. apply Hall. apply elem_of_app. by left.
    + apply Hall; [|done]. apply elem_of_app. right. apply list_elem_of_here.
Qed.

Lemma summarizes_new (h : list GroupEdge.t) (L : list Edge.t)
    (targetNode : NodeCommon) (e : Edge.t) :
  passes g this outNotIn exclusivelyTargetIsGroup e = Some targetNode →
  (∀ e', e' ∈ L →
     ¬ contributes g this outNotIn exclusivelyTargetIsGroup
         (NodeCommon_identifier targetNode) (iri (Edge.type e)) e') →
  summarizes g this outNotIn exclusivelyTargetIsGroup
    (h ++ [if outNotIn
           then GroupEdge.mk (IsGroup this) targetNode (Edge.type e) []
           else GroupEdge.mk targetNode (IsGroup this) (Edge.type e) []])
    (L ++ [e]) (NodeCommon_identifier targetNode) (iri (Edge.type e))
    (mkEntry (length h)
       (JsSet.retain_included (JsSet.of_array (Edge.classes e)) (Edge.classes e))).
Proof.
  intros Hpass Hnone. eexists. cbn [groupEdge entry_classes].
  split; [by rewrite lookup_app_r, Nat.sub_diag|].
  split; [by destruct outNotIn|]. split; [by destruct outNotIn|].
  intros c. rewrite elem_of_retain_included, elem_of_of_array. split.
  - intros [He _] e' [Hin| ->%list_elem_of_singleton]%elem_of_app Hc; [|done].
    by apply Hnone in Hc.
  - intros Hall.
    assert (c ∈ Edge.classes e); [|done].
    apply Hall.
    + apply elem_of_app. right. apply list_elem_of_here.
    + split; [by rewrite Hpass|done].
Qed.

Lemma visit_edge_passes (acc : list GroupEdge.t * JsMap.t (JsMap.t Entry))
    (e : Edge.t) :
  visit_edge g this outNotIn exclusivelyTargetIsGroup acc e
  = match passes g this outNotIn exclusivelyTargetIsGroup e with
    | Some targetNode => enter_edge this outNotIn targetNode e acc
    | None => acc
    end.
Proof.
  unfold visit_edge, passes.
  destruct (counterpart g this outNotIn exclusivelyTargetIsGroup e) as [tn|];
    [|done].
  by destruct (negb (Edge.isVisible e) || negb (NodeCommon_isVisible g tn)).
Qed.

(** One round of the inner loop keeps the invariant. *)
Lemma aggregated_step (h : list GroupEdge.t) (m : JsMap.t (JsMap.t Entry))
    (L : list Edge.t) (e : Edge.t) :
  aggregated g this outNotIn exclusivelyTargetIsGroup h m L →
  let '(h', m') :=
    visit_edge g this outNotIn exclusivelyTargetIsGroup (h, m) e in
  aggregated g this outNotIn exclusivelyTargetIsGroup h' m' (L ++ [e]).
Proof.
  intros (Hnd & Hndt & Hsum & Hall). rewrite visit_edge_passes.
  destruct (passes g this outNotIn exclusivelyTargetIsGroup e) as [tn|]
    eqn:Epass.
  - pose proof (enter_edge_get tn e h m) as Henter. cbv zeta in Henter.
    destruct (enter_edge this outNotIn tn e (h, m)) as [h' m'].
    destruct Henter as (Hother & Hnd' & tm' & Hget' & Hty & Hndt' & Hnew).
    set (key0 := NodeCommon_identifier tn) in *.
    set (ty0 := iri (Edge.type e)) in *.
    assert (Honly : ∀ key ty,
              contributes g this outNotIn exclusivelyTargetIsGroup key ty e →
              key0 = key ∧ ty0 = ty).
    { intros key ty [H1 H2]. rewrite Epass in H1. cbn in H1.
      by injection H1 as <-. }
    assert (Hext : ∀ r ge, h !! r = Some ge → h' !! r = Some ge).
    { destruct (JsMap.get (default [] (JsMap.get m key0)) ty0);
        destruct Hnew as [-> _]; [done|].
      intros r ge Hr. by apply lookup_app_l_Some. }
    split; [by apply Hnd'|]. split; [|split].
    + intros key tm Hk. destruct (decide (key0 = key)) as [<-|Hne].
      * rewrite Hget' in Hk. injection Hk as <-. apply Hndt'.
        destruct (JsMap.get m key0) as [tm0|] eqn:Em; cbn;
          [by apply (Hndt key0)|constructor].
      * rewrite Hother in Hk by done. by apply (Hndt key).
    + intros key tm ty en Hk Hen.
      destruct (decide (key0 = key)) as [<-|Hne].
      * rewrite Hget' in Hk. injection Hk as <-.
        destruct (decide (ty0 = ty)) as [<-|Hnety].
        -- destruct (JsMap.get (default [] (JsMap.get m key0)) ty0)
             as [en0|] eqn:E0.
           ++ destruct Hnew as [-> Hnew]. rewrite Hnew in Hen.
              injection Hen as <-.
              apply summarizes_retain; [|by split; [rewrite Epass|]].
              destruct (JsMap.get m key0) as [tm0|] eqn:Em; cbn in E0;
                [|discriminate].
              by apply (Hsum key0 tm0).
           ++ destruct Hnew as [-> Hnew]. rewrite Hnew in Hen.
              injection Hen as <-. apply summarizes_new; [done|].
              intros e' Hin Hc.
              destruct (Hall _ _ _ Hin Hc) as (tm0 & en0 & Hm0 & Hen0).
              fold key0 in Hm0. rewrite Hm0 in E0. cbn in E0.
              fold ty0 in Hen0. congruence.
        -- rewrite Hty in Hen by done.
           destruct (JsMap.get m key0) as [tm0|] eqn:Em; cbn in Hen;
             [|discriminate].
           apply (summarizes_skip h); [by apply (Hsum key0 tm0)| |done].
           intros Hc. by destruct (Honly _ _ Hc).
      * rewrite Hother in Hk by done.
        apply (summarizes_skip h); [by apply (Hsum key tm)| |done].
        intros Hc. by destruct (Honly _ _ Hc).
    + intros key ty e' [Hin| ->%list_elem_of_singleton]%elem_of_app Hc.
      * destruct (Hall _ _ _ Hin Hc) as (tm0 & en0 & Hm0 & Hen0).
        destruct (decide (key0 = key)) as [<-|Hne].
        -- exists tm'. rewrite Hm0 in Hty, Hnew. cbn in Hty, Hnew.
           destruct (decide (ty0 = ty)) as [<-|Hnety].
           ++ rewrite Hen0 in Hnew. destruct Hnew as [_ Hnew].
              eexists. by split.
           ++ exists en0. split; [done|]. by rewrite Hty.
        -- exists tm0, en0. by rewrite Hother.
      * destruct (Honly _ _ Hc) as [<- <-]. exists tm'.
        destruct (JsMap.get (default [] (JsMap.get m key0)) ty0);
          destruct Hnew as [_ Hnew]; eexists; by split.
  - split; [done|]. split; [done|]. split.
    + intros key tm ty en Hk Hen.
      apply (summarizes_skip h); [by apply (Hsum key tm)| |done].
      intros [H1 _]. by rewrite Epass in H1.
    + intros key ty e' [Hin| ->%list_elem_of_singleton]%elem_of_app Hc;
        [by apply (Hall _ _ e')|].
      destruct Hc as [H1 _]. by rewrite Epass in H1.
Qed.

Lemma foldl_aggregated (es : list Edge.t) (h : list GroupEdge.t)
    (m : JsMap.t (JsMap.t Entry)) (L : list Edge.t) :
  aggregated g this outNotIn exclusivelyTargetIsGroup h m L →
  let '(h', m') :=
    foldl (visit_edge g this outNotIn exclusivelyTargetIsGroup) (h, m) es in
  aggregated g this outNotIn exclusivelyTargetIsGroup h' m' (L ++ es).
Proof.
  revert h m L. induction es as [|e es IH]; intros h m L Hagg.
  - cbn. by rewrite app_nil_r.
  - cbn [foldl]. pose proof (aggregated_step h m L e Hagg) as Hstep.
    destruct (visit_edge g this outNotIn exclusivelyTargetIsGroup (h, m) e)
      as [h1 m1].
    replace (L ++ e :: es) with ((L ++ [e]) ++ es) by (by rewrite <- app_assoc).
    by apply IH.
Qed.

Lemma aggregate_visited (h0 : list GroupEdge.t) :
  aggregate g this outNotIn exclusivelyTargetIsGroup h0
  = foldl (visit_edge g this outNotIn exclusivelyTargetIsGroup) (h0, [])
      (visited g this).
Proof.
  unfold aggregate, visited.
  generalize (h0, @nil (string * JsMap.t Entry)).
  induction (nodes (group_at g this)) as [|n ns IH]; intros acc; [done|].
  cbn [foldl fmap list_fmap concat]. rewrite foldl_app, IH.
  unfold visit_node. by destruct (negb (Node.isVisible (node_at g n))).
Qed.

Lemma aggregate_aggregated :
  let '(h, m) := aggregate g this outNotIn exclusivelyTargetIsGroup [] in
  aggregated g this outNotIn exclusivelyTargetIsGroup h m (visited g this).
Proof.
  rewrite aggregate_visited.
  apply (foldl_aggregated (visited g this) [] [] []).
  split; [constructor|]. split; [done|]. split; [done|].
  intros key ty e Hin. by apply elem_of_nil in Hin.
Qed.

Lemma elem_of_entries (m : JsMap.t (JsMap.t Entry)) (en : Entry) :
  en ∈ entries m → ∃ key tm ty, (key, tm) ∈ m ∧ (ty, en) ∈ tm.
Proof.
  unfold entries, JsMap.values. induction m as [|[key tm] m IH]; cbn.
  - intros Hin. by apply elem_of_nil in Hin.
  - rewrite fmap_app. intros [Hin|Hin]%elem_of_app.
    + apply list_elem_of_fmap in Hin as ([ty en'] & -> & Hin).
      exists key, tm, ty. split; [apply list_elem_of_here|done].
    + destruct (IH Hin) as (key' & tm' & ty & H1 & H2).
      exists key', tm', ty. split; [by apply list_elem_of_further|done].
Qed.

Lemma set_classes_set_classes (c c' : list string) (o : option GroupEdge.t) :
  GroupEdge.set_classes c <$> (GroupEdge.set_classes c' <$> o)
  = GroupEdge.set_classes c <$> o.
Proof. by destruct o. Qed.

(** The class set an edge carries once the entries have been collected:
    that of the entries that refer to it. *)
Lemma foldl_collect_entry_lookup (ens : list Entry) (h : list GroupEdge.t)
    (acc : list nat) (r : nat) (cls : JsSet.t) :
  (∀ en, en ∈ ens → groupEdge en = r → entry_classes en = cls) →
  (Exists (λ en, groupEdge en = r) ens →
   (foldl collect_entry (h, acc) ens).1 !! r
   = GroupEdge.set_classes cls <$> h !! r)
  ∧ (Forall (λ en, groupEdge en ≠ r) ens →
     (foldl collect_entry (h, acc) ens).1 !! r = h !! r).
Proof.
  induction ens as [|en ens IH] using rev_ind; intros Hcls.
  - split; [by intros ?%Exists_nil|done].
  - rewrite foldl_app. cbn [foldl]. unfold collect_entry at 1 3. cbn [fst].
    destruct IH as [IH1 IH2].
    { intros en' Hin. apply Hcls. apply elem_of_app. by left. }
    destruct (decide (groupEdge en = r)) as [Heq|Hne].
    + assert (entry_classes en = cls) as Hen.
      { apply Hcls; [|done]. apply elem_of_app. right. apply list_elem_of_here. }
      split.
      * intros _. rewrite Heq, list_lookup_alter_eq, Hen.
        unfold JsSet.to_array.
        destruct (decide (Exists (λ en, groupEdge en = r) ens)) as [Hex|Hnex].
        -- by rewrite IH1, set_classes_set_classes.
        -- rewrite IH2; [done|].
           by apply (not_Exists_Forall (λ en, groupEdge en = r)).
      * intros [_ Hlast]%Forall_app.
        apply (proj1 (Forall_singleton _ _)) in Hlast. by destruct Hlast.
    + rewrite list_lookup_alter_ne by done. split.
      * intros [Hex|Hex]%Exists_app; [by apply IH1|].
        by apply Exists_cons in Hex as [?|?%Exists_nil].
      * intros [Hall _]%Forall_app. by apply IH2.
Qed.

(** The group edges of one pass over an empty heap carry the classes common
    to the edges they summarize. *)
Lemma fresh_classes (r : nat) :
  r ∈ (fresh g this outNotIn exclusivelyTargetIsGroup).2 →
  ∃ ge,
    (fresh g this outNotIn exclusivelyTargetIsGroup).1 !! r = Some ge
    ∧ ∀ c, c ∈ GroupEdge.classes ge
           ↔ ∀ e, e ∈ visited g this →
                  contributes g this outNotIn exclusivelyTargetIsGroup
                    (NodeCommon_identifier (other_end outNotIn ge))
                    (iri (GroupEdge.type ge)) e →
                  c ∈ Edge.classes e.
Proof.
  unfold fresh. pose proof aggregate_aggregated as Hagg.
  destruct (aggregate g this outNotIn exclusivelyTargetIsGroup []) as [h m].
  destruct Hagg as (Hnd & Hndt & Hsum & _). unfold collect.
  destruct (foldl_collect_entry_length (entries m) h []) as [_ Hes].
  rewrite Hes. cbn [app]. intros Hr.
  apply list_elem_of_fmap in Hr as (en & -> & Hen).
  assert (Hfind : ∀ en', en' ∈ entries m →
            ∃ key ty, summarizes g this outNotIn exclusivelyTargetIsGroup h
                        (visited g this) key ty en'
                      ∧ ∃ tm, JsMap.get m key = Some tm
                              ∧ JsMap.get tm ty = Some en').
  { intros en' (key & tm & ty & Hk & Ht)%elem_of_entries.
    apply elem_of_get in Hk; [|done].
    apply elem_of_get in Ht; [|by apply (Hndt key)].
    exists key, ty. split; [by apply (Hsum key tm)|by exists tm]. }
  destruct (Hfind en Hen) as (key & ty & (ge & Hge & Hkey & Hty & Hcls) & _).
  destruct (foldl_collect_entry_lookup (entries m) h [] (groupEdge en)
              (entry_classes en)) as [Hlook _].
  { intros en' Hen' Href.
    destruct (Hfind en' Hen')
      as (key' & ty' & (ge' & Hge' & Hkey' & Hty' & _) & tm' & Hk' & Ht').
    destruct (Hfind en Hen) as (key2 & ty2 & (ge2 & Hge2 & Hkey2 & Hty2 & _)
                                & tm2 & Hk2 & Ht2).
    rewrite Href in Hge'. rewrite Hge2 in Hge'. injection Hge' as <-.
    rewrite Hkey2 in Hkey'. rewrite Hty2 in Hty'. subst key' ty'.
    rewrite Hk2 in Hk'. injection Hk' as <-. rewrite Ht2 in Ht'.
    by injection Ht' as <-. }
  exists (GroupEdge.set_classes (entry_classes en) ge). split.
  - rewrite Hlook; [by rewrite Hge|].
    apply Exists_exists. by exists en.
  - replace (other_end outNotIn (GroupEdge.set_classes (entry_classes en) ge))
      with (other_end outNotIn ge) by (by destruct outNotIn).
    cbn [GroupEdge.set_classes GroupEdge.type GroupEdge.classes].
    rewrite Hkey, Hty. exact Hcls.
Qed.

End aggregation.

Section cache.
Import NodeGroup.
Variable idf : string → string → string → string.

Lemma foldl_use_cache heap cache (edges acc : list nat) (nc : gmap string nat) :
  foldl (λ '(edges', newCache) e,
           let e' := default e (cache !! identifier_at idf heap e) in
           (edges' ++ [e'], <[identifier_at idf heap e' := e']> newCache))
        (acc, nc) edges
  = (acc ++ (resolve idf heap cache <$> edges),
     foldl (remember idf heap) nc (resolve idf heap cache <$> edges)).
Proof.
  revert acc nc. induction edges as [|e edges IH]; intros acc nc.
  - cbn. by rewrite app_nil_r.
  - cbn [foldl fmap list_fmap]. rewrite IH. by rewrite <- app_assoc.
Qed.

Lemma use_cache_unfold heap cache (edges : list nat) :
  use_cache idf heap cache edges
  = (resolve idf heap cache <$> edges,
     foldl (remember idf heap) ∅ (resolve idf heap cache <$> edges)).
Proof. unfold use_cache. by rewrite foldl_use_cache. Qed.

Lemma bucket_set_bucket (o x : bool) nc c : bucket o x (set_bucket o x nc c) = nc.
Proof. by destruct o, x. Qed.

Lemma getGroupEdgesInDirection_unfold (st : Store) (this : string) (o x : bool) :
  getGroupEdgesInDirection idf st this o x
  = let '(h2, es) := fresh (graph st) this o x in
    let heap := groupEdges st ++ h2 in
    let edges :=
      resolve idf heap (cached st this o x)
      <$> (Nat.add (length (groupEdges st)) <$> es) in
    (edges,
     mkStore (graph st)
       (<[this := set_bucket o x (foldl (remember idf heap) ∅ edges)
                    (default (mkCache ∅ ∅ ∅) (groupEdgesCache st !! this))]>
          (groupEdgesCache st))
       heap).
Proof.
  unfold getGroupEdgesInDirection, fresh. rewrite aggregate_shift.
  destruct (aggregate (graph st) this o x []) as [h m].
  rewrite collect_shift. destruct (collect h m) as [h2 es].
  by rewrite use_cache_unfold.
Qed.

Lemma fresh_allocated (g : Graph) (this : string) (o x : bool) :
  Forall (λ r, r < length (fresh g this o x).1) (fresh g this o x).2.
Proof.
  unfold fresh. pose proof (aggregate_allocated g this o x) as Halloc.
  destruct (aggregate g this o x []) as [h m]. unfold collect.
  destruct (foldl_collect_entry_length (entries m) h []) as [-> ->].
  cbn [app]. apply Forall_fmap. by apply entries_allocated.
Qed.

Lemma identifier_at_app_l (h h' : list GroupEdge.t) (r : nat) :
  r < length h → identifier_at idf (h ++ h') r = identifier_at idf h r.
Proof. intros Hr. unfold identifier_at. by rewrite lookup_total_app_l. Qed.

Lemma identifier_at_app_r (h h' : list GroupEdge.t) (r : nat) :
  identifier_at idf (h ++ h') (length h + r) = identifier_at idf h' r.
Proof.
  unfold identifier_at. rewrite lookup_total_app_r by lia.
  by replace (length h + r - length h) with r by lia.
Qed.

Lemma fresh_identifiers_shift (h0 h2 : list GroupEdge.t) (es : list nat) :
  identifier_at idf (h0 ++ h2) <$> (Nat.add (length h0) <$> es)
  = identifier_at idf h2 <$> es.
Proof.
  rewrite <- list_fmap_compose. apply list_fmap_ext.
  intros i r _. cbn. apply identifier_at_app_r.
Qed.

Lemma dom_foldl_remember heap (edges : list nat) (nc : gmap string nat) :
  dom (foldl (remember idf heap) nc edges)
  = dom nc ∪ list_to_set (identifier_at idf heap <$> edges).
Proof.
  revert nc. induction edges as [|e edges IH]; intros nc; cbn.
  - by rewrite (right_id_L ∅ (∪)).
  - rewrite IH. unfold remember. rewrite dom_insert_L.
    rewrite (comm_L (∪) {[identifier_at idf heap e]} (dom nc)).
    by rewrite (assoc_L (∪)).
Qed.

Lemma lookup_foldl_remember_other heap (edges : list nat) nc (k : string) :
  k ∉ identifier_at idf heap <$> edges →
  foldl (remember idf heap) nc edges !! k = nc !! k.
Proof.
  revert nc. induction edges as [|e edges IH]; intros nc Hk; [done|].
  cbn in Hk. apply not_elem_of_cons in Hk as [Hne Hk].
  cbn [foldl]. rewrite IH by done. unfold remember.
  by rewrite lookup_insert_ne.
Qed.

Lemma lookup_foldl_remember heap (edges : list nat) nc (e : nat) :
  NoDup (identifier_at idf heap <$> edges) → e ∈ edges →
  foldl (remember idf heap) nc edges !! identifier_at idf heap e = Some e.
Proof.
  revert nc. induction edges as [|e' edges IH]; intros nc Hnd He.
  - by apply elem_of_nil in He.
  - cbn in Hnd. apply NoDup_cons in Hnd as [Hnotin Hnd]. cbn [foldl].
    apply elem_of_cons in He as [->|He].
    + rewrite lookup_foldl_remember_other by done.
      unfold remember. by rewrite lookup_insert_eq.
    + by apply IH.
Qed.

Lemma lookup_foldl_remember_Some heap (edges : list nat) nc (k : string) (r : nat) :
  foldl (remember idf heap) nc edges !! k = Some r →
  nc !! k = Some r ∨ (r ∈ edges ∧ identifier_at idf heap r = k).
Proof.
  revert nc. induction edges as [|e edges IH]; intros nc H; [by left|].
  cbn [foldl] in H. apply IH in H as [H|[Hin Hid]].
  - unfold remember in H. rewrite lookup_insert in H.
    destruct (decide (identifier_at idf heap e = k)) as [Heq|Hne].
    + injection H as <-. right. split; [apply list_elem_of_here|done].
    + by left.
  - right. split; [by apply list_elem_of_further|done].
Qed.

Lemma resolve_identifier heap (cache : gmap string nat) (e : nat) :
  (∀ k r, cache !! k = Some r → identifier_at idf heap r = k) →
  identifier_at idf heap (resolve idf heap cache e) = identifier_at idf heap e.
Proof.
  intros Hc. unfold resolve.
  destruct (cache !! identifier_at idf heap e) as [r|] eqn:E; cbn; [|done].
  by apply Hc.
Qed.

Lemma resolve_allocated (h0 h2 : list GroupEdge.t) (cache : gmap string nat)
    (e : nat) :
  (∀ k r, cache !! k = Some r → r < length h0) → e < length h2 →
  resolve idf (h0 ++ h2) cache (length h0 + e) < length (h0 ++ h2).
Proof.
  intros Hc He. unfold resolve. rewrite length_app.
  destruct (cache !! identifier_at idf (h0 ++ h2) (length h0 + e))
    as [r|] eqn:E; cbn; [|lia].
  apply Hc in E. lia.
Qed.

Lemma cached_after (st : Store) (this : string) (o x : bool) nc heap :
  cached
    (mkStore (graph st)
       (<[this := set_bucket o x nc
                    (default (mkCache ∅ ∅ ∅) (groupEdgesCache st !! this))]>
          (groupEdgesCache st))
       heap) this o x
  = nc.
Proof.
  unfold cached. cbn. rewrite lookup_insert_eq. cbn. apply bucket_set_bucket.
Qed.

(** C1.  Let the cache bucket of a call be consistent (it always is, see
    [getGroupEdgesInDirection_consistent] below) and let the edges of one
    pass have pairwise different identifiers.  Then two calls in a row return
    the same [GroupEdge] objects; an edge whose identifier is in the bucket is
    replaced by the cached instance; and after either call the keys of the
    bucket are exactly the identifiers of the returned edges. *)
Theorem getGroupEdgesInDirection_stable (st : Store) (this : string)
    (outNotIn excl : bool) :
  cache_consistent idf st this outNotIn excl →
  NoDup (fresh_identifiers idf (graph st) this outNotIn excl) →
  let '(edges1, st1) := getGroupEdgesInDirection idf st this outNotIn excl in
  let '(edges2, st2) := getGroupEdgesInDirection idf st1 this outNotIn excl in
  edges2 = edges1
  ∧ graph st2 = graph st
  ∧ (∀ i k r,
       fresh_identifiers idf (graph st) this outNotIn excl !! i = Some k →
       cached st this outNotIn excl !! k = Some r →
       edges1 !! i = Some r)
  ∧ dom (cached st1 this outNotIn excl)
    = list_to_set (identifier_at idf (groupEdges st1) <$> edges1)
  ∧ dom (cached st2 this outNotIn excl)
    = list_to_set (identifier_at idf (groupEdges st2) <$> edges2).
Proof.
  intros Hcons Hnd. rewrite getGroupEdgesInDirection_unfold.
  unfold fresh_identifiers in *.
  pose proof (fresh_allocated (graph st) this outNotIn excl) as Halloc.
  destruct (fresh (graph st) this outNotIn excl) as [h2 es] eqn:Efresh.
  cbn [fst snd] in Halloc. cbv zeta.
  set (n0 := length (groupEdges st)).
  set (H1 := groupEdges st ++ h2).
  set (c0 := cached st this outNotIn excl) in *.
  set (r1 := resolve idf H1 c0 <$> (Nat.add n0 <$> es)).
  set (cache1 := foldl (remember idf H1) ∅ r1).
  match goal with |- context [getGroupEdgesInDirection idf ?s _ _ _] =>
    set (st1 := s) end.
  assert (Hcached1 : cached st1 this outNotIn excl = cache1)
    by apply cached_after.
  rewrite getGroupEdgesInDirection_unfold.
  change (fresh (graph st1) this outNotIn excl)
    with (fresh (graph st) this outNotIn excl).
  rewrite Efresh. cbv zeta. change (groupEdges st1) with H1.
  rewrite Hcached1, cached_after.
  set (H2 := H1 ++ h2).
  set (r2 := resolve idf H2 cache1 <$> (Nat.add (length H1) <$> es)).
  assert (Hc0 : ∀ k r, c0 !! k = Some r → identifier_at idf H1 r = k).
  { intros k r Hk. destruct (Hcons k r Hk) as [Hlt Hid].
    unfold H1. by rewrite identifier_at_app_l. }
  assert (Hids1 : identifier_at idf H1 <$> r1 = identifier_at idf h2 <$> es).
  { unfold r1. rewrite <- !list_fmap_compose. apply list_fmap_ext.
    intros i e _. cbn. rewrite resolve_identifier by done.
    apply identifier_at_app_r. }
  assert (Hsame : r2 = r1).
  { unfold r2, r1. rewrite <- !list_fmap_compose. apply list_fmap_ext.
    intros i e He. cbn.
    set (a := resolve idf H1 c0 (n0 + e)).
    assert (Ha : a ∈ r1).
    { unfold r1. rewrite <- list_fmap_compose.
      apply list_elem_of_fmap. exists e. split; [done|].
      by apply list_elem_of_lookup_2 in He. }
    unfold resolve at 1. unfold H2 at 1. rewrite identifier_at_app_r.
    replace (identifier_at idf h2 e) with (identifier_at idf H1 a).
    - unfold cache1. rewrite lookup_foldl_remember; [done| |done].
      by rewrite Hids1.
    - unfold a. rewrite resolve_identifier by done.
      apply identifier_at_app_r. }
  split; [exact Hsame|]. split; [done|]. split.
  - intros i k r Hk Hr. unfold r1. rewrite !list_lookup_fmap.
    rewrite list_lookup_fmap in Hk.
    destruct (es !! i) as [e|]; [|discriminate]. cbn in *.
    injection Hk as <-. unfold resolve.
    unfold H1 at 1. rewrite identifier_at_app_r. by rewrite Hr.
  - unfold cache1 at 1.
    by rewrite !dom_foldl_remember, dom_empty_L, !(left_id_L ∅ (∪)).
Qed.

(** The intended behaviour that C2 describes, on the path that does not
    take an instance from the cache: a returned edge whose identifier is not
    in the bucket carries exactly the classes common to the visible edges it
    summarizes. *)
Lemma getGroupEdgesInDirection_classes (st : Store) (this : string)
    (outNotIn excl : bool) :
  let '(edges, st') := getGroupEdgesInDirection idf st this outNotIn excl in
  ∀ i k r,
    fresh_identifiers idf (graph st) this outNotIn excl !! i = Some k →
    cached st this outNotIn excl !! k = None →
    edges !! i = Some r →
    ∃ ge,
      groupEdges st' !! r = Some ge
      ∧ ∀ c, c ∈ GroupEdge.classes ge
             ↔ ∀ e, e ∈ visited (graph st) this →
                    contributes (graph st) this outNotIn excl
                      (NodeCommon_identifier (other_end outNotIn ge))
                      (iri (GroupEdge.type ge)) e →
                    c ∈ Edge.classes e.
Proof.
  rewrite getGroupEdgesInDirection_unfold. unfold fresh_identifiers.
  pose proof (fresh_classes (graph st) this outNotIn excl) as Hfresh.
  destruct (fresh (graph st) this outNotIn excl) as [h2 es].
  cbn [fst snd] in Hfresh. cbv zeta. intros i k r Hk Hmiss Hr.
  rewrite list_lookup_fmap in Hk. rewrite !list_lookup_fmap in Hr.
  destruct (es !! i) as [e0|] eqn:Ei; [|discriminate]. cbn in Hk, Hr.
  injection Hk as <-. injection Hr as <-.
  unfold resolve. rewrite identifier_at_app_r, Hmiss. cbn [default groupEdges].
  rewrite lookup_app_r by lia.
  replace (length (groupEdges st) + e0 - length (groupEdges st)) with e0 by lia.
  apply Hfresh. by apply list_elem_of_lookup_2 in Ei.
Qed.

Lemma consistent_without_cache (g : Graph) : consistent idf (mkStore g ∅ []).
Proof.
  intros grp o x k r H. unfold cached in H. cbn in H.
  rewrite lookup_empty in H. cbn in H. by destruct o, x.
Qed.

Lemma bucket_set_bucket_cases (o x o' x' : bool) nc c :
  bucket o' x' (set_bucket o x nc c) = nc
  ∨ bucket o' x' (set_bucket o x nc c) = bucket o' x' c.
Proof. destruct o, x, o', x'; cbn; auto. Qed.

(** The invariant that C1 assumes: it holds while no group has a cache and
    every call keeps it. *)
Lemma getGroupEdgesInDirection_consistent (st : Store) (this : string)
    (outNotIn excl : bool) :
  consistent idf st →
  consistent idf (getGroupEdgesInDirection idf st this outNotIn excl).2.
Proof.
  intros Hcons. rewrite getGroupEdgesInDirection_unfold.
  pose proof (fresh_allocated (graph st) this outNotIn excl) as Halloc.
  destruct (fresh (graph st) this outNotIn excl) as [h2 es].
  cbn [fst snd] in *. cbv zeta.
  set (H1 := groupEdges st ++ h2).
  set (c0 := cached st this outNotIn excl).
  set (r1 := resolve idf H1 c0 <$> (Nat.add (length (groupEdges st)) <$> es)).
  assert (Hold : ∀ grp o x k r, cached st grp o x !! k = Some r →
            r < length H1 ∧ identifier_at idf H1 r = k).
  { intros grp o x k r Hk. destruct (Hcons grp o x k r Hk) as [Hlt Hid].
    unfold H1. rewrite length_app, identifier_at_app_l by done.
    split; [lia|done]. }
  assert (Hr1 : Forall (λ r, r < length H1) r1).
  { unfold r1. rewrite <- list_fmap_compose. apply Forall_fmap.
    apply (Forall_impl _ _ _ Halloc). intros e He. cbn.
    apply resolve_allocated; [|done].
    intros k r Hk. by apply (Hcons this outNotIn excl k r). }
  intros grp o x k r Hk. unfold cached in Hk. cbn in Hk. cbn [groupEdges].
  destruct (decide (grp = this)) as [->|Hne].
  - rewrite lookup_insert_eq in Hk. cbn in Hk.
    destruct (bucket_set_bucket_cases outNotIn excl o x
                (foldl (remember idf H1) ∅ r1)
                (default (mkCache ∅ ∅ ∅) (groupEdgesCache st !! this)))
      as [Heq|Heq]; rewrite Heq in Hk.
    + apply lookup_foldl_remember_Some in Hk as [Hk|[Hin Hid]].
      * by rewrite lookup_empty in Hk.
      * split; [|done]. by apply (proj1 (Forall_forall _ _) Hr1).
    + by apply (Hold this o x).
  - rewrite lookup_insert_ne in Hk by done. by apply (Hold grp o x).
Qed.

End cache.

Section aggregated_edges.
Import NodeGroup.

Lemma getGroupEdgesInDirection_stable_witness :
  let '(edges1, st1) :=
    getGroupEdgesInDirection Examples.sample_identifier
      Examples.store_with_cache "g" true false in
  let '(edges2, st2) :=
    getGroupEdgesInDirection Examples.sample_identifier st1 "g" true false in
  edges2 = edges1
  ∧ graph st2 = graph Examples.store_with_cache
  ∧ (∀ i k r,
       fresh_identifiers Examples.sample_identifier
         (graph Examples.store_with_cache) "g" true false !! i = Some k →
       cached Examples.store_with_cache "g" true false !! k = Some r →
       edges1 !! i = Some r)
  ∧ dom (cached st1 "g" true false)
    = list_to_set (identifier_at Examples.sample_identifier (groupEdges st1)
                   <$> edges1)
  ∧ dom (cached st2 "g" true false)
    = list_to_set (identifier_at Examples.sample_identifier (groupEdges st2)
                   <$> edges2).
Proof.
  apply (getGroupEdgesInDirection_stable Examples.sample_identifier
           Examples.store_with_cache "g" true false).
  - apply getGroupEdgesInDirection_consistent, consistent_without_cache.
  - apply (bool_decide_unpack _). vm_compute. exact I.
Defined.

(** C2, the failing input evaluated.  The group of [graph_before] is
    aggregated, then edge [e2] appears and the group is aggregated again.
    The second call returns the cached edge, whose classes are still those of
    the first call, [a] and [b], although the classes common to [e1] and [e2]
    are [b] alone; a store without a cache yields [b] for the same graph. *)
Theorem getGroupEdgesInDirection_stale_classes :
  let '(edges1, st1) :=
    getGroupEdgesInDirection Examples.sample_identifier
      (mkStore Examples.graph_before ∅ []) "g" true false in
  let '(edges2, st2) :=
    getGroupEdgesInDirection Examples.sample_identifier
      (mkStore Examples.graph_after (groupEdgesCache st1) (groupEdges st1))
      "g" true false in
  let '(edges, st) :=
    getGroupEdgesInDirection Examples.sample_identifier
      (mkStore Examples.graph_after ∅ []) "g" true false in
  edges1 = [0] ∧ edges2 = [0]
  ∧ GroupEdge.classes <$> groupEdges st2 !! 0 = Some ["a"; "b"]
  ∧ edges = [0]
  ∧ GroupEdge.classes <$> groupEdges st !! 0 = Some ["b"].
Proof.
  vm_compute.
  repeat split.
Qed.

End aggregated_edges.

(** ** NodeGroup: members, classes and visibility *)

Section members.
Import NodeGroup.

Lemma NoDup_of_array (a : list string) : NoDup (JsSet.of_array a).
Proof.
  unfold JsSet.of_array.
  assert (H : ∀ s, NoDup s → NoDup (foldl JsSet.add s a)).
  { induction a as [|c a IH]; intros s Hs; [done|]. cbn [foldl]. apply IH.
    unfold JsSet.add, JsSet.has. case_bool_decide as Hc; [done|].
    apply NoDup_app. split; [done|]. split; [|apply NoDup_singleton].
    by intros c' Hin ->%list_elem_of_singleton. }
  apply H. constructor.
Qed.

Lemma retain_included_all (a : list string) :
  JsSet.retain_included (JsSet.of_array a) a = JsSet.of_array a.
Proof.
  unfold JsSet.retain_included.
  assert (H : ∀ s : list string, (∀ c, c ∈ s → c ∈ a) → filter (λ cls, cls ∈ a) s = s).
  { induction s as [|c s IH]; intros Hs; [done|].
    rewrite filter_cons_True by (apply Hs, list_elem_of_here).
    f_equal. apply IH. intros c' Hc'. by apply Hs, list_elem_of_further. }
  apply H. intros c. by rewrite elem_of_of_array.
Qed.

Lemma foldl_retain_included (g : Graph) (ns : list string) (s : JsSet.t) :
  let r :=
    foldl (λ cls n, JsSet.retain_included cls (Node.classes (node_at g n))) s ns in
  (NoDup s → NoDup r)
  ∧ ∀ c, c ∈ r ↔ c ∈ s ∧ ∀ n, n ∈ ns → c ∈ Node.classes (node_at g n).
Proof.
  cbv zeta. revert s. induction ns as [|n ns IH]; intros s.
  - cbn. split; [done|]. intros c. split; [|by intros [? _]].
    intros Hc. split; [done|]. by intros n ?%elem_of_nil.
  - cbn [foldl]. destruct (IH (JsSet.retain_included s (Node.classes (node_at g n))))
      as [IHnd IHin].
    split.
    + intros Hs. apply IHnd. by apply NoDup_filter.
    + intros c. rewrite IHin, elem_of_retain_included. split.
      * intros [[Hs Hn] Hns]. split; [done|].
        by intros n' [->|Hin]%elem_of_cons; [|apply Hns].
      * intros [Hs Hall]. split; [split; [done|]|].
        -- apply Hall, list_elem_of_here.
        -- intros n' Hin. by apply Hall, list_elem_of_further.
Qed.

(** X1.  [classes] lists every class once, and a class is listed exactly
    when the group has a member and every member carries the class. *)
Theorem classes_common (g : Graph) (this : string) :
  NoDup (classes g this)
  ∧ ∀ c, c ∈ classes g this
         ↔ nodes (group_at g this) ≠ []
           ∧ ∀ n, n ∈ nodes (group_at g this) → c ∈ Node.classes (node_at g n).
Proof.
  unfold classes, JsSet.to_array.
  destruct (foldl_retain_included g (nodes (group_at g this))
              (JsSet.of_array match nodes (group_at g this) with
                              | [] => []
                              | n :: _ => Node.classes (node_at g n)
                              end)) as [Hnd Hin].
  split; [apply Hnd, NoDup_of_array|].
  intros c. rewrite Hin, elem_of_of_array.
  destruct (nodes (group_at g this)) as [|first rest].
  - split; [by intros [?%elem_of_nil _]|by intros [? _]].
  - split; [by intros [_ ?]|]. intros [_ Hall]. split; [|done].
    apply Hall, list_elem_of_here.
Qed.

Lemma foldl_pointwise {A B : Type} (f f' : A → B → A) (a : A) (l : list B) :
  (∀ a b, f a b = f' a b) → foldl f a l = foldl f' a l.
Proof.
  intros Hf. revert a. induction l as [|b l IH]; intros a; [done|].
  cbn. by rewrite Hf, IH.
Qed.

Lemma addNode_performed (g : Graph) (this node : string) (override : bool) :
  (addNode g this node override).1 = false →
  let g' := (addNode g this node override).2 in
  (∀ n, node_at g' n
        = if decide (n = node)
          then Node.set_belongsToGroup (Some this) (node_at g node)
          else node_at g n)
  ∧ (∀ grp, group_at g' grp
            = if decide (grp = this) then push_node node (group_at g this)
              else group_at g grp).
Proof.
  unfold addNode. cbn [fst snd]. intros Hok%negb_false_iff. rewrite Hok.
  split.
  - intros n. unfold node_at. cbn. destruct (decide (n = node)) as [->|Hne].
    + by rewrite lookup_total_insert_eq.
    + by rewrite lookup_total_insert_ne.
  - intros grp. unfold group_at. cbn. destruct (decide (grp = this)) as [->|Hne].
    + by rewrite lookup_total_insert_eq.
    + by rewrite lookup_total_insert_ne.
Qed.

Lemma addNode_rejected (g : Graph) (this node : string) (override : bool) :
  (addNode g this node override).1 = true →
  (addNode g this node override).2 = g
  ∧ override = false
  ∧ is_Some (Node.belongsToGroup (node_at g node)).
Proof.
  unfold addNode. cbn [fst snd]. intros Hno%negb_true_iff. rewrite Hno.
  apply orb_false_iff in Hno as [Hin ->]. split; [done|]. split; [done|].
  apply negb_false_iff in Hin. by apply bool_decide_eq_true in Hin.
Qed.

(** X2.  [addNode] without the override flag keeps the relation between
    groups and nodes bidirectional and lists no node twice.  A node that is
    added belongs to the group afterwards; a call that reports the failed
    assertion changes nothing; and a repeated call with the same node is
    always rejected, so it never adds the node a second time. *)
Theorem addNode_keeps_bidirectional (g : Graph) (this node : string) :
  bidirectional g →
  (∀ grp, NoDup (nodes (group_at g grp))) →
  let '(reported, g') := addNode g this node false in
  bidirectional g'
  ∧ (∀ grp, NoDup (nodes (group_at g' grp)))
  ∧ (reported = false → Node.belongsToGroup (node_at g' node) = Some this)
  ∧ (reported = true → g' = g)
  ∧ addNode g' this node false = (true, g').
Proof.
  intros Hbi Hnd. unfold bidirectional in *.
  pose proof (addNode_performed g this node false) as Hadd.
  pose proof (addNode_rejected g this node false) as Hrej.
  destruct (addNode g this node false) as [reported g'] eqn:Ecall.
  cbn [fst snd] in Hadd, Hrej. destruct reported.
  - destruct (Hrej eq_refl) as (-> & _ & Hsome).
    split; [done|]. split; [done|]. split; [done|]. split; [done|].
    exact Ecall.
  - destruct (Hadd eq_refl) as [Hnode Hgroup]. clear Hadd Hrej.
    assert (Hfree : Node.belongsToGroup (node_at g node) = None).
    { unfold addNode in Ecall. injection Ecall as Hok _.
      rewrite orb_false_r in Hok. apply negb_false_iff, negb_true_iff in Hok.
      apply bool_decide_eq_false in Hok.
      destruct (Node.belongsToGroup (node_at g node)); [|done].
      exfalso. apply Hok. by eexists. }
    assert (Hnew : Node.belongsToGroup (node_at g' node) = Some this).
    { rewrite Hnode. by rewrite decide_True. }
    split; [|split; [|split; [done|split; [done|]]]].
    + intros grp n. rewrite Hnode, Hgroup.
      destruct (decide (n = node)) as [->|Hn];
        destruct (decide (grp = this)) as [->|Hg]; cbn.
      * split; [done|]. intros _. apply elem_of_app. right.
        apply list_elem_of_here.
      * rewrite Hbi, Hfree. split; [done|]. intros [= <-]. done.
      * rewrite elem_of_app, list_elem_of_singleton, Hbi. split; [|by left].
        by intros [?|?].
      * apply Hbi.
    + intros grp. rewrite Hgroup. destruct (decide (grp = this)) as [->|Hg];
        [|apply Hnd]. cbn. apply NoDup_app. split; [apply Hnd|].
      split; [|apply NoDup_singleton].
      intros n Hin ->%list_elem_of_singleton.
      apply Hbi in Hin. congruence.
    + unfold addNode. rewrite Hnew. cbn. done.
Qed.

Lemma two_groups_bidirectional :
  bidirectional Examples.two_groups
  ∧ ∀ grp, NoDup (nodes (group_at Examples.two_groups grp)).
Proof.
  assert (Hgroup : ∀ grp, nodes (group_at Examples.two_groups grp)
                          = if decide (grp = "A") then ["n"] else []).
  { intros grp. unfold group_at, Examples.two_groups. cbn.
    destruct (decide (grp = "A")) as [->|HA]; [by rewrite lookup_total_insert_eq|].
    rewrite lookup_total_insert_ne by done.
    destruct (decide (grp = "B")) as [->|HB]; [by rewrite lookup_total_insert_eq|].
    rewrite lookup_total_insert_ne by done. by rewrite lookup_total_empty. }
  assert (Hnode : ∀ n, Node.belongsToGroup (node_at Examples.two_groups n)
                       = if decide (n = "n") then Some "A" else None).
  { intros n. unfold node_at, Examples.two_groups. cbn.
    destruct (decide (n = "n")) as [->|Hn]; [by rewrite lookup_total_insert_eq|].
    rewrite lookup_total_insert_ne by done. by rewrite lookup_total_empty. }
  split.
  - intros grp n. rewrite Hgroup, Hnode.
    destruct (decide (grp = "A")) as [->|HA]; destruct (decide (n = "n")) as [->|Hn].
    + split; [done|]. intros _. apply list_elem_of_here.
    + split; [by intros ?%list_elem_of_singleton|done].
    + split; [by intros ?%elem_of_nil|]. by intros [= <-].
    + split; [by intros ?%elem_of_nil|done].
  - intros grp. rewrite Hgroup. destruct (decide (grp = "A")).
    + apply NoDup_singleton.
    + constructor.
Qed.

Lemma addNode_keeps_bidirectional_witness :
  let '(reported, g') := addNode Examples.two_groups "B" "m" false in
  bidirectional g'
  ∧ (∀ grp, NoDup (nodes (group_at g' grp)))
  ∧ (reported = false → Node.belongsToGroup (node_at g' "m") = Some "B")
  ∧ (reported = true → g' = Examples.two_groups)
  ∧ addNode g' "B" "m" false = (true, g').
Proof.
  apply (addNode_keeps_bidirectional Examples.two_groups "B" "m").
  - apply two_groups_bidirectional.
  - apply two_groups_bidirectional.
Defined.

(** X3.  Whenever [addNode] adds the node (no failed assertion is
    reported), the node is appended to the member list; the classes of the
    group become the classes of the node (each once) if the group was empty
    and otherwise
    the previous classes cut down to those the node carries; and the group is
    visible afterwards exactly when it was visible before, or its [visible]
    flag is set and the node is visible. *)
Theorem addNode_classes_isVisible (g : Graph) (this node : string)
    (overrideExistingGroup : bool) :
  (addNode g this node overrideExistingGroup).1 = false →
  let g' := (addNode g this node overrideExistingGroup).2 in
  nodes (group_at g' this) = nodes (group_at g this) ++ [node]
  ∧ classes g' this
    = (if decide (nodes (group_at g this) = [])
       then JsSet.of_array (Node.classes (node_at g node))
       else JsSet.retain_included (classes g this)
              (Node.classes (node_at g node)))
  ∧ isVisible g' this
    = isVisible g this
      || (visible (group_at g this) && Node.isVisible (node_at g node)).
Proof.
  intros Hok. destruct (addNode_performed g this node overrideExistingGroup Hok)
    as [Hnode Hgroup].
  cbv zeta. set (g' := (addNode g this node overrideExistingGroup).2) in *.
  assert (Hnodes : nodes (group_at g' this) = nodes (group_at g this) ++ [node]).
  { rewrite Hgroup. by rewrite decide_True. }
  assert (Hvis : visible (group_at g' this) = visible (group_at g this)).
  { rewrite Hgroup. by rewrite decide_True. }
  assert (Hcls : ∀ n, Node.classes (node_at g' n) = Node.classes (node_at g n)).
  { intros n. rewrite Hnode. by destruct (decide (n = node)) as [->|]. }
  assert (Hiv : ∀ n, Node.isVisible (node_at g' n) = Node.isVisible (node_at g n)).
  { intros n. rewrite Hnode. by destruct (decide (n = node)) as [->|]. }
  split; [exact Hnodes|]. split.
  - unfold classes, JsSet.to_array. rewrite Hnodes.
    rewrite (foldl_pointwise _ (λ cls n, JsSet.retain_included cls
                                           (Node.classes (node_at g n))))
      by (intros cls n; by rewrite Hcls).
    rewrite foldl_app. cbn [foldl].
    destruct (nodes (group_at g this)) as [|first rest]; cbn [app foldl].
    + rewrite decide_True by done. rewrite Hcls. apply retain_included_all.
    + rewrite decide_False by done. by rewrite Hcls.
  - unfold isVisible. rewrite Hvis, Hnodes, existsb_app. cbn [existsb].
    rewrite Hiv, orb_false_r.
    assert (Hex : ∀ l, existsb (λ n, Node.isVisible (node_at g' n)) l
                       = existsb (λ n, Node.isVisible (node_at g n)) l).
    { induction l as [|n l IH]; [done|]. cbn [existsb]. by rewrite Hiv, IH. }
    rewrite Hex.
    by destruct (visible (group_at g this)).
Qed.

Lemma addNode_classes_isVisible_witness :
  let g' := (addNode Examples.two_groups "B" "n" true).2 in
  nodes (group_at g' "B") = nodes (group_at Examples.two_groups "B") ++ ["n"]
  ∧ classes g' "B"
    = (if decide (nodes (group_at Examples.two_groups "B") = [])
       then JsSet.of_array (Node.classes (node_at Examples.two_groups "n"))
       else JsSet.retain_included (classes Examples.two_groups "B")
              (Node.classes (node_at Examples.two_groups "n")))
  ∧ isVisible g' "B"
    = isVisible Examples.two_groups "B"
      || (visible (group_at Examples.two_groups "B")
          && Node.isVisible (node_at Examples.two_groups "n")).
Proof.
  apply (addNode_classes_isVisible Examples.two_groups "B" "n" true).
  reflexivity.
Defined.

End members.

(** ** NodeGroup: the edges one pass creates *)

Section js_map_values.
Context {V : Type}.
Implicit Types (m : JsMap.t V).

Lemma values_set_None m k v :
  JsMap.get m k = None → JsMap.values (JsMap.set m k v) = JsMap.values m ++ [v].
Proof.
  unfold JsMap.values. induction m as [|[k0 v0] m IH]; cbn; [done|].
  destruct (decide (k0 = k)); [done|]. intros H. cbn. f_equal. by apply IH.
Qed.

Lemma values_set_Some m k v0 v :
  JsMap.get m k = Some v0 →
  ∃ pre post, JsMap.values m = pre ++ v0 :: post
              ∧ JsMap.values (JsMap.set m k v) = pre ++ v :: post.
Proof.
  unfold JsMap.values. induction m as [|[k0 v1] m IH]; cbn; [done|].
  destruct (decide (k0 = k)) as [->|Hne].
  - intros [= ->]. by exists [], m.*2.
  - intros H. destruct (IH H) as (pre & post & H1 & H2).
    exists (v1 :: pre), post. cbn. by rewrite H1, H2.
Qed.

Lemma get_elem_of m k v : JsMap.get m k = Some v → (k, v) ∈ m.
Proof.
  induction m as [|[k0 v0] m IH]; cbn; [done|].
  destruct (decide (k0 = k)) as [->|Hne].
  - intros [= ->]. apply list_elem_of_here.
  - intros H. by apply list_elem_of_further, IH.
Qed.

End js_map_values.

Section created.
Import NodeGroup.
Variables (g : Graph) (this : string) (outNotIn exclusivelyTargetIsGroup : bool).

(** What the [continue] statements of the loop body let through. *)
Lemma passes_Some (e : Edge.t) (targetNode : NodeCommon) :
  passes g this outNotIn exclusivelyTargetIsGroup e = Some targetNode →
  Edge.isVisible e = true
  ∧ NodeCommon_isVisible g targetNode = true
  ∧ targetNode ≠ IsGroup this
  ∧ (if outNotIn then
       match Node.belongsToGroup (node_at g (Edge.target e)) with
       | Some grp =>
           targetNode = IsGroup grp
           ∧ Node.isVisible (node_at g (Edge.target e)) = true
       | None => targetNode = IsNode (Edge.target e)
       end
     else
       targetNode = IsNode (Edge.source e)
       ∧ (is_Some (Node.belongsToGroup (node_at g (Edge.source e)))
          ↔ exclusivelyTargetIsGroup = true)).
Proof.
  unfold passes, counterpart. destruct outNotIn.
  - destruct (Node.belongsToGroup (node_at g (Edge.target e))) as [grp|].
    + destruct (Node.isVisible (node_at g (Edge.target e))); [|done].
      cbn [negb orb]. case_bool_decide as Hself; [done|].
      destruct (Edge.isVisible e); [|done]. cbn [negb orb].
      destruct (NodeCommon_isVisible g (IsGroup grp)) eqn:Evis; [|done].
      cbn [negb]. intros [= <-]. repeat split; try done. congruence.
    + destruct (Edge.isVisible e); [|done]. cbn [negb orb].
      destruct (NodeCommon_isVisible g (IsNode (Edge.target e))) eqn:Evis; [|done].
      cbn [negb]. intros [= <-]. repeat split; done.
  - case_bool_decide as Hgrouped; destruct exclusivelyTargetIsGroup;
      cbn [negb andb orb]; try done.
    + destruct (Edge.isVisible e); [|done]. cbn [negb orb].
      destruct (NodeCommon_isVisible g (IsNode (Edge.source e))) eqn:Evis; [|done].
      cbn [negb]. intros [= <-]. repeat split; done.
    + destruct (Edge.isVisible e); [|done]. cbn [negb orb].
      destruct (NodeCommon_isVisible g (IsNode (Edge.source e))) eqn:Evis; [|done].
      cbn [negb]. intros [= <-]. repeat split; done.
Qed.

Lemma visit_type_refs (targetNode : NodeCommon) (e : Edge.t)
    (h : list GroupEdge.t) (tm : JsMap.t Entry) :
  let '(h', tm') := visit_type this outNotIn targetNode e h tm in
  (h' = h ∧ groupEdge <$> JsMap.values tm' = groupEdge <$> JsMap.values tm)
  ∨ (h' = h ++ [if outNotIn
                 then GroupEdge.mk (IsGroup this) targetNode (Edge.type e) []
                 else GroupEdge.mk targetNode (IsGroup this) (Edge.type e) []]
     ∧ groupEdge <$> JsMap.values tm'
       = (groupEdge <$> JsMap.values tm) ++ [length h]).
Proof.
  unfold visit_type, JsMap.has.
  destruct (JsMap.get tm (iri (Edge.type e))) as [en|] eqn:Eget.
  - rewrite Eget. left. split; [done|].
    destruct (values_set_Some tm (iri (Edge.type e)) en
                (mkEntry (groupEdge en)
                   (JsSet.retain_included (entry_classes en) (Edge.classes e)))
                Eget) as (pre & post & -> & ->).
    by rewrite !fmap_app.
  - rewrite get_set_eq. right. split; [done|].
    set (en1 := mkEntry (length h) (JsSet.of_array (Edge.classes e))).
    destruct (values_set_Some (JsMap.set tm (iri (Edge.type e)) en1)
                (iri (Edge.type e)) en1
                (mkEntry (groupEdge en1)
                   (JsSet.retain_included (entry_classes en1) (Edge.classes e)))
                (get_set_eq _ _ _)) as (pre & post & H1 & ->).
    rewrite values_set_None in H1 by done.
    transitivity (groupEdge <$> pre ++ en1 :: post); [by rewrite !fmap_app|].
    by rewrite <- H1, fmap_app.
Qed.

Lemma enter_edge_refs (targetNode : NodeCommon) (e : Edge.t)
    (h : list GroupEdge.t) (m : JsMap.t (JsMap.t Entry)) :
  let '(h', m') := enter_edge this outNotIn targetNode e (h, m) in
  (h' = h ∧ references m' = references m)
  ∨ (h' = h ++ [if outNotIn
                 then GroupEdge.mk (IsGroup this) targetNode (Edge.type e) []
                 else GroupEdge.mk targetNode (IsGroup this) (Edge.type e) []]
     ∧ references m' ≡ₚ references m ++ [length h]).
Proof.
  unfold enter_edge. cbn [fst snd].
  set (key := NodeCommon_identifier targetNode).
  set (m1 := if JsMap.has m key then m else JsMap.set m key []).
  assert (Hget1 : JsMap.get m1 key = Some (default [] (JsMap.get m key))).
  { unfold m1, JsMap.has. destruct (JsMap.get m key) eqn:E; [by rewrite E|].
    by rewrite get_set_eq. }
  assert (Hrefs1 : references m1 = references m).
  { unfold m1, JsMap.has. destruct (JsMap.get m key) eqn:E; [done|].
    unfold references, entries. rewrite values_set_None by done.
    rewrite concat_app. cbn. by rewrite !app_nil_r. }
  rewrite Hget1.
  change (default [] (Some (default [] (JsMap.get m key))))
    with (default [] (JsMap.get m key)).
  set (tm0 := default [] (JsMap.get m key)) in *.
  pose proof (visit_type_refs targetNode e h tm0) as Hvisit.
  destruct (visit_type this outNotIn targetNode e h tm0) as [h' tm'].
  destruct (values_set_Some m1 key tm0 tm' Hget1) as (pre & post & H1 & H2).
  assert (Hflat : ∀ tm : JsMap.t Entry,
            groupEdge <$> JsMap.values (concat (pre ++ tm :: post))
            = (groupEdge <$> JsMap.values (concat pre))
              ++ (groupEdge <$> JsMap.values tm)
              ++ (groupEdge <$> JsMap.values (concat post))).
  { intros tm. rewrite concat_app. cbn [concat]. unfold JsMap.values.
    by rewrite !fmap_app. }
  rewrite <- Hrefs1. unfold references, entries. rewrite H1, H2, !Hflat.
  destruct Hvisit as [[-> Hsame]|[-> Hmore]].
  - left. split; [done|]. by rewrite Hsame.
  - right. split; [done|]. rewrite Hmore, <- !app_assoc.
    do 2 f_equiv. apply Permutation_app_comm.
Qed.

(** The loops over an initial heap [h]: the heap grows by the edges that are
    created, every entry refers to one created edge and every created edge is
    referred to by one entry, and a created edge has the group at its own end
    and the counterpart and type of an edge that was entered. *)
Lemma foldl_visit_edge_refs (es : list Edge.t) (h : list GroupEdge.t)
    (m : JsMap.t (JsMap.t Entry)) :
  let '(h', m') :=
    foldl (visit_edge g this outNotIn exclusivelyTargetIsGroup) (h, m) es in
  ∃ hnew,
    h' = h ++ hnew
    ∧ references m' ≡ₚ references m ++ seq (length h) (length hnew)
    ∧ Forall (λ ge, own_end outNotIn ge = IsGroup this
                    ∧ ∃ e, e ∈ es
                           ∧ passes g this outNotIn exclusivelyTargetIsGroup e
                             = Some (other_end outNotIn ge)
                           ∧ GroupEdge.type ge = Edge.type e) hnew.
Proof.
  revert h m. induction es as [|e es IH]; intros h m.
  - cbn. exists []. rewrite !app_nil_r. split; [done|]. split; [done|].
    constructor.
  - cbn [foldl].
    assert (Hweaken : ∀ hnew,
      Forall (λ ge, own_end outNotIn ge = IsGroup this
                    ∧ ∃ e', e' ∈ es
                           ∧ passes g this outNotIn exclusivelyTargetIsGroup e'
                             = Some (other_end outNotIn ge)
                           ∧ GroupEdge.type ge = Edge.type e') hnew →
      Forall (λ ge, own_end outNotIn ge = IsGroup this
                    ∧ ∃ e', e' ∈ e :: es
                           ∧ passes g this outNotIn exclusivelyTargetIsGroup e'
                             = Some (other_end outNotIn ge)
                           ∧ GroupEdge.type ge = Edge.type e') hnew).
    { intros hnew H. apply (Forall_impl _ _ _ H).
      intros ge (Hown & e' & Hin & Hrest). split; [done|].
      exists e'. split; [by apply list_elem_of_further|done]. }
    rewrite visit_edge_passes.
    destruct (passes g this outNotIn exclusivelyTargetIsGroup e) as [tn|]
      eqn:Epass.
    + pose proof (enter_edge_refs tn e h m) as Henter.
      destruct (enter_edge this outNotIn tn e (h, m)) as [h1 m1].
      specialize (IH h1 m1).
      destruct (foldl (visit_edge g this outNotIn exclusivelyTargetIsGroup)
                  (h1, m1) es) as [h' m'].
      destruct IH as (hnew & -> & Hperm & Hall).
      destruct Henter as [[-> Hsame]|[-> Hmore]].
      * exists hnew. rewrite <- Hsame. split; [done|]. split; [done|].
        by apply Hweaken.
      * eexists (_ :: hnew). split; [by rewrite <- app_assoc|]. split.
        -- rewrite Hperm, Hmore, length_app, <- app_assoc. cbn.
           by rewrite Nat.add_1_r.
        -- apply Forall_cons. split; [|by apply Hweaken].
           split; [by destruct outNotIn|].
           exists e. split; [apply list_elem_of_here|].
           split; [|by destruct outNotIn]. rewrite Epass. by destruct outNotIn.
    + specialize (IH h m).
      destruct (foldl (visit_edge g this outNotIn exclusivelyTargetIsGroup)
                  (h, m) es) as [h' m'].
      destruct IH as (hnew & -> & Hperm & Hall).
      exists hnew. split; [done|]. split; [done|]. by apply Hweaken.
Qed.

Lemma foldl_collect_entry_same_ends (ens : list Entry) (h : list GroupEdge.t)
    (acc : list nat) :
  Forall2 same_ends h (foldl collect_entry (h, acc) ens).1.
Proof.
  induction ens as [|en ens IH] using rev_ind.
  - cbn. apply Forall_Forall2_diag. apply Forall_forall. by intros ge _.
  - rewrite foldl_app. cbn [foldl]. unfold collect_entry at 1. cbn [fst].
    apply Forall2_alter_r; [done|].
    intros ge ge' _ _ (H1 & H2 & H3). by repeat split.
Qed.

(** The outcome of the loops over an empty heap, before and after the
    classes are written into the edges. *)
Lemma fresh_entries :
  ∃ h m,
    aggregate g this outNotIn exclusivelyTargetIsGroup [] = (h, m)
    ∧ aggregated g this outNotIn exclusivelyTargetIsGroup h m (visited g this)
    ∧ Forall2 same_ends h (fresh g this outNotIn exclusivelyTargetIsGroup).1
    ∧ (fresh g this outNotIn exclusivelyTargetIsGroup).2 = references m
    ∧ references m ≡ₚ seq 0 (length h)
    ∧ Forall (stands_for g this outNotIn exclusivelyTargetIsGroup) h.
Proof.
  unfold fresh.
  pose proof (aggregate_aggregated g this outNotIn exclusivelyTargetIsGroup)
    as Hagg.
  pose proof (foldl_visit_edge_refs (visited g this) [] []) as Hrefs.
  rewrite <- aggregate_visited in Hrefs.
  destruct (aggregate g this outNotIn exclusivelyTargetIsGroup []) as [h m].
  exists h, m. split; [done|]. split; [done|].
  unfold collect. split; [apply foldl_collect_entry_same_ends|].
  destruct (foldl_collect_entry_length (entries m) h []) as [_ ->].
  split; [done|].
  destruct Hrefs as (hnew & -> & Hperm & Hall). cbn in Hperm. cbn [app].
  split; [done|]. exact Hall.
Qed.

Lemma same_ends_stands_for (a b : GroupEdge.t) :
  same_ends a b →
  stands_for g this outNotIn exclusivelyTargetIsGroup a →
  stands_for g this outNotIn exclusivelyTargetIsGroup b.
Proof.
  intros (Hs & Ht & Hty) (Hown & e & Hin & Hpass & Htype).
  unfold stands_for, own_end, other_end in *. rewrite <- Hs, <- Ht, <- Hty.
  split; [done|]. by exists e.
Qed.

(** One pass over an empty heap lists every edge it creates once. *)
Lemma fresh_permutation :
  (fresh g this outNotIn exclusivelyTargetIsGroup).2
  ≡ₚ seq 0 (length (fresh g this outNotIn exclusivelyTargetIsGroup).1).
Proof.
  destruct fresh_entries as (h & m & _ & _ & Hsame & -> & Hperm & _).
  by rewrite <- (Forall2_length _ _ _ Hsame).
Qed.

Lemma fresh_stands_for :
  Forall (stands_for g this outNotIn exclusivelyTargetIsGroup)
    (fresh g this outNotIn exclusivelyTargetIsGroup).1.
Proof.
  destruct fresh_entries as (h & m & _ & _ & Hsame & _ & _ & Hall).
  apply (Forall2_Forall_r _ _ _ _ Hsame).
  apply (Forall_impl _ _ _ Hall). intros a Ha b Hab.
  by apply (same_ends_stands_for a b).
Qed.

Lemma aggregated_entry (h : list GroupEdge.t) (m : JsMap.t (JsMap.t Entry))
    (L : list Edge.t) (en : Entry) :
  aggregated g this outNotIn exclusivelyTargetIsGroup h m L →
  en ∈ entries m →
  ∃ key ty tm,
    summarizes g this outNotIn exclusivelyTargetIsGroup h L key ty en
    ∧ JsMap.get m key = Some tm ∧ JsMap.get tm ty = Some en.
Proof.
  intros (Hnd & Hndt & Hsum & _) (key & tm & ty & Hk & Ht)%elem_of_entries.
  apply elem_of_get in Hk; [|done].
  apply elem_of_get in Ht; [|by apply (Hndt key)].
  exists key, ty, tm. split; [by apply (Hsum key tm)|done].
Qed.

Lemma elem_of_entries_2 (m : JsMap.t (JsMap.t Entry)) (key ty : string)
    (tm : JsMap.t Entry) (en : Entry) :
  (key, tm) ∈ m → (ty, en) ∈ tm → en ∈ entries m.
Proof.
  unfold entries, JsMap.values. intros Hk Ht.
  induction m as [|[key' tm'] m IH]; [by apply elem_of_nil in Hk|].
  cbn. rewrite fmap_app, elem_of_app.
  apply elem_of_cons in Hk as [[= <- <-]|Hk].
  - left. apply list_elem_of_fmap. by exists (ty, en).
  - right. by apply IH.
Qed.

(** One pass creates one edge for a counterpart and a type. *)
Lemma fresh_unique (r r' : nat) (ge ge' : GroupEdge.t) :
  (fresh g this outNotIn exclusivelyTargetIsGroup).1 !! r = Some ge →
  (fresh g this outNotIn exclusivelyTargetIsGroup).1 !! r' = Some ge' →
  NodeCommon_identifier (other_end outNotIn ge)
  = NodeCommon_identifier (other_end outNotIn ge') →
  iri (GroupEdge.type ge) = iri (GroupEdge.type ge') →
  r = r'.
Proof.
  destruct fresh_entries as (h & m & _ & Hagg & Hsame & _ & Hperm & _).
  intros Hr Hr' Hkey Hty.
  assert (Hslot : ∀ r ge,
            (fresh g this outNotIn exclusivelyTargetIsGroup).1 !! r = Some ge →
            ∃ en tm, groupEdge en = r
              ∧ JsMap.get m (NodeCommon_identifier (other_end outNotIn ge))
                = Some tm
              ∧ JsMap.get tm (iri (GroupEdge.type ge)) = Some en).
  { clear r r' ge ge' Hr Hr' Hkey Hty. intros r ge Hr.
    destruct (Forall2_lookup_r _ _ _ _ _ Hsame Hr) as (ge0 & Hge0 & Hends).
    assert (Hin : r ∈ references m).
    { rewrite Hperm. apply elem_of_seq. apply lookup_lt_Some in Hge0. lia. }
    apply list_elem_of_fmap in Hin as (en & -> & Hen).
    destruct (aggregated_entry h m _ en Hagg Hen)
      as (key & ty & tm & (ge1 & Hge1 & Hk & Ht & _) & Hgetm & Hgett).
    rewrite Hge0 in Hge1. injection Hge1 as <-.
    destruct Hends as (Hs & Ht' & Hty').
    exists en, tm. split; [done|].
    replace (other_end outNotIn ge) with (other_end outNotIn ge0)
      by (unfold other_end; by destruct outNotIn).
    rewrite <- Hty', Hk, Ht. done. }
  destruct (Hslot r ge Hr) as (en & tm & <- & Hm & Ht).
  destruct (Hslot r' ge' Hr') as (en' & tm' & <- & Hm' & Ht').
  rewrite Hkey, Hm' in Hm. injection Hm as <-.
  rewrite Hty, Ht' in Ht. by injection Ht as <-.
Qed.

(** One pass creates an edge for every edge it enters. *)
Lemma fresh_complete (e : Edge.t) (targetNode : NodeCommon) :
  e ∈ visited g this →
  passes g this outNotIn exclusivelyTargetIsGroup e = Some targetNode →
  ∃ r ge,
    r ∈ (fresh g this outNotIn exclusivelyTargetIsGroup).2
    ∧ (fresh g this outNotIn exclusivelyTargetIsGroup).1 !! r = Some ge
    ∧ own_end outNotIn ge = IsGroup this
    ∧ NodeCommon_identifier (other_end outNotIn ge)
      = NodeCommon_identifier targetNode
    ∧ iri (GroupEdge.type ge) = iri (Edge.type e).
Proof.
  intros Hin Hpass.
  pose proof fresh_stands_for as Hstands.
  destruct fresh_entries as (h & m & _ & Hagg & Hsame & Hes & _ & _).
  destruct Hagg as (Hnd & Hndt & Hsum & Hall).
  destruct (Hall (NodeCommon_identifier targetNode) (iri (Edge.type e)) e Hin)
    as (tm & en & Hm & Ht).
  { split; [by rewrite Hpass|done]. }
  destruct (Hsum _ _ _ _ Hm Ht) as (ge0 & Hge0 & Hk & Hty & _).
  destruct (Forall2_lookup_l _ _ _ _ _ Hsame Hge0) as (ge & Hge & Hends).
  exists (groupEdge en), ge. split.
  { rewrite Hes. apply list_elem_of_fmap. exists en. split; [done|].
    apply (elem_of_entries_2 m (NodeCommon_identifier targetNode)
             (iri (Edge.type e)) tm); by apply get_elem_of. }
  split; [done|]. split.
  { by destruct (proj1 (Forall_lookup _ _) Hstands _ _ Hge). }
  destruct Hends as (Hs & Ht' & Hty').
  replace (other_end outNotIn ge) with (other_end outNotIn ge0)
    by (unfold other_end; by destruct outNotIn).
  by rewrite <- Hty'.
Qed.

End created.

(** ** NodeGroup: what a call returns, creates and caches *)

Section group_edges.
Import NodeGroup.
Variable idf : string → string → string → string.

Lemma identifier_of_ends (this : string) (o : bool) (ge : GroupEdge.t)
    (targetNode : NodeCommon) (ty : EdgeType) :
  own_end o ge = IsGroup this →
  NodeCommon_identifier (other_end o ge) = NodeCommon_identifier targetNode →
  iri (GroupEdge.type ge) = iri ty →
  GroupEdge.identifier idf ge = identifier_for idf this o targetNode ty.
Proof.
  unfold own_end, other_end, identifier_for, GroupEdge.identifier.
  destruct o; cbn; by intros -> -> ->.
Qed.

Lemma identifier_at_lookup (h : list GroupEdge.t) (r : nat) (ge : GroupEdge.t) :
  h !! r = Some ge → identifier_at idf h r = GroupEdge.identifier idf ge.
Proof.
  intros Hr. unfold identifier_at. by rewrite (list_lookup_total_correct _ _ _ Hr).
Qed.

Lemma resolve_empty (heap : list GroupEdge.t) (e : nat) :
  resolve idf heap ∅ e = e.
Proof. unfold resolve. by rewrite lookup_empty. Qed.

(** The identifiers of the returned edges are those of the edges of one
    pass, in order. *)
Lemma getGroupEdgesInDirection_fresh_identifiers (st : Store) (this : string)
    (o x : bool) :
  cache_consistent idf st this o x →
  let '(edges, st') := getGroupEdgesInDirection idf st this o x in
  identifier_at idf (groupEdges st') <$> edges
  = fresh_identifiers idf (graph st) this o x.
Proof.
  intros Hcons. rewrite getGroupEdgesInDirection_unfold.
  unfold fresh_identifiers.
  destruct (fresh (graph st) this o x) as [h2 es]. cbv zeta. cbn [groupEdges].
  rewrite <- !list_fmap_compose. apply list_fmap_ext.
  intros i e _. cbn. rewrite resolve_identifier.
  - apply identifier_at_app_r.
  - intros k r Hk. destruct (Hcons k r Hk) as [Hlt Hid].
    by rewrite identifier_at_app_l.
Qed.

Lemma getGroupEdgesInDirection_allocated (st : Store) (this : string)
    (o x : bool) :
  cache_consistent idf st this o x →
  let '(edges, st') := getGroupEdgesInDirection idf st this o x in
  Forall (λ r, r < length (groupEdges st')) edges.
Proof.
  intros Hcons. rewrite getGroupEdgesInDirection_unfold.
  pose proof (fresh_allocated (graph st) this o x) as Halloc.
  destruct (fresh (graph st) this o x) as [h2 es]. cbv zeta.
  cbn [fst snd groupEdges] in *.
  rewrite <- list_fmap_compose. apply Forall_fmap.
  apply (Forall_impl _ _ _ Halloc). intros e He. cbn.
  apply resolve_allocated; [|done].
  intros k r Hk. by apply (Hcons k r).
Qed.

(** After a call the bucket holds every returned edge under its
    identifier. *)
Lemma getGroupEdgesInDirection_remembers (st : Store) (this : string)
    (o x : bool) :
  cache_consistent idf st this o x →
  NoDup (fresh_identifiers idf (graph st) this o x) →
  let '(edges, st') := getGroupEdgesInDirection idf st this o x in
  ∀ r, r ∈ edges →
       cached st' this o x !! identifier_at idf (groupEdges st') r = Some r.
Proof.
  intros Hcons Hnd.
  pose proof (getGroupEdgesInDirection_fresh_identifiers st this o x Hcons)
    as Hids.
  rewrite getGroupEdgesInDirection_unfold in *.
  destruct (fresh (graph st) this o x) as [h2 es]. cbv beta iota zeta in *.
  rewrite cached_after. cbn [groupEdges] in *.
  intros r Hr. apply lookup_foldl_remember; [|done]. by rewrite Hids.
Qed.

(** A call returns the edges its bucket holds under the identifiers of one
    pass. *)
Lemma getGroupEdgesInDirection_cached (st : Store) (this : string)
    (o x : bool) (prev : list nat) :
  identifier_at idf (groupEdges st) <$> prev
  = fresh_identifiers idf (graph st) this o x →
  (∀ r, r ∈ prev →
        cached st this o x !! identifier_at idf (groupEdges st) r = Some r) →
  (getGroupEdgesInDirection idf st this o x).1 = prev.
Proof.
  intros Hids Hc. rewrite getGroupEdgesInDirection_unfold.
  unfold fresh_identifiers in Hids.
  destruct (fresh (graph st) this o x) as [h2 es]. cbv zeta. cbn [fst].
  apply list_eq. intros i. rewrite !list_lookup_fmap.
  assert (Hi : identifier_at idf (groupEdges st) <$> prev !! i
               = identifier_at idf h2 <$> es !! i).
  { by rewrite <- !list_lookup_fmap, Hids. }
  destruct (es !! i) as [e0|], (prev !! i) as [r|] eqn:Er; cbn in *;
    try done.
  injection Hi as Hi. f_equal. unfold resolve.
  rewrite identifier_at_app_r, <- Hi, Hc; [done|].
  by apply list_elem_of_lookup_2 in Er.
Qed.

(** What a call leaves as it was. *)
Lemma getGroupEdgesInDirection_other_bucket (st : Store) (this : string)
    (o x : bool) :
  let st' := (getGroupEdgesInDirection idf st this o x).2 in
  graph st' = graph st
  ∧ (∀ grp, grp ≠ this → groupEdgesCache st' !! grp = groupEdgesCache st !! grp)
  ∧ (∀ o' x', same_bucket o x o' x' = false →
       cached st' this o' x' = cached st this o' x')
  ∧ (∃ created, groupEdges st' = groupEdges st ++ created)
  ∧ (∀ r, r < length (groupEdges st) →
       identifier_at idf (groupEdges st') r = identifier_at idf (groupEdges st) r).
Proof.
  rewrite getGroupEdgesInDirection_unfold.
  destruct (fresh (graph st) this o x) as [h2 es]. cbv zeta. cbn [fst snd].
  split; [done|]. split; [|split; [|split]].
  - intros grp Hne. cbn. by rewrite lookup_insert_ne.
  - intros o' x' Hb. unfold cached. cbn. rewrite lookup_insert_eq. cbn.
    unfold same_bucket in Hb. by destruct o, x, o', x'.
  - by exists h2.
  - intros r Hr. cbn. by apply identifier_at_app_l.
Qed.

(** With an injective [GroupEdge.identifier] the edges of one pass have
    pairwise different identifiers. *)
Lemma fresh_identifiers_NoDup (g : Graph) (this : string) (o x : bool) :
  (∀ s t ty s' t' ty', idf s t ty = idf s' t' ty' → s = s' ∧ t = t' ∧ ty = ty') →
  NoDup (fresh_identifiers idf g this o x).
Proof.
  intros Hinj. unfold fresh_identifiers.
  pose proof (fresh_permutation g this o x) as Hperm.
  pose proof (fresh_unique g this o x) as Hunique.
  pose proof (fresh_stands_for g this o x) as Hstands.
  destruct (fresh g this o x) as [h2 es]. cbn [fst snd] in *.
  apply NoDup_fmap_2_strong; [|rewrite Hperm; apply NoDup_seq].
  intros r r' Hr Hr' Hid.
  rewrite Hperm in Hr, Hr'. apply elem_of_seq in Hr, Hr'.
  destruct (lookup_lt_is_Some_2 h2 r) as [ge Hge]; [lia|].
  destruct (lookup_lt_is_Some_2 h2 r') as [ge' Hge']; [lia|].
  rewrite (identifier_at_lookup _ _ _ Hge), (identifier_at_lookup _ _ _ Hge')
    in Hid.
  apply Hinj in Hid as (Hs & Ht & Hty).
  apply (Hunique r r' ge ge'); [done|done| |done].
  unfold other_end. by destruct o.
Qed.

(** X4.  A call leaves the graph, the cache of every other group and the
    other two buckets of the group as they were; the [GroupEdge] objects
    allocated before the call stay as they are, and the call allocates as
    many new ones as it returns edges, whether or not cached instances take
    their place in the result. *)
Theorem getGroupEdgesInDirection_frame (st : Store) (this : string)
    (outNotIn exclusivelyTargetIsGroup : bool) :
  let '(edges, st') :=
    getGroupEdgesInDirection idf st this outNotIn exclusivelyTargetIsGroup in
  graph st' = graph st
  ∧ (∃ created, groupEdges st' = groupEdges st ++ created
                ∧ length created = length edges)
  ∧ (∀ grp, grp ≠ this → groupEdgesCache st' !! grp = groupEdgesCache st !! grp)
  ∧ (∀ o' x', same_bucket outNotIn exclusivelyTargetIsGroup o' x' = false →
       cached st' this o' x' = cached st this o' x').
Proof.
  pose proof (getGroupEdgesInDirection_other_bucket st this outNotIn
                exclusivelyTargetIsGroup) as (Hg & Hgrp & Hb & _ & _).
  revert Hg Hgrp Hb. rewrite getGroupEdgesInDirection_unfold.
  pose proof (fresh_permutation (graph st) this outNotIn
                exclusivelyTargetIsGroup) as Hperm.
  destruct (fresh (graph st) this outNotIn exclusivelyTargetIsGroup)
    as [h2 es].
  cbv zeta. cbn [fst snd] in *. intros Hg Hgrp Hb.
  split; [done|]. split; [|by split].
  exists h2. split; [done|].
  by rewrite !length_fmap, Hperm, length_seq.
Qed.

(** X5.  Every [GroupEdge] a call allocates has the group at its own end
    (the source of an outgoing edge, the target of an incoming one); its other
    end and its type are those of a visible edge of a visible member that the
    loop entered.  So the other end is visible and is never the group itself:
    no edge from the group to itself is made.  The other end of an outgoing
    edge is an ungrouped node or another group; the other end of an incoming
    edge is a node, grouped exactly when [exclusivelyTargetIsGroup] is set. *)
Theorem getGroupEdgesInDirection_created (st : Store) (this : string)
    (outNotIn exclusivelyTargetIsGroup : bool) :
  let '(edges, st') :=
    getGroupEdgesInDirection idf st this outNotIn exclusivelyTargetIsGroup in
  ∀ r ge,
    length (groupEdges st) ≤ r → groupEdges st' !! r = Some ge →
    stands_for (graph st) this outNotIn exclusivelyTargetIsGroup ge
    ∧ GroupEdge.source ge ≠ GroupEdge.target ge
    ∧ NodeCommon_isVisible (graph st) (other_end outNotIn ge) = true
    ∧ (if outNotIn then
         match GroupEdge.target ge with
         | IsNode n => Node.belongsToGroup (node_at (graph st) n) = None
         | IsGroup grp => grp ≠ this
         end
       else
         ∃ n, GroupEdge.source ge = IsNode n
              ∧ (is_Some (Node.belongsToGroup (node_at (graph st) n))
                 ↔ exclusivelyTargetIsGroup = true)).
Proof.
  rewrite getGroupEdgesInDirection_unfold.
  pose proof (fresh_stands_for (graph st) this outNotIn
                exclusivelyTargetIsGroup) as Hstands.
  destruct (fresh (graph st) this outNotIn exclusivelyTargetIsGroup)
    as [h2 es].
  cbv zeta. cbn [fst snd groupEdges] in *. intros r ge Hr Hge.
  rewrite lookup_app_r in Hge by done.
  pose proof (proj1 (Forall_lookup _ _) Hstands _ _ Hge) as Hst.
  split; [exact Hst|].
  destruct Hst as (Hown & e & _ & Hpass & _).
  apply passes_Some in Hpass as (_ & Hvis & Hself & Hshape).
  unfold own_end, other_end in *. destruct outNotIn.
  - split; [congruence|]. split; [done|].
    destruct (Node.belongsToGroup (node_at (graph st) (Edge.target e)))
      as [grp|] eqn:Egrp.
    + destruct Hshape as [Htarget _]. rewrite Htarget in *.
      intros ->. by apply Hself.
    + by rewrite Hshape.
  - split; [congruence|]. split; [done|].
    destruct Hshape as [-> Hgrouped]. by eexists.
Qed.

(** X6.  With a consistent bucket, the identifiers of the returned edges
    are exactly the identifiers that [new GroupEdge(...)] gives to the
    connections of the group: every visible edge of a visible member that the
    loop enters is represented by a returned edge with the identifier of its
    counterpart and type, and every returned edge is an allocated object with
    the identifier of such a connection. *)
Theorem getGroupEdgesInDirection_identifiers (st : Store) (this : string)
    (outNotIn exclusivelyTargetIsGroup : bool) :
  cache_consistent idf st this outNotIn exclusivelyTargetIsGroup →
  let '(edges, st') :=
    getGroupEdgesInDirection idf st this outNotIn exclusivelyTargetIsGroup in
  (∀ e targetNode,
     e ∈ visited (graph st) this →
     passes (graph st) this outNotIn exclusivelyTargetIsGroup e = Some targetNode →
     ∃ r, r ∈ edges
          ∧ identifier_at idf (groupEdges st') r
            = identifier_for idf this outNotIn targetNode (Edge.type e))
  ∧ (∀ r, r ∈ edges →
       r < length (groupEdges st')
       ∧ ∃ e targetNode,
           e ∈ visited (graph st) this
           ∧ passes (graph st) this outNotIn exclusivelyTargetIsGroup e
             = Some targetNode
           ∧ identifier_at idf (groupEdges st') r
             = identifier_for idf this outNotIn targetNode (Edge.type e)).
Proof.
  intros Hcons.
  pose proof (getGroupEdgesInDirection_allocated st this outNotIn
                exclusivelyTargetIsGroup Hcons) as Halloc.
  revert Halloc. rewrite getGroupEdgesInDirection_unfold.
  pose proof (fresh_complete (graph st) this outNotIn
                exclusivelyTargetIsGroup) as Hcomplete.
  pose proof (fresh_stands_for (graph st) this outNotIn
                exclusivelyTargetIsGroup) as Hstands.
  pose proof (fresh_allocated (graph st) this outNotIn
                exclusivelyTargetIsGroup) as Hlt.
  destruct (fresh (graph st) this outNotIn exclusivelyTargetIsGroup)
    as [h2 es].
  cbv zeta. cbn [fst snd groupEdges] in *. intros Halloc.
  set (H1 := groupEdges st ++ h2) in *.
  set (c0 := cached st this outNotIn exclusivelyTargetIsGroup) in *.
  assert (Hc0 : ∀ k r, c0 !! k = Some r → identifier_at idf H1 r = k).
  { intros k r Hk. destruct (Hcons k r Hk) as [Hr Hid].
    unfold H1. by rewrite identifier_at_app_l. }
  assert (Hid : ∀ r0 ge, h2 !! r0 = Some ge →
            identifier_at idf H1
              (resolve idf H1 c0 (length (groupEdges st) + r0))
            = GroupEdge.identifier idf ge).
  { intros r0 ge Hge. rewrite resolve_identifier by done.
    unfold H1. rewrite identifier_at_app_r. by apply identifier_at_lookup. }
  split.
  - intros e tn Hin Hpass.
    destruct (Hcomplete e tn Hin Hpass) as (r0 & ge & Hr0 & Hge & Hown & Hk & Hty).
    exists (resolve idf H1 c0 (length (groupEdges st) + r0)). split.
    + rewrite <- list_fmap_compose. apply list_elem_of_fmap. by exists r0.
    + rewrite (Hid r0 ge Hge). by apply identifier_of_ends.
  - intros r Hr. split; [by apply (proj1 (Forall_forall _ _) Halloc)|].
    rewrite <- list_fmap_compose in Hr.
    apply list_elem_of_fmap in Hr as (r0 & -> & Hr0). cbn.
    pose proof (proj1 (Forall_forall _ _) Hlt r0 Hr0) as Hr0lt.
    destruct (lookup_lt_is_Some_2 h2 r0 Hr0lt) as [ge Hge].
    destruct (proj1 (Forall_lookup _ _) Hstands _ _ Hge)
      as (Hown & e & Hin & Hpass & Hty).
    exists e, (other_end outNotIn ge). split; [done|]. split; [done|].
    rewrite (Hid r0 ge Hge). apply identifier_of_ends; [done|done|].
    by rewrite Hty.
Qed.

(** X7.  Among the [GroupEdge] objects one call allocates there is one per
    counterpart and type: two of them with the same identifier of the other
    end and the same type iri are the same object.  A call on an empty bucket
    returns exactly the objects it allocates, each of them once. *)
Theorem getGroupEdgesInDirection_one_per_counterpart_and_type (st : Store)
    (this : string) (outNotIn exclusivelyTargetIsGroup : bool) :
  let '(edges, st') :=
    getGroupEdgesInDirection idf st this outNotIn exclusivelyTargetIsGroup in
  (∀ r r' ge ge',
     length (groupEdges st) ≤ r → length (groupEdges st) ≤ r' →
     groupEdges st' !! r = Some ge → groupEdges st' !! r' = Some ge' →
     NodeCommon_identifier (other_end outNotIn ge)
     = NodeCommon_identifier (other_end outNotIn ge') →
     iri (GroupEdge.type ge) = iri (GroupEdge.type ge') →
     r = r')
  ∧ (cached st this outNotIn exclusivelyTargetIsGroup = ∅ →
     NoDup edges
     ∧ ∀ r, r ∈ edges
            ↔ length (groupEdges st) ≤ r < length (groupEdges st')).
Proof.
  rewrite getGroupEdgesInDirection_unfold.
  pose proof (fresh_unique (graph st) this outNotIn exclusivelyTargetIsGroup)
    as Hunique.
  pose proof (fresh_permutation (graph st) this outNotIn
                exclusivelyTargetIsGroup) as Hperm.
  destruct (fresh (graph st) this outNotIn exclusivelyTargetIsGroup)
    as [h2 es].
  cbv zeta. cbn [fst snd groupEdges] in *. split.
  - intros r r' ge ge' Hr Hr' Hge Hge' Hk Hty.
    rewrite lookup_app_r in Hge, Hge' by done.
    pose proof (Hunique _ _ _ _ Hge Hge' Hk Hty). lia.
  - intros ->.
    assert (Hedges : resolve idf (groupEdges st ++ h2) ∅
                     <$> (Nat.add (length (groupEdges st)) <$> es)
                     ≡ₚ seq (length (groupEdges st)) (length h2)).
    { rewrite (list_fmap_ext (resolve idf (groupEdges st ++ h2) ∅) Datatypes.id)
        by (intros i r _; apply resolve_empty).
      rewrite list_fmap_id, Hperm, fmap_add_seq. by rewrite Nat.add_0_r. }
    split.
    + rewrite Hedges. apply NoDup_seq.
    + intros r. rewrite Hedges, elem_of_seq, length_app. lia.
Qed.

(** X8.  Let [GroupEdge.identifier] be injective and the bucket
    consistent.  Then the edges of one pass have pairwise different
    identifiers; the returned edges carry these identifiers in order, so the
    result lists no [GroupEdge] twice; and the bucket holds every returned
    edge under its identifier afterwards. *)
Theorem getGroupEdgesInDirection_distinct (st : Store) (this : string)
    (outNotIn exclusivelyTargetIsGroup : bool) :
  (∀ s t ty s' t' ty', idf s t ty = idf s' t' ty' → s = s' ∧ t = t' ∧ ty = ty') →
  cache_consistent idf st this outNotIn exclusivelyTargetIsGroup →
  let '(edges, st') :=
    getGroupEdgesInDirection idf st this outNotIn exclusivelyTargetIsGroup in
  NoDup (fresh_identifiers idf (graph st) this outNotIn exclusivelyTargetIsGroup)
  ∧ identifier_at idf (groupEdges st') <$> edges
    = fresh_identifiers idf (graph st) this outNotIn exclusivelyTargetIsGroup
  ∧ NoDup edges
  ∧ ∀ r, r ∈ edges →
         cached st' this outNotIn exclusivelyTargetIsGroup
           !! identifier_at idf (groupEdges st') r = Some r.
Proof.
  intros Hinj Hcons.
  pose proof (fresh_identifiers_NoDup (graph st) this outNotIn
                exclusivelyTargetIsGroup Hinj) as Hnd.
  pose proof (getGroupEdgesInDirection_fresh_identifiers st this outNotIn
                exclusivelyTargetIsGroup Hcons) as Hids.
  pose proof (getGroupEdgesInDirection_remembers st this outNotIn
                exclusivelyTargetIsGroup Hcons Hnd) as Hrem.
  destruct (getGroupEdgesInDirection idf st this outNotIn
              exclusivelyTargetIsGroup) as [edges st'].
  split; [done|]. split; [done|]. split; [|done].
  apply (NoDup_fmap_1 (identifier_at idf (groupEdges st'))). by rewrite Hids.
Qed.

(** X9.  Let [GroupEdge.identifier] be injective and every bucket
    consistent.  Then reading [visibleGroupEdges] twice yields the same
    [GroupEdge] objects in the same order: the second reading takes all of
    them from the [in] and [out] buckets that the first one filled. *)
Theorem visibleGroupEdges_stable (st : Store) (this : string) :
  (∀ s t ty s' t' ty', idf s t ty = idf s' t' ty' → s = s' ∧ t = t' ∧ ty = ty') →
  consistent idf st →
  let '(edges1, st1) := visibleGroupEdges idf st this in
  let '(edges2, st2) := visibleGroupEdges idf st1 this in
  edges2 = edges1 ∧ graph st2 = graph st.
Proof.
  intros Hinj Hcons. unfold visibleGroupEdges.
  (* the first reading *)
  pose proof (getGroupEdgesInDirection_consistent idf st this false false Hcons)
    as Hcons_a.
  pose proof (getGroupEdgesInDirection_fresh_identifiers st this false false
                (Hcons this false false)) as Hids_a.
  pose proof (getGroupEdgesInDirection_remembers st this false false
                (Hcons this false false)
                (fresh_identifiers_NoDup _ _ _ _ Hinj)) as Hrem_a.
  pose proof (getGroupEdgesInDirection_allocated st this false false
                (Hcons this false false)) as Hlt_a.
  pose proof (getGroupEdgesInDirection_other_bucket st this false false)
    as (Hg_a & _).
  destruct (getGroupEdgesInDirection idf st this false false) as [a sa].
  cbn [fst snd] in *.
  pose proof (getGroupEdgesInDirection_consistent idf sa this true false Hcons_a)
    as Hcons_b.
  pose proof (getGroupEdgesInDirection_fresh_identifiers sa this true false
                (Hcons_a this true false)) as Hids_b.
  pose proof (getGroupEdgesInDirection_remembers sa this true false
                (Hcons_a this true false)
                (fresh_identifiers_NoDup _ _ _ _ Hinj)) as Hrem_b.
  pose proof (getGroupEdgesInDirection_allocated sa this true false
                (Hcons_a this true false)) as Hlt_b.
  pose proof (getGroupEdgesInDirection_other_bucket sa this true false)
    as (Hg_b & _ & Hbucket_b & _ & Hsame_b).
  destruct (getGroupEdgesInDirection idf sa this true false) as [b sb].
  cbn [fst snd] in *.
  (* the second reading: the incoming edges *)
  assert (Ha : (getGroupEdgesInDirection idf sb this false false).1 = a).
  { apply getGroupEdgesInDirection_cached.
    - rewrite Hg_b, Hg_a, <- Hids_a. apply list_fmap_ext.
      intros i r Hr. apply Hsame_b.
      apply (proj1 (Forall_lookup _ _) Hlt_a i r Hr).
    - intros r Hr. rewrite (Hbucket_b false false) by done.
      rewrite Hsame_b by (by apply (proj1 (Forall_forall _ _) Hlt_a)).
      by apply Hrem_a. }
  pose proof (getGroupEdgesInDirection_other_bucket sb this false false)
    as (Hg_c & _ & Hbucket_c & _ & Hsame_c).
  destruct (getGroupEdgesInDirection idf sb this false false) as [a' sc].
  cbn [fst snd] in *. subst a'.
  (* the second reading: the outgoing edges *)
  assert (Hb : (getGroupEdgesInDirection idf sc this true false).1 = b).
  { apply getGroupEdgesInDirection_cached.
    - rewrite Hg_c, Hg_b, <- Hids_b. apply list_fmap_ext.
      intros i r Hr. apply Hsame_c.
      apply (proj1 (Forall_lookup _ _) Hlt_b i r Hr).
    - intros r Hr. rewrite (Hbucket_c true false) by done.
      rewrite Hsame_c by (by apply (proj1 (Forall_forall _ _) Hlt_b)).
      by apply Hrem_b. }
  pose proof (getGroupEdgesInDirection_other_bucket sc this true false)
    as (Hg_d & _).
  destruct (getGroupEdgesInDirection idf sc this true false) as [b' sd].
  cbn [fst snd] in *. subst b'. split; [done|]. congruence.
Qed.

(** X10.  A call returns no edge exactly when the loop enters no edge:
    every edge of every visible member is skipped by one of the [continue]
    statements.  In particular a group without a visible member has no group
    edges.  A call that returns no edge allocates nothing and leaves its
    bucket empty, whatever the bucket held before. *)
Theorem getGroupEdgesInDirection_nothing (st : Store) (this : string)
    (outNotIn exclusivelyTargetIsGroup : bool) :
  let '(edges, st') :=
    getGroupEdgesInDirection idf st this outNotIn exclusivelyTargetIsGroup in
  (edges = []
   ↔ ∀ e, e ∈ visited (graph st) this →
          passes (graph st) this outNotIn exclusivelyTargetIsGroup e = None)
  ∧ (Forall (λ n, Node.isVisible (node_at (graph st) n) = false)
       (nodes (group_at (graph st) this)) →
     edges = [])
  ∧ (edges = [] →
     groupEdges st' = groupEdges st
     ∧ cached st' this outNotIn exclusivelyTargetIsGroup = ∅).
Proof.
  rewrite getGroupEdgesInDirection_unfold.
  pose proof (fresh_complete (graph st) this outNotIn
                exclusivelyTargetIsGroup) as Hcomplete.
  pose proof (fresh_stands_for (graph st) this outNotIn
                exclusivelyTargetIsGroup) as Hstands.
  pose proof (fresh_permutation (graph st) this outNotIn
                exclusivelyTargetIsGroup) as Hperm.
  destruct (fresh (graph st) this outNotIn exclusivelyTargetIsGroup)
    as [h2 es].
  cbv beta iota zeta. rewrite cached_after. cbn [fst snd groupEdges] in *.
  assert (Hnil : resolve idf (groupEdges st ++ h2)
                   (cached st this outNotIn exclusivelyTargetIsGroup)
                 <$> (Nat.add (length (groupEdges st)) <$> es) = []
                 ↔ es = []).
  { destruct es; cbn; split; done. }
  assert (Hnone : es = []
            ↔ ∀ e, e ∈ visited (graph st) this →
                   passes (graph st) this outNotIn exclusivelyTargetIsGroup e
                   = None).
  { split.
    - intros -> e Hin.
      destruct (passes (graph st) this outNotIn exclusivelyTargetIsGroup e)
        as [tn|] eqn:Epass; [|done].
      destruct (Hcomplete e tn Hin Epass) as (r & _ & Hr & _).
      by apply elem_of_nil in Hr.
    - intros Hall. destruct h2 as [|ge h2].
      + by apply Permutation_nil_r in Hperm.
      + apply Forall_cons in Hstands as [(_ & e & Hin & Hpass & _) _].
        rewrite (Hall e Hin) in Hpass. discriminate. }
  split; [by rewrite Hnil|]. split.
  - intros Hhidden. apply Hnil, Hnone. intros e Hin. exfalso.
    unfold visited in Hin. revert Hin Hhidden.
    induction (nodes (group_at (graph st) this)) as [|n ns IH]; cbn.
    + by intros ?%elem_of_nil.
    + intros Hin [Hn Hns]%Forall_cons. rewrite Hn in Hin. cbn in Hin. auto.
  - intros Hes%Hnil. subst es. cbn [fmap list_fmap foldl].
    apply Permutation_nil_l in Hperm. symmetry in Hperm.
    destruct h2; [|discriminate]. by rewrite app_nil_r.
Qed.

(** X11.  Consistency of the cache is an invariant of the getters: if every
    bucket keeps its edges under their identifiers, it still does after
    [visibleGroupEdges] and after [restOfVisibleGroupEdges], and every edge
    these getters return is an allocated [GroupEdge]. *)
Theorem getters_keep_consistent (st : Store) (this : string) :
  consistent idf st →
  (let '(edges, st') := visibleGroupEdges idf st this in
   consistent idf st' ∧ Forall (λ r, r < length (groupEdges st')) edges)
  ∧ (let '(edges, st') := restOfVisibleGroupEdges idf st this in
     consistent idf st' ∧ Forall (λ r, r < length (groupEdges st')) edges).
Proof.
  intros Hcons. split.
  - unfold visibleGroupEdges.
    pose proof (getGroupEdgesInDirection_consistent idf st this false false
                  Hcons) as Hcons_a.
    pose proof (getGroupEdgesInDirection_allocated st this false false
                  (Hcons this false false)) as Hlt_a.
    destruct (getGroupEdgesInDirection idf st this false false) as [a sa].
    cbn [fst snd] in *.
    pose proof (getGroupEdgesInDirection_consistent idf sa this true false
                  Hcons_a) as Hcons_b.
    pose proof (getGroupEdgesInDirection_allocated sa this true false
                  (Hcons_a this true false)) as Hlt_b.
    pose proof (getGroupEdgesInDirection_other_bucket sa this true false)
      as (_ & _ & _ & [created Hheap] & _).
    destruct (getGroupEdgesInDirection idf sa this true false) as [b sb].
    cbn [fst snd] in *. split; [done|]. apply Forall_app. split; [|done].
    apply (Forall_impl _ _ _ Hlt_a). intros r Hr.
    rewrite Hheap, length_app. lia.
  - unfold restOfVisibleGroupEdges.
    pose proof (getGroupEdgesInDirection_consistent idf st this false true
                  Hcons) as Hcons_a.
    pose proof (getGroupEdgesInDirection_allocated st this false true
                  (Hcons this false true)) as Hlt_a.
    by destruct (getGroupEdgesInDirection idf st this false true) as [a sa].
Qed.

End group_edges.

(** ** NodeGroup: the properties above on concrete stores *)

Section group_edges_examples.
Import NodeGroup.

Lemma quoted_inj (s s' rest rest' : string) :
  Examples.quoted s rest = Examples.quoted s' rest' → s = s' ∧ rest = rest'.
Proof.
  revert s'. induction s as [|c s IH]; intros [|c' s'];
    cbn [Examples.quoted]; intros H;
    cbv beta iota delta [String.append] in H.
  - by injection H as ->.
  - discriminate.
  - discriminate.
  - injection H as -> H. by destruct (IH _ H) as [-> ->].
Qed.

Lemma injective_identifier_inj (s t ty s' t' ty' : string) :
  Examples.injective_identifier s t ty = Examples.injective_identifier s' t' ty' →
  s = s' ∧ t = t' ∧ ty = ty'.
Proof.
  unfold Examples.injective_identifier.
  intros [-> [-> ->]%quoted_inj]%quoted_inj. done.
Qed.

Lemma store_with_cache_consistent :
  consistent Examples.sample_identifier Examples.store_with_cache.
Proof. apply getGroupEdgesInDirection_consistent, consistent_without_cache. Qed.

Lemma getGroupEdgesInDirection_identifiers_witness :
  let '(edges, st') :=
    getGroupEdgesInDirection Examples.sample_identifier
      Examples.store_with_cache "g" true false in
  (∀ e targetNode,
     e ∈ visited (graph Examples.store_with_cache) "g" →
     passes (graph Examples.store_with_cache) "g" true false e = Some targetNode →
     ∃ r, r ∈ edges
          ∧ identifier_at Examples.sample_identifier (groupEdges st') r
            = identifier_for Examples.sample_identifier "g" true targetNode
                (Edge.type e))
  ∧ (∀ r, r ∈ edges →
       r < length (groupEdges st')
       ∧ ∃ e targetNode,
           e ∈ visited (graph Examples.store_with_cache) "g"
           ∧ passes (graph Examples.store_with_cache) "g" true false e
             = Some targetNode
           ∧ identifier_at Examples.sample_identifier (groupEdges st') r
             = identifier_for Examples.sample_identifier "g" true targetNode
                 (Edge.type e)).
Proof.
  apply (getGroupEdgesInDirection_identifiers Examples.sample_identifier
           Examples.store_with_cache "g" true false).
  apply store_with_cache_consistent.
Defined.

Lemma getGroupEdgesInDirection_distinct_witness :
  let '(edges, st') :=
    getGroupEdgesInDirection Examples.injective_identifier
      (mkStore Examples.graph_wide ∅ []) "g" true false in
  NoDup (fresh_identifiers Examples.injective_identifier Examples.graph_wide
           "g" true false)
  ∧ identifier_at Examples.injective_identifier (groupEdges st') <$> edges
    = fresh_identifiers Examples.injective_identifier Examples.graph_wide
        "g" true false
  ∧ NoDup edges
  ∧ ∀ r, r ∈ edges →
         cached st' "g" true false
           !! identifier_at Examples.injective_identifier (groupEdges st') r
         = Some r.
Proof.
  apply (getGroupEdgesInDirection_distinct Examples.injective_identifier
           (mkStore Examples.graph_wide ∅ []) "g" true false).
  - apply injective_identifier_inj.
  - apply consistent_without_cache.
Defined.

Lemma visibleGroupEdges_stable_witness :
  let '(edges1, st1) :=
    visibleGroupEdges Examples.injective_identifier
      (mkStore Examples.graph_wide ∅ []) "g" in
  let '(edges2, st2) :=
    visibleGroupEdges Examples.injective_identifier st1 "g" in
  edges2 = edges1 ∧ graph st2 = Examples.graph_wide.
Proof.
  apply (visibleGroupEdges_stable Examples.injective_identifier
           (mkStore Examples.graph_wide ∅ []) "g").
  - apply injective_identifier_inj.
  - apply consistent_without_cache.
Defined.

Lemma getters_keep_consistent_witness :
  (let '(edges, st') :=
     visibleGroupEdges Examples.sample_identifier Examples.store_with_cache "g" in
   consistent Examples.sample_identifier st'
   ∧ Forall (λ r, r < length (groupEdges st')) edges)
  ∧ (let '(edges, st') :=
       restOfVisibleGroupEdges Examples.sample_identifier
         Examples.store_with_cache "g" in
     consistent Examples.sample_identifier st'
     ∧ Forall (λ r, r < length (groupEdges st')) edges).
Proof.
  apply (getters_keep_consistent Examples.sample_identifier
           Examples.store_with_cache "g").
  apply store_with_cache_consistent.
Defined.

End group_edges_examples.

(** ** ColaLayout: the distance of seeded nodes from the anchor *)

Section seeding_distance.
Import ColaLayout.



End seeding_distance.

(** ** ColaLayout: compact mode, deactivation and the handles *)

Section compact_mode.
Import ColaLayout.

Lemma fold_union_singletons (l : list string) (s : gset string) :
  foldl (λ c n, c ∪ {[n]}) s l = s ∪ list_to_set l.
Proof.
  revert s. induction l as [|n l IH]; intros s; cbn.
  - by rewrite (right_id_L ∅ (∪)).
  - by rewrite IH, (assoc_L (∪)).
Qed.

Lemma stopLayout_area (w : World) : area (stopLayout w) = area w.
Proof. unfold stopLayout. by destruct (layoutAnimation (layout w)). Qed.

Lemma executeLayout_area (w : World) c f : area (executeLayout w c f) = area w.
Proof.
  unfold executeLayout, area. cbn. unfold stopLayout.
  by destruct (layoutAnimation (layout w)).
Qed.

(** The state in which [onCompactMode] starts its layout run when it is
    given nodes and edges. *)
Lemma onCompactMode_enter (w : World) (nodes edges : list string) :
  onCompactMode w (Some nodes) (Some edges)
  = (Returns,
     executeLayout
       (set_layout
          (set_compactMode
             (CompactCollection (list_to_set nodes ∪ list_to_set edges)))
          match compactMode (layout w) with
          | CompactNull => setAreaForCompact true (stopLayout w)
          | _ => w
          end)
       (list_to_set nodes ∪ list_to_set edges) None).
Proof.
  unfold onCompactMode. rewrite !fold_union_singletons, (left_id_L ∅ (∪)).
  reflexivity.
Qed.

Lemma onCompactMode_leave (w : World) :
  onCompactMode w None None
  = (Returns,
     set_layout (set_compactMode CompactNull)
       (if isCompactModeActive (layout w)
        then setAreaForCompact false (stopLayout w) else w)).
Proof. reflexivity. Qed.

(** X13.  Entering compact mode with nodes and edges makes the compact
    collection the union of their elements and starts a layout run over
    exactly that collection, with an empty fixed set.  Panning, zooming and
    box selection are switched off only if [compactMode] was [null] before:
    on an object whose [compactMode] is still [undefined] (no compact mode
    and no deactivation so far), and when the collection is merely replaced,
    they stay as they are.  Leaving compact mode afterwards stops that run,
    switches the three back on and sets [compactMode] to [null]. *)
Theorem onCompactMode_enter_leave (w : World) (nodes edges : list string) :
  let '(completion, entered) := onCompactMode w (Some nodes) (Some edges) in
  let '(completion', gone) := onCompactMode entered None None in
  let new := length (layouts (cy w)) in
  let c := list_to_set nodes ∪ list_to_set edges in
  completion = Returns ∧ completion' = Returns
  ∧ compactMode (layout entered) = CompactCollection c
  ∧ layoutAnimation (layout entered) = Some new
  ∧ layouts (cy entered) !! new
    = Some (mkLayouts c (option_of (layout w) "animate") ∅
              (option_of (layout w) "nodeSpacing")
              (option_of (layout w) "edgeLength") Running)
  ∧ area entered
    = match compactMode (layout w) with
      | CompactNull => (false, false, false)
      | CompactUndefined | CompactCollection _ => area w
      end
  ∧ compactMode (layout gone) = CompactNull
  ∧ area gone = (true, true, true)
  ∧ layouts (cy gone) !! new
    = Some (mkLayouts c (option_of (layout w) "animate") ∅
              (option_of (layout w) "nodeSpacing")
              (option_of (layout w) "edgeLength") Stopped)
  ∧ length (layouts (cy gone)) = S new.
Proof.
  rewrite onCompactMode_enter.
  set (c := list_to_set nodes ∪ list_to_set edges).
  set (w1 := match compactMode (layout w) with
             | CompactNull => setAreaForCompact true (stopLayout w)
             | _ => w
             end).
  set (w2 := set_layout (set_compactMode (CompactCollection c)) w1).
  assert (Hlen : length (layouts (cy w2)) = length (layouts (cy w))).
  { unfold w2, w1. destruct (compactMode (layout w)); cbn; try done.
    apply stopLayout_length. }
  assert (Hopt : ∀ name, option_of (layout w2) name = option_of (layout w) name).
  { intros name. unfold w2, w1. destruct (compactMode (layout w)); cbn;
      try done. by rewrite stopLayout_layout. }
  assert (Harea : area w2 = match compactMode (layout w) with
                            | CompactNull => (false, false, false)
                            | CompactUndefined | CompactCollection _ => area w
                            end).
  { unfold w2, w1. by destruct (compactMode (layout w)). }
  set (entered := executeLayout w2 c None).
  assert (Hlayout : layout entered
                    = set_layoutAnimation (length (layouts (cy w))) (layout w2)).
  { unfold entered. by rewrite executeLayout_layout, Hlen. }
  assert (Hhandle : layouts (cy entered) !! length (layouts (cy w))
                    = Some (mkLayouts c (option_of (layout w) "animate") ∅
                              (option_of (layout w) "nodeSpacing")
                              (option_of (layout w) "edgeLength") Running)).
  { unfold entered. rewrite <- Hlen, executeLayout_handle. by rewrite !Hopt. }
  assert (Hcount : length (layouts (cy entered)) = S (length (layouts (cy w)))).
  { unfold entered.
    rewrite executeLayout_layouts, length_app, stopLayout_length, Hlen.
    cbn. lia. }
  rewrite onCompactMode_leave.
  assert (Hactive : isCompactModeActive (layout entered) = true).
  { by rewrite Hlayout. }
  rewrite Hactive. cbv zeta.
  split; [done|]. split; [done|]. split; [by rewrite Hlayout|].
  split; [by rewrite Hlayout|]. split; [exact Hhandle|].
  split; [by unfold entered; rewrite executeLayout_area|].
  split; [done|]. split; [done|].
  assert (Hstop : layouts (cy (stopLayout entered))
                  = alter (set_status Stopped) (length (layouts (cy w)))
                      (layouts (cy entered))).
  { unfold stopLayout. by rewrite Hlayout. }
  cbn [set_layout setAreaForCompact set_cy cy layouts]. rewrite Hstop. split.
  - by rewrite list_lookup_alter_eq, Hhandle.
  - by rewrite length_alter.
Qed.

Lemma set_isActive_owns_active (w : World) (b : bool) :
  owns_active w → owns_active (set_layout (set_isActive b) w).
Proof. intros Hinv h Hact. by apply Hinv in Hact. Qed.

(** X14.  [deactivate] leaves the object quiet: it is inactive, compact
    mode is off ([null]), no handle is active, no new handle has been made,
    and the options are as before.  Panning, zooming and box selection are
    switched on if compact mode was active and stay as they were otherwise.
    The parts of [onExpansion] and [onGroupBroken] that resume after the
    object was deactivated do nothing. *)
Theorem deactivate_quiet (w : World) :
  reachable w →
  let w' := deactivate w in
  isActive (layout w') = false
  ∧ compactMode (layout w') = CompactNull
  ∧ options (layout w') = options (layout w)
  ∧ (∀ h, ¬ active w' h)
  ∧ length (layouts (cy w')) = length (layouts (cy w))
  ∧ area w' = (if isCompactModeActive (layout w) then (true, true, true)
               else area w)
  ∧ (∀ expansion, onExpansion_resumed w' expansion = w')
  ∧ onGroupBroken_resumed w' = w'.
Proof.
  intros Hinv%reachable_owns_active. cbv zeta. unfold deactivate.
  rewrite onCompactMode_leave. cbn [snd].
  set (w0 := set_layout (set_isActive false) w).
  assert (Hinv0 : owns_active w0) by by apply set_isActive_owns_active.
  change (isCompactModeActive (layout w0)) with (isCompactModeActive (layout w)).
  set (w1 := if isCompactModeActive (layout w)
             then setAreaForCompact false (stopLayout w0) else w0).
  assert (Hlayout1 : layout w1 = layout w0).
  { unfold w1. destruct (isCompactModeActive (layout w)); [|done].
    cbn. apply stopLayout_layout. }
  assert (Hinv1 : owns_active w1).
  { unfold w1. destruct (isCompactModeActive (layout w)); [|done].
    intros h Hact. by apply (stopLayout_owns_active w0 Hinv0 h). }
  assert (Hlen1 : length (layouts (cy w1)) = length (layouts (cy w))).
  { unfold w1. destruct (isCompactModeActive (layout w)); [|done].
    cbn. apply (stopLayout_length w0). }
  assert (Harea1 : area w1 = (if isCompactModeActive (layout w)
                              then (true, true, true) else area w)).
  { unfold w1. by destruct (isCompactModeActive (layout w)). }
  set (w2 := set_layout (set_compactMode CompactNull) w1).
  assert (Hinv2 : owns_active w2).
  { intros h Hact. by apply Hinv1 in Hact. }
  assert (Hfinal : layout (stopLayout w2) = set_compactMode CompactNull (layout w0)).
  { rewrite stopLayout_layout. unfold w2. cbn. by rewrite Hlayout1. }
  split; [by rewrite Hfinal|]. split; [by rewrite Hfinal|].
  split; [by rewrite Hfinal|].
  split; [intros h; by apply stopLayout_idle|].
  split; [by rewrite stopLayout_length|].
  split; [by rewrite stopLayout_area|].
  unfold onExpansion_resumed, onGroupBroken_resumed. rewrite Hfinal. by cbn.
Qed.

Lemma deactivate_quiet_witness :
  let w := run (activate initial) in
  let w' := deactivate w in
  isActive (layout w') = false
  ∧ compactMode (layout w') = CompactNull
  ∧ options (layout w') = options (layout w)
  ∧ (∀ h, ¬ active w' h)
  ∧ length (layouts (cy w')) = length (layouts (cy w))
  ∧ area w' = (if isCompactModeActive (layout w) then (true, true, true)
               else area w)
  ∧ (∀ expansion, onExpansion_resumed w' expansion = w')
  ∧ onGroupBroken_resumed w' = w'.
Proof.
  apply (deactivate_quiet (run (activate initial))).
  eapply rtc_l; [apply step_activate|].
  eapply rtc_l; [apply step_run|]. apply rtc_refl.
Defined.

Lemma handles_in_order_frame (w w' : World) :
  layoutAnimation (layout w') = layoutAnimation (layout w) →
  layouts (cy w') = layouts (cy w) →
  calls (cy w') = calls (cy w) →
  handles_in_order w → handles_in_order w'.
Proof. unfold handles_in_order. by intros -> -> ->. Qed.

Lemma handles_in_order_stopLayout (w : World) :
  handles_in_order w → handles_in_order (stopLayout w).
Proof.
  intros (Hlast & Hstatus & Hruns). unfold handles_in_order.
  rewrite stopLayout_layout, stopLayout_length, stopLayout_calls.
  split; [|split].
  - destruct (layoutAnimation (layout w)) as [h|] eqn:E; [done|].
    unfold stopLayout. by rewrite E.
  - intros h l. unfold stopLayout.
    destruct (layoutAnimation (layout w)) as [old|]; [|apply Hstatus].
    cbn. destruct (decide (old = h)) as [->|Hne].
    + rewrite list_lookup_alter_eq.
      destruct (layouts (cy w) !! h); [|done]. by intros [= <-].
    + rewrite list_lookup_alter_ne by done. apply Hstatus.
  - rewrite omap_app, Hruns.
    destruct (layoutAnimation (layout w)); cbn; by rewrite app_nil_r.
Qed.

Lemma handles_in_order_executeLayout (w : World) c f :
  handles_in_order w → handles_in_order (executeLayout w c f).
Proof.
  intros (Hlast & Hstatus & Hruns)%handles_in_order_stopLayout.
  unfold handles_in_order.
  rewrite executeLayout_layout, executeLayout_layouts, executeLayout_calls.
  rewrite stopLayout_layout, stopLayout_length, stopLayout_calls in *.
  rewrite length_app, stopLayout_length. cbn [length set_layoutAnimation
    layoutAnimation].
  split; [lia|]. split.
  - intros h l Hl. apply lookup_app_Some in Hl as [Hl|[Hge Hl]].
    + destruct (Hstatus h l Hl) as [Hcreated _]. split; [done|]. intros _.
      assert (Hlt : h < length (layouts (cy w))).
      { rewrite <- (stopLayout_length w). by eapply lookup_lt_Some. }
      destruct (layoutAnimation (layout w)) as [old|] eqn:Eold.
      * destruct (decide (h = old)) as [->|Hne].
        -- unfold stopLayout in Hl. rewrite Eold in Hl. cbn in Hl.
           rewrite list_lookup_alter_eq in Hl.
           destruct (layouts (cy w) !! old); [|done]. by injection Hl as <-.
        -- apply (Hstatus h l Hl). lia.
      * unfold stopLayout in Hlast. rewrite Eold in Hlast.
        rewrite Hlast in Hlt. cbn in Hlt. lia.
    + rewrite stopLayout_length in Hge, Hl.
      destruct (h - length (layouts (cy w))) as [|k] eqn:Ek; [|by destruct k].
      injection Hl as <-. cbn. split; [done|]. lia.
  - rewrite app_assoc, omap_app, Hruns. cbn.
    by rewrite Nat.add_1_r, seq_S.
Qed.

Lemma handles_in_order_onCompactMode (w : World) ns es :
  handles_in_order w → handles_in_order (onCompactMode w ns es).2.
Proof.
  intros Hinv.
  assert (Hstop : ∀ b, handles_in_order (setAreaForCompact b (stopLayout w))).
  { intros b.
    by apply (handles_in_order_frame (stopLayout w)),
             handles_in_order_stopLayout. }
  unfold onCompactMode.
  destruct ns as [ns|], es as [es|]; cbn [snd];
    try (apply handles_in_order_executeLayout);
    destruct (compactMode (layout w)) eqn:Ecm;
    unfold isCompactModeActive; rewrite ?Ecm;
    first [ exact Hinv
          | by apply (handles_in_order_frame w)
          | by apply (handles_in_order_frame (setAreaForCompact true (stopLayout w)))
          | by apply (handles_in_order_frame (setAreaForCompact false (stopLayout w))) ].
Qed.

Lemma step_handles_in_order (w w' : World) :
  step w w' → handles_in_order w → handles_in_order w'.
Proof.
  intros Hstep Hinv. destruct Hstep.
  - by apply (handles_in_order_frame w).
  - unfold deactivate. apply handles_in_order_stopLayout.
    apply (handles_in_order_onCompactMode (set_layout (set_isActive false) w)).
    by apply (handles_in_order_frame w).
  - unfold onDrag. case_match; [by apply handles_in_order_executeLayout|done].
  - by apply handles_in_order_executeLayout.
  - by apply handles_in_order_executeLayout.
  - by apply handles_in_order_onCompactMode.
  - unfold onExpansion_resumed.
    case_match; [done|by apply handles_in_order_executeLayout].
  - unfold onGroupBroken_resumed.
    case_match; [done|by apply handles_in_order_executeLayout].
  - by apply (handles_in_order_frame w).
  - destruct Hinv as (Hlast & Hstatus & Hruns). unfold handles_in_order.
    cbn. rewrite length_alter. split; [|split; [|done]].
    { destruct (layoutAnimation (layout w)); [done|]. by rewrite Hlast. }
    intros h' l. destruct (decide (h = h')) as [->|Hne].
    + rewrite list_lookup_alter_eq.
      destruct (layouts (cy w) !! h'); [|done]. by intros [= <-].
    + rewrite list_lookup_alter_ne by done. apply Hstatus.
  - by apply (handles_in_order_frame w).
  - by apply (handles_in_order_frame w).
Qed.

(** X15.  In every state the object can reach, [layoutAnimation] is unset
    exactly while no handle has been created and otherwise refers to the
    handle created last; no handle is left unstarted; every handle but the
    last has been stopped; and the handles were run once each, in the order
    of their creation. *)
Theorem reachable_handles_in_order (w : World) :
  reachable w →
  match layoutAnimation (layout w) with
  | None => layouts (cy w) = []
  | Some h => S h = length (layouts (cy w))
  end
  ∧ (∀ h l, layouts (cy w) !! h = Some l →
       status l ≠ Created
       ∧ (S h < length (layouts (cy w)) → status l = Stopped))
  ∧ omap started (calls (cy w)) = seq 0 (length (layouts (cy w))).
Proof.
  unfold reachable. revert w.
  apply (rtc_ind_r (R := step) handles_in_order).
  - split; [done|]. split; [|done]. by intros h l ?.
  - intros y z _ Hstep IH. by apply (step_handles_in_order y z).
Qed.

Lemma reachable_handles_in_order_witness :
  let w := run (run (activate initial)) in
  match layoutAnimation (layout w) with
  | None => layouts (cy w) = []
  | Some h => S h = length (layouts (cy w))
  end
  ∧ (∀ h l, layouts (cy w) !! h = Some l →
       status l ≠ Created
       ∧ (S h < length (layouts (cy w)) → status l = Stopped))
  ∧ omap started (calls (cy w)) = seq 0 (length (layouts (cy w))).
Proof.
  apply (reachable_handles_in_order (run (run (activate initial)))).
  eapply rtc_l; [apply step_activate|].
  eapply rtc_l; [apply step_run|].
  eapply rtc_l; [apply step_run|]. apply rtc_refl.
Defined.

(** X16.  Saving and restoring the options is a round trip: restoring what
    an object saved into that object changes nothing; restoring it into any
    object gives every saved option its saved value, and the whole saved
    record if the object has no option the record lacks; and restoring the
    same record twice is the same as restoring it once. *)
Theorem saveToObject_restoreFromObject (this other : t)
    (object : gmap string value) :
  restoreFromObject this (saveToObject this) = this
  ∧ (∀ name v, saveToObject other !! name = Some v →
       saveToObject (restoreFromObject this (saveToObject other)) !! name
       = Some v)
  ∧ (dom (options this) ⊆ dom (options other) →
     saveToObject (restoreFromObject this (saveToObject other))
     = saveToObject other)
  ∧ restoreFromObject (restoreFromObject this object) object
    = restoreFromObject this object.
Proof.
  unfold restoreFromObject, saveToObject, set_options. cbn.
  split; [|split; [|split]].
  - rewrite (idemp_L (∪)). by destruct this.
  - intros name v Hv. by apply lookup_union_Some_l.
  - intros Hdom. apply map_eq. intros name. rewrite lookup_union.
    destruct (options other !! name) as [v|] eqn:Eo.
    + by destruct (options this !! name).
    + apply not_elem_of_dom in Eo.
      assert (Hthis : options this !! name = None).
      { apply not_elem_of_dom. intros Hin. by apply Eo, Hdom. }
      by rewrite Hthis.
  - by rewrite (assoc_L (∪)), (idemp_L (∪)).
Qed.

(** X17.  Which elements a run lays out.  [run], [onLockedChanged] and a
    drag end lay out the compact collection while compact mode is active and
    all elements of the canvas otherwise; the runs that [onExpansion] and
    [onGroupBroken] start once they resume lay out all elements of the canvas
    also while compact mode is active.  [run], [onLockedChanged], the drag
    end and [onGroupBroken] pass no fixed set. *)
Theorem layout_collection (w : World) (expansion : Expansion) :
  let new := length (layouts (cy w)) in
  let animated :=
    match compactMode (layout w) with
    | CompactCollection c => c
    | CompactUndefined | CompactNull => cy_elements (cy w)
    end in
  (collection <$> layouts (cy (run w)) !! new = Some animated
   ∧ fixed <$> layouts (cy (run w)) !! new = Some ∅)
  ∧ (collection <$> layouts (cy (onLockedChanged w)) !! new = Some animated
     ∧ fixed <$> layouts (cy (onLockedChanged w)) !! new = Some ∅)
  ∧ (truthy (option_of (layout w) "doLayoutAfterReposition") = true →
     collection <$> layouts (cy (onDrag w false)) !! new = Some animated
     ∧ fixed <$> layouts (cy (onDrag w false)) !! new = Some ∅)
  ∧ (isActive (layout w) = true →
     collection <$> layouts (cy (onExpansion_resumed w expansion)) !! new
     = Some (cy_elements (cy w))
     ∧ collection <$> layouts (cy (onGroupBroken_resumed w)) !! new
       = Some (cy_elements (cy w))
     ∧ fixed <$> layouts (cy (onGroupBroken_resumed w)) !! new = Some ∅).
Proof.
  cbv zeta.
  assert (Hanimated : getCollectionToAnimate w
                      = match compactMode (layout w) with
                        | CompactCollection c => c
                        | CompactUndefined | CompactNull => cy_elements (cy w)
                        end) by reflexivity.
  rewrite <- Hanimated.
  split; [unfold run; by rewrite executeLayout_handle|].
  split; [unfold onLockedChanged; by rewrite executeLayout_handle|].
  split.
  - intros Hoption. unfold onDrag. rewrite Hoption. cbn [negb andb orb].
    by rewrite executeLayout_handle.
  - intros Hactive. unfold onExpansion_resumed, onGroupBroken_resumed.
    rewrite Hactive. cbn [negb]. by rewrite !executeLayout_handle.
Qed.

End compact_mode.

(** ** NodeGroup: whether a neighbour is selected *)

Section neighbours.
Import NodeGroup.
Variable idf : string → string → string → string.
Variable selected : NodeCommon → bool.

(** The outgoing direction does not read [exclusivelyTargetIsGroup]. *)
Lemma passes_out (g : Graph) (this : string) (x : bool) (e : Edge.t) :
  passes g this true x e = passes g this true false e.
Proof. reflexivity. Qed.

Lemma neighbour_is_selected_stands_for (g : Graph) (this : string) (o x : bool)
    (ge : GroupEdge.t) :
  stands_for g this o x ge →
  neighbour_is_selected selected this ge = selected (other_end o ge).
Proof.
  intros (Hown & e & _ & Hpass & _).
  apply passes_Some in Hpass as (_ & _ & Hself & _).
  unfold neighbour_is_selected, own_end, other_end in *. destruct o.
  - rewrite Hown, bool_decide_eq_true_2 by done.
    rewrite (bool_decide_eq_false_2 _ Hself). cbn.
    by rewrite orb_false_r.
  - rewrite Hown, (bool_decide_eq_false_2 _ Hself).
    by rewrite bool_decide_eq_true_2.
Qed.

(** A call on an empty bucket returns the edges it creates. *)
Lemma getGroupEdgesInDirection_first (st : Store) (this : string) (o x : bool) :
  cached st this o x = ∅ →
  let '(edges, st') := getGroupEdgesInDirection idf st this o x in
  (∀ r, r ∈ edges →
        ∃ ge, groupEdges st' !! r = Some ge
              ∧ stands_for (graph st) this o x ge)
  ∧ (∀ e targetNode,
       e ∈ visited (graph st) this →
       passes (graph st) this o x e = Some targetNode →
       ∃ r ge, r ∈ edges
               ∧ groupEdges st' !! r = Some ge
               ∧ stands_for (graph st) this o x ge
               ∧ NodeCommon_identifier (other_end o ge)
                 = NodeCommon_identifier targetNode).
Proof.
  intros Hempty. rewrite getGroupEdgesInDirection_unfold.
  pose proof (fresh_complete (graph st) this o x) as Hcomplete.
  pose proof (fresh_stands_for (graph st) this o x) as Hstands.
  pose proof (fresh_allocated (graph st) this o x) as Hlt.
  destruct (fresh (graph st) this o x) as [h2 es].
  cbv zeta. cbn [fst snd groupEdges] in *. rewrite Hempty.
  assert (Hedges : resolve idf (groupEdges st ++ h2) ∅
                   <$> (Nat.add (length (groupEdges st)) <$> es)
                   = Nat.add (length (groupEdges st)) <$> es).
  { rewrite (list_fmap_ext (resolve idf (groupEdges st ++ h2) ∅) Datatypes.id)
      by (intros i r _; apply resolve_empty).
    apply list_fmap_id. }
  rewrite Hedges.
  assert (Hlook : ∀ r0 ge, h2 !! r0 = Some ge →
            (groupEdges st ++ h2) !! (length (groupEdges st) + r0) = Some ge).
  { intros r0 ge Hge. rewrite lookup_app_r by lia.
    by replace (length (groupEdges st) + r0 - length (groupEdges st))
      with r0 by lia. }
  split.
  - intros r (r0 & -> & Hr0)%list_elem_of_fmap.
    pose proof (proj1 (Forall_forall _ _) Hlt r0 Hr0) as Hr0lt.
    destruct (lookup_lt_is_Some_2 h2 r0 Hr0lt) as [ge Hge].
    exists ge. split; [by apply Hlook|].
    apply (proj1 (Forall_lookup _ _) Hstands _ _ Hge).
  - intros e tn Hin Hpass.
    destruct (Hcomplete e tn Hin Hpass) as (r0 & ge & Hr0 & Hge & _ & Hk & _).
    exists (length (groupEdges st) + r0), ge.
    split; [apply list_elem_of_fmap; by exists r0|].
    split; [by apply Hlook|]. split; [|done].
    apply (proj1 (Forall_lookup _ _) Hstands _ _ Hge).
Qed.

(** X18.  [neighbourSelected], read for a group that has no cache yet and
    whose outgoing counterparts have pairwise different identifiers: the
    answer is [true] exactly when some visible edge of a visible member that
    one of the three passes enters has a selected counterpart.  The graph is
    left as it was. *)
Theorem neighbourSelected_first_read (st : Store) (this : string) :
  groupEdgesCache st !! this = None →
  (∀ e e' targetNode targetNode',
     e ∈ visited (graph st) this → e' ∈ visited (graph st) this →
     passes (graph st) this true false e = Some targetNode →
     passes (graph st) this true false e' = Some targetNode' →
     NodeCommon_identifier targetNode = NodeCommon_identifier targetNode' →
     targetNode = targetNode') →
  let '(answer, st') := neighbourSelected idf selected st this in
  graph st' = graph st
  ∧ (answer = true
     ↔ ∃ e outNotIn exclusivelyTargetIsGroup targetNode,
         e ∈ visited (graph st) this
         ∧ passes (graph st) this outNotIn exclusivelyTargetIsGroup e
           = Some targetNode
         ∧ selected targetNode = true).
Proof.
  intros Hnone Hids.
  assert (Hempty : ∀ o x, cached st this o x = ∅).
  { intros o x. unfold cached. rewrite Hnone. by destruct o, x. }
  unfold neighbourSelected, visibleGroupEdges, restOfVisibleGroupEdges.
  (* the incoming edges from ungrouped nodes *)
  pose proof (getGroupEdgesInDirection_first st this false false
                (Hempty false false)) as Ha.
  pose proof (getGroupEdgesInDirection_other_bucket idf st this false false)
    as (Hg_a & _ & Hbucket_a & _ & _).
  destruct (getGroupEdgesInDirection idf st this false false) as [a sa].
  cbn [fst snd] in *. destruct Ha as [Ha_sound Ha_complete].
  (* the outgoing edges *)
  pose proof (getGroupEdgesInDirection_first sa this true false) as Hb.
  rewrite (Hbucket_a true false), Hg_a in Hb by done.
  specialize (Hb (Hempty true false)).
  pose proof (getGroupEdgesInDirection_other_bucket idf sa this true false)
    as (Hg_b & _ & Hbucket_b & [h_b Hheap_b] & _).
  destruct (getGroupEdgesInDirection idf sa this true false) as [b sb].
  cbn [fst snd] in *. destruct Hb as [Hb_sound Hb_complete].
  (* the incoming edges from grouped nodes *)
  pose proof (getGroupEdgesInDirection_first sb this false true) as Hc.
  rewrite (Hbucket_b false true), (Hbucket_a false true), Hg_b, Hg_a in Hc
    by done.
  specialize (Hc (Hempty false true)).
  pose proof (getGroupEdgesInDirection_other_bucket idf sb this false true)
    as (Hg_c & _ & _ & [h_c Hheap_c] & _).
  destruct (getGroupEdgesInDirection idf sb this false true) as [c sc].
  cbn [fst snd] in *. destruct Hc as [Hc_sound Hc_complete].
  split; [congruence|].
  (* every returned edge is read from the final heap *)
  assert (Hfinal_a : ∀ r ge, groupEdges sa !! r = Some ge →
            groupEdges sc !!! r = ge).
  { intros r ge Hge. apply list_lookup_total_correct.
    rewrite Hheap_c, Hheap_b. by do 2 apply lookup_app_l_Some. }
  assert (Hfinal_b : ∀ r ge, groupEdges sb !! r = Some ge →
            groupEdges sc !!! r = ge).
  { intros r ge Hge. apply list_lookup_total_correct.
    rewrite Hheap_c. by apply lookup_app_l_Some. }
  assert (Hfinal_c : ∀ r ge, groupEdges sc !! r = Some ge →
            groupEdges sc !!! r = ge).
  { intros r ge Hge. by apply list_lookup_total_correct. }
  rewrite existsb_exists. split.
  - intros (r & Hr & Htest). apply list_elem_of_In in Hr.
    apply elem_of_app in Hr as [[Hr|Hr]%elem_of_app|Hr].
    + destruct (Ha_sound r Hr) as (ge & Hge & Hst).
      rewrite (Hfinal_a r ge Hge) in Htest.
      rewrite (neighbour_is_selected_stands_for _ _ _ _ _ Hst) in Htest.
      destruct Hst as (_ & e & Hin & Hpass & _).
      by exists e, false, false, (other_end false ge).
    + destruct (Hb_sound r Hr) as (ge & Hge & Hst).
      rewrite (Hfinal_b r ge Hge) in Htest.
      rewrite (neighbour_is_selected_stands_for _ _ _ _ _ Hst) in Htest.
      destruct Hst as (_ & e & Hin & Hpass & _).
      by exists e, true, false, (other_end true ge).
    + destruct (Hc_sound r Hr) as (ge & Hge & Hst).
      rewrite (Hfinal_c r ge Hge) in Htest.
      rewrite (neighbour_is_selected_stands_for _ _ _ _ _ Hst) in Htest.
      destruct Hst as (_ & e & Hin & Hpass & _).
      by exists e, false, true, (other_end false ge).
  - intros (e & o & x & tn & Hin & Hpass & Hsel).
    assert (Hincoming : ∀ x' ge,
              passes (graph st) this false x' e = Some tn →
              stands_for (graph st) this false x' ge →
              NodeCommon_identifier (other_end false ge)
              = NodeCommon_identifier tn →
              other_end false ge = tn).
    { intros x' ge Hp (_ & e' & _ & Hp' & _) Hk.
      apply passes_Some in Hp as (_ & _ & _ & -> & _).
      apply passes_Some in Hp' as (_ & _ & _ & Hsource & _).
      rewrite Hsource in *. cbn in Hk. by rewrite Hk. }
    destruct o; [|destruct x].
    + rewrite passes_out in Hpass.
      destruct (Hb_complete e tn Hin Hpass) as (r & ge & Hr & Hge & Hst & Hk).
      exists r. split.
      { apply list_elem_of_In. apply elem_of_app. left. apply elem_of_app.
        by right. }
      rewrite (Hfinal_b r ge Hge).
      rewrite (neighbour_is_selected_stands_for _ _ _ _ _ Hst).
      destruct Hst as (_ & e' & Hin' & Hpass' & _).
      by rewrite (Hids e' e _ _ Hin' Hin Hpass' Hpass Hk).
    + destruct (Hc_complete e tn Hin Hpass) as (r & ge & Hr & Hge & Hst & Hk).
      exists r. split.
      { apply list_elem_of_In. apply elem_of_app. by right. }
      rewrite (Hfinal_c r ge Hge).
      rewrite (neighbour_is_selected_stands_for _ _ _ _ _ Hst).
      by rewrite (Hincoming true ge Hpass Hst Hk).
    + destruct (Ha_complete e tn Hin Hpass) as (r & ge & Hr & Hge & Hst & Hk).
      exists r. split.
      { apply list_elem_of_In. apply elem_of_app. left. apply elem_of_app.
        by left. }
      rewrite (Hfinal_a r ge Hge).
      rewrite (neighbour_is_selected_stands_for _ _ _ _ _ Hst).
      by rewrite (Hincoming false ge Hpass Hst Hk).
Qed.

End neighbours.

Section neighbours_examples.
Import NodeGroup.

Lemma graph_wide_counterparts (e e' : Edge.t) (targetNode targetNode' : NodeCommon) :
  e ∈ visited Examples.graph_wide "g" → e' ∈ visited Examples.graph_wide "g" →
  passes Examples.graph_wide "g" true false e = Some targetNode →
  passes Examples.graph_wide "g" true false e' = Some targetNode' →
  NodeCommon_identifier targetNode = NodeCommon_identifier targetNode' →
  targetNode = targetNode'.
Proof.
  assert (Hnode : ∀ e tn,
            e ∈ visited Examples.graph_wide "g" →
            passes Examples.graph_wide "g" true false e = Some tn →
            tn = IsNode (Edge.target e)).
  { clear. intros e tn He Hp.
    assert (Hv : visited Examples.graph_wide "g"
                 = [Examples.e1; Examples.e3; Examples.e2; Examples.e4])
      by (vm_compute; reflexivity).
    rewrite Hv in He. apply passes_Some in Hp as (_ & _ & _ & Hshape).
    repeat (apply elem_of_cons in He as [->|He]);
      [exact Hshape..|by apply elem_of_nil in He]. }
  intros He He' Hp Hp' Hid.
  rewrite (Hnode e targetNode He Hp), (Hnode e' targetNode' He' Hp') in *.
  cbn in Hid. by rewrite Hid.
Qed.

Lemma neighbourSelected_first_read_witness :
  let '(answer, st') :=
    neighbourSelected Examples.sample_identifier
      (λ n, bool_decide (n = IsNode "x"))
      (mkStore Examples.graph_wide ∅ []) "g" in
  graph st' = Examples.graph_wide
  ∧ (answer = true
     ↔ ∃ e outNotIn exclusivelyTargetIsGroup targetNode,
         e ∈ visited Examples.graph_wide "g"
         ∧ passes Examples.graph_wide "g" outNotIn exclusivelyTargetIsGroup e
           = Some targetNode
         ∧ bool_decide (targetNode = IsNode "x") = true).
Proof.
  apply (neighbourSelected_first_read Examples.sample_identifier
           (λ n, bool_decide (n = IsNode "x"))
           (mkStore Examples.graph_wide ∅ []) "g").
  - reflexivity.
  - apply graph_wide_counterparts.
Defined.

End neighbours_examples.

(** ** ColaLayout: compact mode with one argument missing *)

Section compact_mode_errors.
Import ColaLayout.

(** X19.  [onCompactMode] with exactly one of its arguments [null] throws
    when it reaches the loop over that argument.  By then compact mode has
    been switched on: [compactMode] holds the elements of the nodes (of
    nothing, if the nodes are missing), and panning, zooming and box selection
    are off if [compactMode] was [null] before.  No handle is created and
    none is run. *)
Theorem onCompactMode_one_null (w : World) (given : list string) :
  let '(completion, w1) := onCompactMode w (Some given) None in
  let '(completion', w2) := onCompactMode w None (Some given) in
  let switched :=
    match compactMode (layout w) with
    | CompactNull => (false, false, false)
    | CompactUndefined | CompactCollection _ => area w
    end in
  completion = Throws ∧ completion' = Throws
  ∧ compactMode (layout w1) = CompactCollection (list_to_set given)
  ∧ compactMode (layout w2) = CompactCollection ∅
  ∧ area w1 = switched ∧ area w2 = switched
  ∧ length (layouts (cy w1)) = length (layouts (cy w))
  ∧ length (layouts (cy w2)) = length (layouts (cy w))
  ∧ omap started (calls (cy w1)) = omap started (calls (cy w))
  ∧ omap started (calls (cy w2)) = omap started (calls (cy w)).
Proof.
  unfold onCompactMode. rewrite fold_union_singletons, (left_id_L ∅ (∪)).
  cbv zeta.
  assert (Hstarted : omap started (calls (cy (stopLayout w)))
                     = omap started (calls (cy w))).
  { rewrite stopLayout_calls, omap_app.
    destruct (layoutAnimation (layout w)); cbn; by rewrite app_nil_r. }
  pose proof (stopLayout_length w) as Hlen.
  pose proof (stopLayout_area w) as Harea.
  destruct (compactMode (layout w)); cbn; repeat split; done.
Qed.

End compact_mode_errors.

(** ** NodeGroup: the classes of the edges of a first call *)

Section first_call_classes.
Import NodeGroup.
Variable idf : string → string → string → string.

(** X20.  A call on an empty bucket returns edges that carry the classes
    common to the edges they summarize: every returned [GroupEdge] summarizes
    at least one visible edge of a visible member (an edge with the same
    counterpart identifier and the same type iri that passes the filters of
    the loop), and a class is among its classes exactly when every edge it
    summarizes carries the class. *)
Theorem getGroupEdgesInDirection_first_classes (st : Store) (this : string)
    (outNotIn exclusivelyTargetIsGroup : bool) :
  cached st this outNotIn exclusivelyTargetIsGroup = ∅ →
  let '(edges, st') :=
    getGroupEdgesInDirection idf st this outNotIn exclusivelyTargetIsGroup in
  ∀ r, r ∈ edges →
    ∃ ge,
      groupEdges st' !! r = Some ge
      ∧ (∃ e, e ∈ visited (graph st) this
              ∧ contributes (graph st) this outNotIn exclusivelyTargetIsGroup
                  (NodeCommon_identifier (other_end outNotIn ge))
                  (iri (GroupEdge.type ge)) e)
      ∧ ∀ c, c ∈ GroupEdge.classes ge
             ↔ ∀ e, e ∈ visited (graph st) this →
                    contributes (graph st) this outNotIn exclusivelyTargetIsGroup
                      (NodeCommon_identifier (other_end outNotIn ge))
                      (iri (GroupEdge.type ge)) e →
                    c ∈ Edge.classes e.
Proof.
  intros Hempty. rewrite getGroupEdgesInDirection_unfold.
  pose proof (fresh_classes (graph st) this outNotIn exclusivelyTargetIsGroup)
    as Hclasses.
  pose proof (fresh_stands_for (graph st) this outNotIn
                exclusivelyTargetIsGroup) as Hstands.
  destruct (fresh (graph st) this outNotIn exclusivelyTargetIsGroup)
    as [h2 es].
  cbv zeta. cbn [fst snd groupEdges] in *. rewrite Hempty.
  intros r Hr. rewrite <- list_fmap_compose in Hr.
  apply list_elem_of_fmap in Hr as (r0 & -> & Hr0). cbn.
  rewrite resolve_empty, lookup_app_r by lia.
  replace (length (groupEdges st) + r0 - length (groupEdges st)) with r0 by lia.
  destruct (Hclasses r0 Hr0) as (ge & Hge & Hcls).
  exists ge. split; [done|]. split; [|done].
  destruct (proj1 (Forall_lookup _ _) Hstands _ _ Hge)
    as (_ & e & Hin & Hpass & Hty).
  exists e. split; [done|]. split; [by rewrite Hpass|by rewrite Hty].
Qed.

End first_call_classes.

Section first_call_classes_example.
Import NodeGroup.

Lemma getGroupEdgesInDirection_first_classes_witness :
  let '(edges, st') :=
    getGroupEdgesInDirection Examples.sample_identifier
      (mkStore Examples.graph_after ∅ []) "g" true false in
  ∀ r, r ∈ edges →
    ∃ ge,
      groupEdges st' !! r = Some ge
      ∧ (∃ e, e ∈ visited Examples.graph_after "g"
              ∧ contributes Examples.graph_after "g" true false
                  (NodeCommon_identifier (other_end true ge))
                  (iri (GroupEdge.type ge)) e)
      ∧ ∀ c, c ∈ GroupEdge.classes ge
             ↔ ∀ e, e ∈ visited Examples.graph_after "g" →
                    contributes Examples.graph_after "g" true false
                      (NodeCommon_identifier (other_end true ge))
                      (iri (GroupEdge.type ge)) e →
                    c ∈ Edge.classes e.
Proof.
  apply (getGroupEdgesInDirection_first_classes Examples.sample_identifier
           (mkStore Examples.graph_after ∅ []) "g" true false).
  reflexivity.
Defined.

End first_call_classes_example.

(** ** ColaLayout: seeded nodes do not share a position *)

Section seeding_positions.
Import ColaLayout.





End seeding_positions.

(** ** ColaLayout: when the canvas is locked *)

Section locked_canvas.
Import ColaLayout.

Lemma locked_only_in_compact_mode_frame (w w' : World) :
  area w' = area w →
  isCompactModeActive (layout w') = isCompactModeActive (layout w) →
  locked_only_in_compact_mode w → locked_only_in_compact_mode w'.
Proof. unfold locked_only_in_compact_mode. by intros -> ->. Qed.

Lemma locked_only_in_compact_mode_executeLayout (w : World) c f :
  locked_only_in_compact_mode w →
  locked_only_in_compact_mode (executeLayout w c f).
Proof.
  apply locked_only_in_compact_mode_frame.
  - apply executeLayout_area.
  - apply executeLayout_compactMode.
Qed.

Lemma locked_only_in_compact_mode_onCompactMode (w : World) ns es :
  locked_only_in_compact_mode w →
  locked_only_in_compact_mode (onCompactMode w ns es).2.
Proof.
  intros Hinv. unfold onCompactMode.
  destruct ns as [ns|], es as [es|]; cbn [snd];
    try (apply locked_only_in_compact_mode_executeLayout);
    unfold locked_only_in_compact_mode, isCompactModeActive in *;
    destruct (compactMode (layout w)) eqn:Ecm; cbn;
    first [ by right
          | by left
          | destruct Hinv as [Hinv|[Hinv ?]]; [by left|by right]
          | destruct Hinv as [Hinv|[Hinv ?]]; [by left|done] ].
Qed.

Lemma step_locked_only_in_compact_mode (w w' : World) :
  step w w' →
  locked_only_in_compact_mode w → locked_only_in_compact_mode w'.
Proof.
  intros Hstep Hinv. destruct Hstep.
  - by apply (locked_only_in_compact_mode_frame w).
  - unfold deactivate.
    apply (locked_only_in_compact_mode_frame
             (onCompactMode (set_layout (set_isActive false) w) None None).2).
    + apply stopLayout_area.
    + by rewrite stopLayout_layout.
    + apply locked_only_in_compact_mode_onCompactMode.
      by apply (locked_only_in_compact_mode_frame w).
  - unfold onDrag.
    case_match; [by apply locked_only_in_compact_mode_executeLayout|done].
  - by apply locked_only_in_compact_mode_executeLayout.
  - by apply locked_only_in_compact_mode_executeLayout.
  - by apply locked_only_in_compact_mode_onCompactMode.
  - unfold onExpansion_resumed.
    case_match; [done|by apply locked_only_in_compact_mode_executeLayout].
  - unfold onGroupBroken_resumed.
    case_match; [done|by apply locked_only_in_compact_mode_executeLayout].
  - by apply (locked_only_in_compact_mode_frame w).
  - by apply (locked_only_in_compact_mode_frame w).
  - by apply (locked_only_in_compact_mode_frame w).
  - by apply (locked_only_in_compact_mode_frame w).
Qed.

(** X22.  In every state the object can reach, panning, zooming and box
    selection are either all on, or all off while compact mode is active:
    the canvas is never left locked outside compact mode. *)
Theorem reachable_locked_only_in_compact_mode (w : World) :
  reachable w →
  area w = (true, true, true)
  ∨ (area w = (false, false, false) ∧ isCompactModeActive (layout w) = true).
Proof.
  unfold reachable. revert w.
  apply (rtc_ind_r (R := step) locked_only_in_compact_mode).
  - by left.
  - intros y z _ Hstep IH. by apply (step_locked_only_in_compact_mode y z).
Qed.

Lemma reachable_locked_only_in_compact_mode_witness :
  let w :=
    (onCompactMode (deactivate (activate initial)) (Some ["a"]) (Some [])).2 in
  area w = (true, true, true)
  ∨ (area w = (false, false, false) ∧ isCompactModeActive (layout w) = true).
Proof.
  apply (reachable_locked_only_in_compact_mode
           (onCompactMode (deactivate (activate initial)) (Some ["a"]) (Some [])).2).
  eapply rtc_l; [apply step_activate|].
  eapply rtc_l; [apply step_deactivate|].
  eapply rtc_l; [apply step_onCompactMode|]. apply rtc_refl.
Defined.

End locked_canvas.

(** ** ColaLayout: the options never lose a field *)

Section options_kept.
Import ColaLayout.

Lemma executeLayout_options (w : World) c f :
  options (layout (executeLayout w c f)) = options (layout w).
Proof. by rewrite executeLayout_layout. Qed.

Lemma onCompactMode_options (w : World) ns es :
  options (layout (onCompactMode w ns es).2) = options (layout w).
Proof.
  unfold onCompactMode.
  destruct ns as [ns|], es as [es|]; cbn [snd];
    rewrite ?executeLayout_options; unfold isCompactModeActive;
    destruct (compactMode (layout w)); cbn; by rewrite ?stopLayout_layout.
Qed.

Lemma step_options (w w' : World) :
  step w w' → dom (options (layout w)) ⊆ dom (options (layout w')).
Proof.
  intros Hstep. destruct Hstep; try done.
  - unfold deactivate. by rewrite stopLayout_layout, onCompactMode_options.
  - unfold onDrag. case_match; [by rewrite executeLayout_options|done].
  - unfold onLockedChanged. by rewrite executeLayout_options.
  - unfold run. by rewrite executeLayout_options.
  - by rewrite onCompactMode_options.
  - unfold onExpansion_resumed.
    case_match; [done|by rewrite executeLayout_options].
  - unfold onGroupBroken_resumed.
    case_match; [done|by rewrite executeLayout_options].
  - cbn. rewrite dom_union. apply union_subseteq_r.
Qed.

(** X23.  No event removes an option: in every state the object can reach,
    each of the seven options of [ColaLayoutOptions] is a field of
    [options].  [restoreFromObject] can give an option another value or add
    further fields, never drop one. *)
Theorem reachable_options (w : World) :
  reachable w → recognized ⊆ dom (options (layout w)).
Proof.
  unfold reachable. revert w.
  apply (rtc_ind_r (R := step) (λ w, recognized ⊆ dom (options (layout w)))).
  - done.
  - intros y z _ Hstep IH. etrans; [exact IH|]. by apply step_options.
Qed.

Lemma reachable_options_witness :
  recognized
  ⊆ dom (options (layout (set_layout
                            (λ this, restoreFromObject this
                                       {["animate" := VBool false]})
                            (activate initial)))).
Proof.
  apply (reachable_options
           (set_layout (λ this, restoreFromObject this
                                  {["animate" := VBool false]})
              (activate initial))).
  eapply rtc_l; [apply step_activate|].
  eapply rtc_l; [apply step_restoreFromObject|]. apply rtc_refl.
Defined.

End options_kept.
